(** * Anomaly detection on a univariate time series

    A shallow embedding of [src/anomaly_detection.py]
    ([detect_type1_spike_up] and [detect_type2_turn_patterns]) together with
    the properties its specification states.

    Modelling conventions.
    - A [pd.Series] is the list of its rows, each an index label (timestamp)
      and a value.  The type of timestamps is arbitrary.
    - The arithmetic of the source is read twice.  The module [F64], further
      down, evaluates the source in IEEE 754 double arithmetic, as numpy
      does: every operation is rounded, products can underflow, and the
      infinities and NaN are values.  The properties that depend on what
      the arithmetic computes (which values exceed a threshold, when the
      sign test of the turn condition fires, when a difference is missing)
      are stated on it.  The definitions at the top level read the same
      source over the real numbers of the data model of the specification:
      a value is an exact rational [Q] or missing ([NaN], [None]);
      arithmetic propagates [NaN] and every comparison with [NaN] is false.
      They carry the properties of the structure of the code (the guards,
      the rows read, the order and the keys of the results, the windows)
      and the quantile as the specification defines it.
    - Exceptions are explicit: a computation returns [Ok v] or [Raise e].
      [Series.quantile] raises [ValueError] when its argument is outside
      [0, 1]; positional access out of range raises [IndexError].
    - [defaultdict(list)] is a finite map from strings to lists; a key
      exists in it only once it has been accessed. *)

From Stdlib Require Import QArith Qround Qabs Lqa Sorted Permutation SpecFloat.
From stdpp Require Import gmap strings list fin_maps sorting.

Local Open Scope Z_scope.
Local Open Scope nat_scope.

(** ** Exceptions *)

Inductive exn := ValueError | IndexError.

Inductive result (A : Type) : Type :=
  | Ok (a : A)
  | Raise (e : exn).
Arguments Ok {A} a.
Arguments Raise {A} e.

#[export] Instance result_ret : MRet result := λ A a, Ok a.
#[export] Instance result_bind : MBind result := λ A B f m,
  match m with Ok a => f a | Raise e => Raise e end.

(** ** Values over the real numbers: a rational or NaN *)

Abbreviation float := (option Q).
Abbreviation NaN := (@None Q).

Definition isna (x : float) : bool :=
  match x with None => true | Some _ => false end.
Definition notna (x : float) : bool := negb (isna x).

Definition Qltb (x y : Q) : bool := negb (Qle_bool y x).

(** [a <= b], [a < b], [a >= b], [a > b] on floats. *)
Definition fle (a b : float) : bool :=
  match a, b with Some x, Some y => Qle_bool x y | _, _ => false end.
Definition flt (a b : float) : bool :=
  match a, b with Some x, Some y => Qltb x y | _, _ => false end.
Definition fge (a b : float) : bool := fle b a.
Definition fgt (a b : float) : bool := flt b a.

Definition fsub (a b : float) : float :=
  match a, b with Some x, Some y => Some (x - y)%Q | _, _ => NaN end.
Definition fmul (a b : float) : float :=
  match a, b with Some x, Some y => Some (x * y)%Q | _, _ => NaN end.
Definition fabs (a : float) : float := Qabs <$> a.
Definition fneg (a : float) : float := Qopp <$> a.

(** Python's builtin [max(a, b)]: the first argument unless the second is
    strictly greater. *)
Definition pymax (a b : float) : float := if fgt b a then b else a.

(** A threshold that is a float or [np.inf]. *)
Inductive bound := Finite (x : float) | np_inf.

(** [a >= b] for a float [a] that is finite or NaN and a bound [b]. *)
Definition fge_bound (a : float) (b : bound) : bool :=
  match b with
  | Finite x => fge a x
  | np_inf => false
  end.

(** ** Quantiles

    [Series.quantile(q)] is a pandas function; it is modelled as pandas
    documents it, with the default [interpolation='linear']: the argument is
    validated, missing values are skipped, and the result is numpy's linear
    percentile of the remaining values. *)

Fixpoint insert_sorted (x : Q) (l : list Q) : list Q :=
  match l with
  | [] => [x]
  | y :: l' => if Qle_bool x y then x :: l else y :: insert_sorted x l'
  end.

Definition sort_values (l : list Q) : list Q := foldr insert_sorted [] l.

(** The non-missing values of a column. *)
Definition valid (s : list float) : list Q := omap id s.

Definition lerp (a b t : Q) : Q := (a + (b - a) * t)%Q.

(** numpy's linear percentile: the value at the virtual index [q * (n - 1)]
    of the sorted values, interpolated between the rank below and the next
    one (the last rank has no next one and stands for it); NaN when there
    is no value. *)
Definition percentile_linear (xs : list Q) (q : Q) : float :=
  let n := Z.of_nat (length xs) in
  let sorted := sort_values xs in
  let virtual_index := (q * inject_Z (n - 1))%Q in
  let previous_index := Qfloor virtual_index in
  let next_index := Z.min (previous_index + 1) (n - 1) in
  let gamma := (virtual_index - inject_Z previous_index)%Q in
  match sorted !! Z.to_nat previous_index, sorted !! Z.to_nat next_index with
  | Some a, Some b => Some (lerp a b gamma)
  | _, _ => NaN
  end.

(** pandas refuses a quantile outside [0, 1]. *)
Definition validate_percentile (q : Q) : result unit :=
  if Qle_bool 0 q && Qle_bool q 1 then Ok () else Raise ValueError.

(** [s.quantile(q)]: missing values are skipped. *)
Definition quantile (s : list float) (q : Q) : result float :=
  _ ← validate_percentile q;
  Ok (percentile_linear (valid s) q).

(** ** Series *)

Section Detectors.

Context {T : Type}.

(** Rows of a series: index label and value. *)
Abbreviation Series := (list (T * float)).

Definition index (r : Series) : list T := r.*1.
Definition values (r : Series) : list float := r.*2.

(** [r.dropna()] *)
Definition dropna (r : Series) : Series :=
  List.filter (λ p, notna p.2) r.

(** [r.index[mask]] for the boolean mask [r > th]. *)
Definition index_where_gt (r : Series) (th : float) : list T :=
  index (List.filter (λ p, fgt p.2 th) r).

(** ** Type 1: upward spikes *)

(** [detect_type1_spike_up(r, q_up=0.99)] *)
Definition detect_type1_spike_up (r : Series) (q_up : Q) : result (list T) :=
  let r := dropna r in
  if length r <? 5 then Ok []
  else
    th ← quantile (values r) q_up;
    Ok (index_where_gt r th).

(** ** Type 2: turn patterns *)

(** [s.diff()]: the difference with the previous row, NaN in the first. *)
Definition diff (g : list float) : list float := zip_with fsub g (NaN :: g).

(** [s.iloc[i]] for a position [i >= 0]. *)
Definition iloc {A : Type} (l : list A) (i : nat) : result A :=
  match l !! i with
  | Some x => Ok x
  | None => Raise IndexError
  end.

(** A bound of a Python slice, over a sequence of length [n]: a negative
    bound counts from the end, and both are clipped to the sequence. *)
Definition slice_bound (n : nat) (i : Z) : nat :=
  if (i <? 0)%Z then Z.to_nat (Z.max 0 (i + Z.of_nat n))
  else Z.to_nat (Z.min i (Z.of_nat n)).

(** [s.iloc[start:stop]] *)
Definition iloc_slice {A : Type} (l : list A) (start stop : Z) : list A :=
  let a := slice_bound (length l) start in
  let b := slice_bound (length l) stop in
  take (b - a) (drop a l).

(** The sum of a list of numbers. *)
Definition Qsum (xs : list Q) : Q := foldr Qplus 0%Q xs.

(** [s.mean()]: the mean of the non-missing values, NaN when there is none. *)
Definition mean (s : list float) : float :=
  match valid s with
  | [] => NaN
  | xs => Some (Qsum xs / inject_Z (Z.of_nat (length xs)))%Q
  end.

(** The labels ['flat'], ['up'] and ['down'] of a local mean. *)
Inductive trend := flat | up | down.

#[export] Instance trend_eq_dec : EqDecision trend.
Proof. solve_decision. Defined.

Definition trend_label (th_flat th_trend mu : float) : trend :=
  if fle (fabs mu) th_flat then flat
  else if fge mu th_trend then up
  else if fle mu (fneg th_trend) then down
  else flat.

(** The four pattern names. *)
Definition pattern_names : list string :=
  ["down_turn_flat"; "flat_turn_down"; "flat_turn_up"; "up_turn_flat"]%string.

(** [labels[k].append(t)] on a [defaultdict(list)]. *)
Definition append_label (labels : gmap string (list T)) (k : string) (t : T)
    : gmap string (list T) :=
  <[k := default [] (labels !! k) ++ [t]]> labels.

(** [labels[k]] read on the returned [defaultdict(list)]. *)
Definition bucket (labels : gmap string (list T)) (k : string) : list T :=
  default [] (labels !! k).

(** The thresholds derived once from the whole cleaned series. *)
Record thresholds := Thresholds {
  th_h : bound;
  th_flat : float;
  th_trend : float
}.

(** [th_h], [th_flat] and [th_trend], in the order the source computes
    them. *)
Definition derive_thresholds (g h : list float) (q_h q_flat q_trend : Q)
    : result thresholds :=
  th_h ← (if existsb notna h
          then th ← quantile (fabs <$> h) q_h; Ok (Finite th)
          else Ok np_inf);
  let abs_g := List.filter notna (fabs <$> g) in
  th_flat ← (if bool_decide (length abs_g ≠ 0) then quantile abs_g q_flat
             else Ok (Some 0%Q));
  th_trend ← (if bool_decide (length abs_g ≠ 0) then quantile abs_g q_trend
              else Ok (Some 0%Q));
  let th_trend := pymax th_trend (fmul th_flat (Some 1.1%Q)) in
  Ok (Thresholds th_h th_flat th_trend).

(** The turn condition at a position, from the values read there. *)
Definition turn_cond (th : thresholds) (g_prev g_curr h_curr : float) : bool :=
  fle (fmul g_prev g_curr) (Some 0%Q) && fge_bound (fabs h_curr) (th_h th).

(** One iteration of the scan, at position [t_pos]. *)
Definition scan_step (r : Series) (g h : list float) (th : thresholds)
    (w_pre w_post : Z) (labels : gmap string (list T)) (t_pos : nat)
    : result (gmap string (list T)) :=
  t ← iloc (index r) t_pos;
  g_prev ← iloc g (t_pos - 1);
  g_curr ← iloc g t_pos;
  h_curr ← iloc h t_pos;
  if isna g_prev || isna g_curr || isna h_curr then Ok labels
  else if negb (turn_cond th g_prev g_curr h_curr) then Ok labels
  else
    let pre_mu :=
      mean (iloc_slice g (Z.max 0 (Z.of_nat t_pos - w_pre)) (Z.of_nat t_pos)) in
    let post_mu :=
      mean (iloc_slice g (Z.of_nat t_pos + 1)
              (Z.min (Z.of_nat (length g)) (Z.of_nat t_pos + 1 + w_post))) in
    let pre_lbl := trend_label (th_flat th) (th_trend th) pre_mu in
    let post_lbl := trend_label (th_flat th) (th_trend th) post_mu in
    if bool_decide (pre_lbl = down) && bool_decide (post_lbl = flat)
    then Ok (append_label labels "down_turn_flat" t)
    else if bool_decide (pre_lbl = flat) && bool_decide (post_lbl = down)
    then Ok (append_label labels "flat_turn_down" t)
    else if bool_decide (pre_lbl = flat) && bool_decide (post_lbl = up)
    then Ok (append_label labels "flat_turn_up" t)
    else if bool_decide (pre_lbl = up) && bool_decide (post_lbl = flat)
    then Ok (append_label labels "up_turn_flat" t)
    else Ok labels.

(** [for p in ps: s = body(s, p)], stopping at the first exception. *)
Fixpoint for_each {S : Type} (body : S → nat → result S) (s : S)
    (ps : list nat) : result S :=
  match ps with
  | [] => Ok s
  | p :: ps' => s' ← body s p; for_each body s' ps'
  end.

(** [detect_type2_turn_patterns(r, w_pre=3, w_post=3, q_h=0.9, q_flat=0.2,
    q_trend=0.7)].  [r.astype(float)] leaves the values of the model as they
    are; the empty map is the fresh [defaultdict(list)]. *)
Definition detect_type2_turn_patterns (r : Series) (w_pre w_post : Z)
    (q_h q_flat q_trend : Q) : result (gmap string (list T)) :=
  let r := dropna r in
  if (Z.of_nat (length r) <? w_pre + w_post + 4)%Z then Ok ∅
  else
    let g := values r in
    let h := diff g in
    th ← derive_thresholds g h q_h q_flat q_trend;
    for_each (scan_step r g h th w_pre w_post) ∅ (seq 1 (length r - 1 - 1)).

End Detectors.

(** * Vocabulary of the properties *)

(** ** Quantiles, as the specification defines them *)

(** The order statistics of [xs]: its values arranged in nondecreasing
    order. *)
Definition order_statistics (xs s : list Q) : Prop :=
  Permutation s xs ∧ StronglySorted Qle s.

(** The specification's definition of the quantile: the value at position
    [q * (n - 1)] of the sorted values (0-indexed); at a non-integer position
    the linear interpolation between the two adjacent ranks. *)
Definition linear_quantile (xs : list Q) (q th : Q) : Prop :=
  ∃ s : list Q, order_statistics xs s ∧
    let pos := (q * inject_Z (Z.of_nat (length xs) - 1))%Q in
    let k := Z.to_nat (Qfloor pos) in
    (0 <= pos)%Q ∧
    ((pos == inject_Z (Qfloor pos))%Q → ∃ a, s !! k = Some a ∧ (th == a)%Q) ∧
    (¬ (pos == inject_Z (Qfloor pos))%Q →
       ∃ a b, s !! k = Some a ∧ s !! S k = Some b ∧
              (th == a + (b - a) * (pos - inject_Z (Qfloor pos)))%Q).

(** The number of values of [l] that are at most [x]. *)
Definition count_le (x : Q) (l : list Q) : nat :=
  length (List.filter (λ y, Qle_bool y x) l).

Section Vocabulary.

Context {T : Type}.

Abbreviation Series := (list (T * float)).

(** ** Spikes *)

(** A row is a spike for the threshold [th] when its value is present and
    strictly greater than [th]. *)
Definition is_spike (th : Q) (p : T * float) : Prop :=
  ∃ v : Q, p.2 = Some v ∧ (th < v)%Q.

#[export] Instance is_spike_dec (th : Q) (p : T * float) :
  Decision (is_spike th p).
Proof.
  destruct p as [t [v|]].
  - destruct (Qlt_le_dec th v) as [Hlt|Hle].
    + left. by exists v.
    + right. intros (v' & [= <-] & Hlt). by apply Qlt_not_le in Hlt.
  - right. by intros (v' & [=] & _).
Defined.

(** ** Hits of the scan *)

(** One recorded hit of the scan: position, timestamp, pattern name. *)
Abbreviation hit := (nat * T * string)%type.

Definition record_hit (labels : gmap string (list T)) (e : hit)
    : gmap string (list T) :=
  append_label labels e.2 e.1.2.

(** The mapping after recording a sequence of hits, in order. *)
Definition replay (labels : gmap string (list T)) (tr : list hit)
    : gmap string (list T) :=
  foldl record_hit labels tr.

(** The hits of pattern [k], and the timestamps of a sequence of hits. *)
Definition hits (k : string) (tr : list hit) : list hit :=
  filter (λ e, e.2 = k) tr.
Definition stamps (tr : list hit) : list T := tr.*1.*2.
Definition positions (tr : list hit) : list nat := tr.*1.*1.

(** What holds of every hit the scan records. *)
Definition hit_ok (r : Series) (th : thresholds) (e : hit) : Prop :=
  1 ≤ e.1.1 ∧ e.1.1 + 2 ≤ length r ∧
  index r !! e.1.1 = Some e.1.2 ∧
  e.2 ∈ pattern_names ∧
  ∃ a b : Q,
    values r !! (e.1.1 - 1) = Some (Some a) ∧
    values r !! e.1.1 = Some (Some b) ∧
    diff (values r) !! e.1.1 = Some (Some (b - a)%Q) ∧
    turn_cond th (Some a) (Some b) (Some (b - a)%Q) = true.

(** ** Shapes of the result *)

(** The detector returned, and each of the four buckets is empty. *)
Definition all_buckets_empty (res : result (gmap string (list T))) : Prop :=
  ∃ m, res = Ok m ∧ Forall (λ k, bucket m k = []) pattern_names.

(** The detector returned a mapping whose keys are the four names. *)
Definition has_four_keys (res : result (gmap string (list T))) : Prop :=
  ∃ m, res = Ok m ∧ dom m = list_to_set pattern_names.

End Vocabulary.

(** ** The pattern recorded at a position *)

(** The two windows of the scan around position [t_pos]. *)
Definition pre_window (g : list float) (w_pre : Z) (t_pos : nat) : list float :=
  iloc_slice g (Z.max 0 (Z.of_nat t_pos - w_pre)) (Z.of_nat t_pos).

Definition post_window (g : list float) (w_post : Z) (t_pos : nat)
    : list float :=
  iloc_slice g (Z.of_nat t_pos + 1)
    (Z.min (Z.of_nat (length g)) (Z.of_nat t_pos + 1 + w_post)).

(** The table of the four patterns: the name for a pair of labels. *)
Definition pattern_of (pre_lbl post_lbl : trend) : option string :=
  match pre_lbl, post_lbl with
  | down, flat => Some "down_turn_flat"%string
  | flat, down => Some "flat_turn_down"%string
  | flat, up => Some "flat_turn_up"%string
  | up, flat => Some "up_turn_flat"%string
  | _, _ => None
  end.

(** The labels of the two windows around a position. *)
Definition window_labels (g : list float) (th : thresholds) (w_pre w_post : Z)
    (t_pos : nat) : trend * trend :=
  (trend_label (th_flat th) (th_trend th) (mean (pre_window g w_pre t_pos)),
   trend_label (th_flat th) (th_trend th) (mean (post_window g w_post t_pos))).

(** The turn condition read at a position of the series [g]. *)
Definition turn_at (g : list float) (th : thresholds) (t_pos : nat) : bool :=
  match g !! (t_pos - 1), g !! t_pos, diff g !! t_pos with
  | Some g_prev, Some g_curr, Some h_curr =>
      negb (isna g_prev || isna g_curr || isna h_curr) &&
      turn_cond th g_prev g_curr h_curr
  | _, _, _ => false
  end.

(** The pattern, if any, that the scan records at a position. *)
Definition pattern_at (g : list float) (th : thresholds) (w_pre w_post : Z)
    (t_pos : nat) : option string :=
  if turn_at g th t_pos
  then pattern_of (window_labels g th w_pre w_post t_pos).1
                  (window_labels g th w_pre w_post t_pos).2
  else None.

(** The timestamps of the interior positions of [r] at which pattern [k] is
    recorded, in position order. *)
Definition pattern_stamps {T : Type} (r : list (T * float)) (th : thresholds)
    (w_pre w_post : Z) (k : string) : list T :=
  omap (λ p, index r !! p)
    (filter (λ p, pattern_at (values r) th w_pre w_post p = Some k)
       (seq 1 (length r - 1 - 1))).

(** What a label says of the mean it was given, for thresholds
    [0 <= f <= t]: an [up] mean is at least [t] and above [f], a [down] mean
    is at most [-t] and below [-f], a [flat] mean is missing or within
    [-t, t]. *)
Definition label_meaning (f t : Q) (lbl : trend) (mu : float) : Prop :=
  match lbl with
  | up => ∃ x : Q, mu = Some x ∧ (t <= x)%Q ∧ (f < x)%Q
  | down => ∃ x : Q, mu = Some x ∧ (x <= - t)%Q ∧ (x < - f)%Q
  | flat => mu = NaN ∨ ∃ x : Q, mu = Some x ∧ (- t <= x)%Q ∧ (x <= t)%Q
  end.

(** The label of the mirrored mean. *)
Definition mirror (lbl : trend) : trend :=
  match lbl with up => down | down => up | flat => flat end.

(** A float and its multiple by [c]: both missing, or numbers [a] and
    [c * a]. *)
Definition fsim (c : Q) (x x' : float) : Prop :=
  match x, x' with
  | Some a, Some a' => (a' == c * a)%Q
  | None, None => True
  | _, _ => False
  end.

(** Thresholds and their multiples by [k]. *)
Definition th_sim (k : Q) (th th' : thresholds) : Prop :=
  match th_h th, th_h th' with
  | Finite x, Finite x' => fsim k x x'
  | np_inf, np_inf => True
  | _, _ => False
  end ∧
  fsim k (th_flat th) (th_flat th') ∧ fsim k (th_trend th) (th_trend th').

(** The name of the mirrored pattern: [up] and [down] exchanged. *)
Definition mirror_name (k : string) : string :=
  if decide (k = "down_turn_flat"%string) then "up_turn_flat"%string
  else if decide (k = "up_turn_flat"%string) then "down_turn_flat"%string
  else if decide (k = "flat_turn_down"%string) then "flat_turn_up"%string
  else if decide (k = "flat_turn_up"%string) then "flat_turn_down"%string
  else k.

(** The quantile is in range. *)
Definition valid_quantile (q : Q) : Prop := (0 <= q)%Q ∧ (q <= 1)%Q.

(** A series under an affine change of unit, [v ↦ c * v + d]. *)
Definition rescale {T : Type} (c d : Q) (r : list (T * float))
    : list (T * float) :=
  (λ p : T * float, (p.1, (λ v, c * v + d)%Q <$> p.2)) <$> r.

(** ** Example series *)

Definition of_ints (l : list Z) : list (nat * float) :=
  imap (λ i v, (i, Some (inject_Z v))) l.

(** Scenario 1 of the specification: six flat values and one spike. *)
Definition scenario1 : list (nat * float) :=
  of_ints [1; 1; 1; 1; 1; 1; 50]%Z.

(** The same series with a missing value recorded between two rows. *)
Definition scenario1_gap : list (nat * float) :=
  take 3 scenario1 ++ (7, NaN) :: drop 3 scenario1.

(** A strictly increasing series of 20 points that jumps across zero. *)
Definition jump : list (nat * float) :=
  of_ints [-14; -13; -12; -11; -10; -9; -8; -7; -6; -5; -4; -3; -2; -1;
           100; 101; 102; 103; 104; 105]%Z.

(** The thresholds the detector derives on [jump] with its default
    quantiles. *)
Definition jump_thresholds_value : thresholds :=
  Eval vm_compute in
    match derive_thresholds (values jump) (diff (values jump)) 0.9 0.2 0.7 with
    | Ok th => th
    | Raise _ => Thresholds np_inf NaN NaN
    end.

(** [jump] with the sign of every value changed. *)
Definition jump_mirrored : list (nat * float) := rescale (-1) 0 jump.

(** * The source in double arithmetic

    The module [F64] embeds the same two functions with the values and the
    arithmetic of the source: a value is a [float64], that is an IEEE 754
    binary64 number ([spec_float] of the standard library with a mantissa
    of 53 bits and the exponent bound 1024), with its signed zeros, its
    infinities and NaN, the missing value of pandas; every operation rounds
    to nearest, ties to even, and may overflow to an infinity or underflow
    to a zero.

    The functions of pandas and numpy that the source calls are modelled
    as those libraries compute them on a [float64] column:
    - [Series.quantile(q)] raises [ValueError] unless [0 <= q <= 1], skips
      missing values and returns [np.percentile(values, q * 100.0)] with the
      linear method: numpy divides by 100 again, takes the virtual index
      [(n - 1) * q] in the sorted values and interpolates between the rank
      below and the next one with [_lerp];
    - [Series.mean()] is the sum of the non-missing values, added up as
      [np.add.reduce] does on a contiguous array, divided by their number;
      the sign of a zero sum, which no comparison of the source can see, is
      that of a sum started at [0.0];
    - [Series.diff], [abs], [dropna], [iloc] and the comparisons are taken
      element by element.
    The column is a column of doubles, as the specification has it; the
    parameters are doubles too, a literal such as [0.99] being the nearest
    double. *)

Module F64.

Definition prec : Z := 53.
Definition emax : Z := 1024.

Definition NaN : spec_float := S754_nan.
Definition inf : spec_float := S754_infinity false.
Definition zero : spec_float := S754_zero false.

Definition isna (x : spec_float) : bool :=
  match x with S754_nan => true | _ => false end.
Definition notna (x : spec_float) : bool := negb (isna x).

Definition fadd : spec_float → spec_float → spec_float := SFadd prec emax.
Definition fsub : spec_float → spec_float → spec_float := SFsub prec emax.
Definition fmul : spec_float → spec_float → spec_float := SFmul prec emax.
Definition fdiv : spec_float → spec_float → spec_float := SFdiv prec emax.
Definition fabs : spec_float → spec_float := SFabs.
Definition fneg : spec_float → spec_float := SFopp.

(** [a <= b], [a < b], [a >= b], [a > b]: false when an operand is NaN. *)
Definition fle : spec_float → spec_float → bool := SFleb.
Definition flt : spec_float → spec_float → bool := SFltb.
Definition fge (a b : spec_float) : bool := fle b a.
Definition fgt (a b : spec_float) : bool := flt b a.

(** The double of an integer: [float(z)]. *)
Definition of_Z (z : Z) : spec_float := binary_normalize prec emax z 0 false.

(** The double of a decimal literal such as [0.99] or [1.1]: the quotient
    of two integers, rounded once. *)
Definition of_Q (q : Q) : spec_float :=
  let round (s : bool) (n : positive) :=
    let '(m, e, l) :=
      SFdiv_core_binary prec emax (Zpos n) 0 (Zpos (Qden q)) 0 in
    binary_round_aux prec emax s m e l in
  match Qnum q with
  | Z0 => zero
  | Zpos n => round false n
  | Zneg n => round true n
  end.

(** The exact value of a finite double. *)
Definition to_Q (x : spec_float) : option Q :=
  match x with
  | S754_zero _ => Some 0%Q
  | S754_finite s m e =>
      let z := if s then Zneg m else Zpos m in
      Some (if (0 <=? e)%Z then inject_Z (z * 2 ^ e)
            else (z # Pos.pow 2 (Z.to_pos (- e))))
  | _ => None
  end.

(** [np.floor(x)] as an integer, for a finite [x]. *)
Definition floor (x : spec_float) : Z :=
  match x with
  | S754_finite s m e =>
      let z := if s then Zneg m else Zpos m in
      if (0 <=? e)%Z then (z * 2 ^ e)%Z else (z / 2 ^ (- e))%Z
  | _ => 0%Z
  end.

(** Python's builtin [max(a, b)]: the first argument unless the second is
    strictly greater. *)
Definition pymax (a b : spec_float) : spec_float := if fgt b a then b else a.

(** ** Quantiles *)

Fixpoint insert_sorted (x : spec_float) (l : list spec_float)
    : list spec_float :=
  match l with
  | [] => [x]
  | y :: l' => if fle x y then x :: l else y :: insert_sorted x l'
  end.

Definition sort_values (l : list spec_float) : list spec_float :=
  foldr insert_sorted [] l.

(** The non-missing values of a column. *)
Definition valid (s : list spec_float) : list spec_float :=
  List.filter notna s.

(** [l[i]] for a Python index: a negative one counts from the end. *)
Definition py_index {A : Type} (l : list A) (i : Z) : option A :=
  if (i <? 0)%Z then l !! Z.to_nat (i + Z.of_nat (length l))
  else l !! Z.to_nat i.

(** numpy's [_lerp(a, b, t)]: [a + (b - a) * t], and
    [b - (b - a) * (1 - t)] from [t = 0.5] on. *)
Definition lerp (a b t : spec_float) : spec_float :=
  let diff_b_a := fsub b a in
  if fge t (of_Q 0.5) then fsub b (fmul diff_b_a (fsub (of_Z 1) t))
  else fadd a (fmul diff_b_a t).

(** numpy's linear percentile [q] (in percent) of values already sorted:
    the virtual index is [(n - 1) * (q / 100)]; at or above the last rank,
    or NaN, both neighbours are the last value ([-1]); below zero both are
    the first. *)
Definition interpolate (sorted : list spec_float) (q : spec_float)
    : spec_float :=
  let n := Z.of_nat (length sorted) in
  let quantiles := fdiv q (of_Z 100) in
  let virtual_index := fmul (of_Z (n - 1)) quantiles in
  let previous_index :=
    if isna virtual_index then (-1)%Z
    else if flt virtual_index (of_Z 0) then 0%Z
    else if fge virtual_index (of_Z (n - 1)) then (-1)%Z
    else floor virtual_index in
  let next_index :=
    if isna virtual_index then (-1)%Z
    else if flt virtual_index (of_Z 0) then 0%Z
    else if fge virtual_index (of_Z (n - 1)) then (-1)%Z
    else (floor virtual_index + 1)%Z in
  let gamma := fsub virtual_index (of_Z previous_index) in
  match py_index sorted previous_index, py_index sorted next_index with
  | Some a, Some b => lerp a b gamma
  | _, _ => NaN
  end.

Definition percentile_linear (xs : list spec_float) (q : spec_float)
    : spec_float :=
  interpolate (sort_values xs) q.

(** pandas refuses a quantile outside [0, 1] (and NaN). *)
Definition validate_percentile (q : spec_float) : result unit :=
  if fle (of_Z 0) q && fle q (of_Z 1) then Ok () else Raise ValueError.

(** [s.quantile(q)]: missing values are skipped; NaN when none is left. *)
Definition quantile (s : list spec_float) (q : spec_float)
    : result spec_float :=
  _ ← validate_percentile q;
  match valid s with
  | [] => Ok NaN
  | xs => Ok (percentile_linear xs (fmul q (of_Q 100)))
  end.

(** ** Means *)

(** The blocks of 8 of numpy's unrolled summation, added to 8
    accumulators; what is left over is returned with them. *)
Fixpoint add_blocks (fuel : nat) (acc l : list spec_float)
    : list spec_float * list spec_float :=
  match fuel with
  | O => (acc, l)
  | S fuel' =>
      if length l <? 8 then (acc, l)
      else add_blocks fuel' (zip_with fadd acc (take 8 l)) (drop 8 l)
  end.

Definition unrolled_sum (l : list spec_float) : spec_float :=
  let '(acc, rest) := add_blocks (length l) (take 8 l) (drop 8 l) in
  match acc with
  | [r0; r1; r2; r3; r4; r5; r6; r7] =>
      foldl fadd
        (fadd (fadd (fadd r0 r1) (fadd r2 r3)) (fadd (fadd r4 r5) (fadd r6 r7)))
        rest
  | _ => NaN
  end.

(** numpy's pairwise summation: a plain loop below 8 values, the unrolled
    loop up to 128, two halves beyond (the first a multiple of 8). *)
Fixpoint pairwise_sum (fuel : nat) (l : list spec_float) : spec_float :=
  let n := length l in
  if n <? 8 then foldl fadd zero l
  else if n <=? 128 then unrolled_sum l
  else
    match fuel with
    | O => NaN
    | S fuel' =>
        let n2 := (n / 2 - (n / 2) mod 8)%nat in
        fadd (pairwise_sum fuel' (take n2 l)) (pairwise_sum fuel' (drop n2 l))
    end.

Definition sum (l : list spec_float) : spec_float :=
  fadd zero (pairwise_sum (length l) l).

(** [s.mean()]: the mean of the non-missing values, NaN when there is
    none. *)
Definition mean (s : list spec_float) : spec_float :=
  match valid s with
  | [] => NaN
  | xs => fdiv (sum xs) (of_Z (Z.of_nat (length xs)))
  end.

(** ** The detectors *)

Section Detectors.

Context {T : Type}.

Abbreviation Series := (list (T * spec_float)).

Definition index (r : Series) : list T := r.*1.
Definition values (r : Series) : list spec_float := r.*2.

(** [r.dropna()] *)
Definition dropna (r : Series) : Series :=
  List.filter (λ p, notna p.2) r.

(** [r.index[mask]] for the boolean mask [r > th]. *)
Definition index_where_gt (r : Series) (th : spec_float) : list T :=
  index (List.filter (λ p, fgt p.2 th) r).

(** [detect_type1_spike_up(r, q_up=0.99)] *)
Definition detect_type1_spike_up (r : Series) (q_up : spec_float)
    : result (list T) :=
  let r := dropna r in
  if length r <? 5 then Ok []
  else
    th ← quantile (values r) q_up;
    Ok (index_where_gt r th).

(** [s.diff()]: the difference with the previous row, NaN in the first. *)
Definition diff (g : list spec_float) : list spec_float :=
  zip_with fsub g (NaN :: g).

Definition trend_label (th_flat th_trend mu : spec_float) : trend :=
  if fle (fabs mu) th_flat then flat
  else if fge mu th_trend then up
  else if fle mu (fneg th_trend) then down
  else flat.

(** The thresholds derived once from the whole cleaned series; [th_h] is
    [np.inf] when no difference is defined. *)
Record thresholds := Thresholds {
  th_h : spec_float;
  th_flat : spec_float;
  th_trend : spec_float
}.

Definition derive_thresholds (g h : list spec_float)
    (q_h q_flat q_trend : spec_float) : result thresholds :=
  th_h ← (if existsb notna h then quantile (fabs <$> h) q_h else Ok inf);
  let abs_g := valid (fabs <$> g) in
  th_flat ← (if bool_decide (length abs_g ≠ 0) then quantile abs_g q_flat
             else Ok zero);
  th_trend ← (if bool_decide (length abs_g ≠ 0) then quantile abs_g q_trend
              else Ok zero);
  let th_trend := pymax th_trend (fmul th_flat (of_Q 1.1)) in
  Ok (Thresholds th_h th_flat th_trend).

(** [(g_prev * g_curr <= 0) and (abs(h_curr) >= th_h)]: the product is the
    rounded product of the two doubles. *)
Definition turn_cond (th : thresholds) (g_prev g_curr h_curr : spec_float)
    : bool :=
  fle (fmul g_prev g_curr) (of_Z 0) && fge (fabs h_curr) (th_h th).

(** One iteration of the scan, at position [t_pos]. *)
Definition scan_step (r : Series) (g h : list spec_float) (th : thresholds)
    (w_pre w_post : Z) (labels : gmap string (list T)) (t_pos : nat)
    : result (gmap string (list T)) :=
  t ← iloc (index r) t_pos;
  g_prev ← iloc g (t_pos - 1);
  g_curr ← iloc g t_pos;
  h_curr ← iloc h t_pos;
  if isna g_prev || isna g_curr || isna h_curr then Ok labels
  else if negb (turn_cond th g_prev g_curr h_curr) then Ok labels
  else
    let pre_mu :=
      mean (iloc_slice g (Z.max 0 (Z.of_nat t_pos - w_pre)) (Z.of_nat t_pos)) in
    let post_mu :=
      mean (iloc_slice g (Z.of_nat t_pos + 1)
              (Z.min (Z.of_nat (length g)) (Z.of_nat t_pos + 1 + w_post))) in
    let pre_lbl := trend_label (th_flat th) (th_trend th) pre_mu in
    let post_lbl := trend_label (th_flat th) (th_trend th) post_mu in
    if bool_decide (pre_lbl = down) && bool_decide (post_lbl = flat)
    then Ok (append_label labels "down_turn_flat" t)
    else if bool_decide (pre_lbl = flat) && bool_decide (post_lbl = down)
    then Ok (append_label labels "flat_turn_down" t)
    else if bool_decide (pre_lbl = flat) && bool_decide (post_lbl = up)
    then Ok (append_label labels "flat_turn_up" t)
    else if bool_decide (pre_lbl = up) && bool_decide (post_lbl = flat)
    then Ok (append_label labels "up_turn_flat" t)
    else Ok labels.

(** [detect_type2_turn_patterns(r, w_pre=3, w_post=3, q_h=0.9, q_flat=0.2,
    q_trend=0.7)]; [r.astype(float)] leaves a column of doubles as it is. *)
Definition detect_type2_turn_patterns (r : Series) (w_pre w_post : Z)
    (q_h q_flat q_trend : spec_float) : result (gmap string (list T)) :=
  let r := dropna r in
  if (Z.of_nat (length r) <? w_pre + w_post + 4)%Z then Ok ∅
  else
    let g := values r in
    let h := diff g in
    th ← derive_thresholds g h q_h q_flat q_trend;
    for_each (scan_step r g h th w_pre w_post) ∅ (seq 1 (length r - 1 - 1)).

End Detectors.

(** ** Vocabulary *)

(** The two windows of the scan around position [t_pos]. *)
Definition pre_window (g : list spec_float) (w_pre : Z) (t_pos : nat)
    : list spec_float :=
  iloc_slice g (Z.max 0 (Z.of_nat t_pos - w_pre)) (Z.of_nat t_pos).

Definition post_window (g : list spec_float) (w_post : Z) (t_pos : nat)
    : list spec_float :=
  iloc_slice g (Z.of_nat t_pos + 1)
    (Z.min (Z.of_nat (length g)) (Z.of_nat t_pos + 1 + w_post)).

(** The turn condition read at a position of the series [g]. *)
Definition turn_at (g : list spec_float) (th : thresholds) (t_pos : nat)
    : bool :=
  match g !! (t_pos - 1), g !! t_pos, diff g !! t_pos with
  | Some g_prev, Some g_curr, Some h_curr => turn_cond th g_prev g_curr h_curr
  | _, _, _ => false
  end.

(** The pattern, if any, of a position: the turn condition holds there and
    the labels of the two windows make up a pattern name. *)
Definition pattern_at (g : list spec_float) (th : thresholds)
    (w_pre w_post : Z) (t_pos : nat) : option string :=
  if turn_at g th t_pos
  then pattern_of
         (trend_label (th_flat th) (th_trend th) (mean (pre_window g w_pre t_pos)))
         (trend_label (th_flat th) (th_trend th) (mean (post_window g w_post t_pos)))
  else None.

(** The timestamps of the interior positions of [r] that have pattern [k],
    in position order. *)
Definition pattern_stamps {T : Type} (r : list (T * spec_float))
    (th : thresholds) (w_pre w_post : Z) (k : string) : list T :=
  omap (λ p, index r !! p)
    (filter (λ p, pattern_at (values r) th w_pre w_post p = Some k)
       (seq 1 (length r - 1 - 1))).

(** Zeros and finite values. *)
Definition is_zero (x : spec_float) : bool :=
  match x with S754_zero _ => true | _ => false end.

Definition is_finite (x : spec_float) : bool :=
  match x with S754_zero _ | S754_finite _ _ _ => true | _ => false end.

(** Two values of strictly opposite signs, and of the same strict sign. *)
Definition opposite_signs (x y : spec_float) : bool :=
  flt x zero && flt zero y || flt zero x && flt y zero.

Definition same_sign (x y : spec_float) : bool :=
  flt zero x && flt zero y || flt x zero && flt y zero.

(** A well-formed double: the mantissa and the exponent are in range. *)
Definition well_formed (x : spec_float) : bool := valid_binary prec emax x.

(** [2 ^ -511], about [1.5e-154]: the product of two doubles of at least
    this magnitude is at least [2 ^ -1022], the smallest normal number, and
    does not underflow. *)
Definition safe_magnitude : spec_float :=
  S754_finite false 4503599627370496 (-563).

(** A quantile that [Series.quantile] accepts. *)
Definition valid_quantile (q : spec_float) : Prop :=
  fle (of_Z 0) q = true ∧ fle q (of_Z 1) = true.

(** The order statistics of [xs]: its values arranged in nondecreasing
    order of the comparison of doubles. *)
Definition order_statistics (xs s : list spec_float) : Prop :=
  Permutation s xs ∧ StronglySorted (λ x y, fle x y = true) s.

(** The shape of a rounded result of sign [s]: a zero, an infinity or a
    finite number of that sign. *)
Definition rounded_shape (s : bool) (x : spec_float) : Prop :=
  x = S754_zero s ∨ x = S754_infinity s ∨ ∃ m e, x = S754_finite s m e.

(** A mantissa and an exponent whose value is at least the smallest normal
    number, [2 ^ -1022]. *)
Definition above_underflow (m e : Z) : Prop :=
  (0 < m)%Z ∧ (-1021 <= Z.log2 m + 1 + e)%Z.

End F64.

(** ** Example series of doubles *)

Definition of_floats (l : list spec_float) : list (nat * spec_float) :=
  imap (λ i v, (i, v)) l.

(** The rows of a series of doubles with their exact values. *)
Definition exact_rows {T : Type} (r : list (T * spec_float))
    : list (T * float) :=
  (λ p : T * spec_float, (p.1, F64.to_Q p.2)) <$> r.

(** Scenario 1 of the specification. *)
Definition scenario1_f64 : list (nat * spec_float) :=
  of_floats (F64.of_Z <$> [1; 1; 1; 1; 1; 1; 50]%Z).

(** Four values 1.0 and the next double above, 1.0000000000000002. *)
Definition near_spike : list (nat * spec_float) :=
  of_floats [F64.of_Z 1; F64.of_Z 1; F64.of_Z 1; F64.of_Z 1;
             S754_finite false 4503599627370497 (-52)].

(** A strictly increasing series of 20 points that jumps across zero. *)
Definition jump_f64 : list (nat * spec_float) :=
  of_floats (F64.of_Z <$>
    [-14; -13; -12; -11; -10; -9; -8; -7; -6; -5; -4; -3; -2; -1;
     100; 101; 102; 103; 104; 105]%Z).

(** A strictly increasing series of 20 tiny positive points, [k * 1e-200]. *)
Definition tiny_f64 : list (nat * spec_float) :=
  of_floats ((λ k, F64.fmul (F64.of_Z k) (F64.of_Q (1 # 10 ^ 200))) <$>
    [1; 2; 3; 4; 5; 6; 7; 8; 9; 10; 11; 12; 13; 14;
     1000; 1001; 1002; 1003; 1004; 1005]%Z).

(** The integers 1 to 20. *)
Definition ramp_f64 : list (nat * spec_float) :=
  of_floats (F64.of_Z <$> seqZ 1 20).

(** Ten points, two adjacent ones infinite. *)
Definition plateau_f64 : list (nat * spec_float) :=
  of_floats [F64.of_Z 1; F64.of_Z 2; F64.of_Z 3; F64.inf; F64.inf;
             F64.of_Z 4; F64.of_Z 5; F64.of_Z 6; F64.of_Z 7; F64.of_Z 8].

(** The integers 0 to 50, and the same series shifted by 1000. *)
Definition count_f64 : list (nat * spec_float) :=
  of_floats (F64.of_Z <$> seqZ 0 51).

Definition count_shifted_f64 : list (nat * spec_float) :=
  of_floats (F64.of_Z <$> seqZ 1000 51).

(** A series with one dip below zero, and the same series divided by 5. *)
Definition dip_f64 : list (nat * spec_float) :=
  of_floats (F64.of_Z <$> [50; 50; 50; 50; -50; 50; 55; 55; 55; 50; 50]%Z).

Definition dip_fifth_f64 : list (nat * spec_float) :=
  of_floats (F64.of_Z <$> [10; 10; 10; 10; -10; 10; 11; 11; 11; 10; 10]%Z).

(** * Properties of the structure of the code *)

(** ** Comparisons *)

Lemma Qltb_lt (x y : Q) : Qltb x y = true ↔ (x < y)%Q.
Proof.
  unfold Qltb. rewrite negb_true_iff, <- not_true_iff_false, Qle_bool_iff.
  split; [apply Qnot_le_lt | apply Qlt_not_le].
Qed.

Lemma fgt_Some (v th : Q) : fgt (Some v) (Some th) = true ↔ (th < v)%Q.
Proof. apply Qltb_lt. Qed.

Lemma fle_Some (x y : Q) : fle (Some x) (Some y) = true ↔ (x <= y)%Q.
Proof. apply Qle_bool_iff. Qed.

(** ** Sorting *)

Lemma insert_sorted_perm (x : Q) (l : list Q) :
  Permutation (insert_sorted x l) (x :: l).
Proof.
  induction l as [|y l IH]; simpl; [done|].
  destruct (Qle_bool x y); [done|].
  rewrite IH. apply perm_swap.
Qed.

Lemma sort_values_perm (l : list Q) : Permutation (sort_values l) l.
Proof.
  induction l as [|x l IH]; simpl; [done|].
  rewrite insert_sorted_perm. by constructor.
Qed.

Lemma sort_values_length (l : list Q) : length (sort_values l) = length l.
Proof. apply Permutation_length, sort_values_perm. Qed.

Lemma insert_sorted_StronglySorted (x : Q) (l : list Q) :
  StronglySorted Qle l → StronglySorted Qle (insert_sorted x l).
Proof.
  induction 1 as [|y l Hl IH Hy]; simpl.
  - repeat constructor.
  - destruct (Qle_bool x y) eqn:E.
    + apply Qle_bool_iff in E. constructor; [by constructor|].
      constructor; [done|].
      eapply Forall_impl; [exact Hy|]. intros z Hz. by eapply Qle_trans.
    + constructor; [done|].
      rewrite insert_sorted_perm. constructor; [|done].
      apply Qlt_le_weak, Qltb_lt. unfold Qltb.
      by rewrite negb_true_iff, <- not_true_iff_false, Qle_bool_iff,
        <- Qle_bool_iff, E.
Qed.

Lemma sort_values_StronglySorted (l : list Q) :
  StronglySorted Qle (sort_values l).
Proof.
  induction l; simpl; [constructor | by apply insert_sorted_StronglySorted].
Qed.

(** In a sorted list the value does not decrease with the rank. *)
Lemma StronglySorted_lookup_le (s : list Q) (i j : nat) (a b : Q) :
  StronglySorted Qle s → i ≤ j →
  s !! i = Some a → s !! j = Some b → (a <= b)%Q.
Proof.
  intros Hs. revert i j. induction Hs as [|x s Hs IH Hx]; intros i j Hij Hi Hj.
  - done.
  - destruct i as [|i], j as [|j]; simplify_eq/=; try lia.
    + apply Qle_refl.
    + rewrite Forall_forall in Hx. apply Hx. by eapply list_elem_of_lookup_2.
    + eapply IH; [|done..]. lia.
Qed.

(** ** Quantiles *)

Lemma sort_values_order_statistics (xs : list Q) :
  order_statistics xs (sort_values xs).
Proof. split; [apply sort_values_perm | apply sort_values_StronglySorted]. Qed.

Lemma virtual_index_bounds (n : Z) (q : Q) :
  (1 ≤ n)%Z → (0 <= q)%Q → (q <= 1)%Q →
  (0 <= q * inject_Z (n - 1) <= inject_Z (n - 1))%Q ∧
  (0 ≤ Qfloor (q * inject_Z (n - 1)) ≤ n - 1)%Z.
Proof.
  intros Hn H0 H1.
  assert (0 <= inject_Z (n - 1))%Q as Hm.
  { change 0%Q with (inject_Z 0). rewrite <- Zle_Qle. lia. }
  assert (0 <= q * inject_Z (n - 1) <= inject_Z (n - 1))%Q as [Ha Hb].
  { split; nra. }
  split; [by split|]. split.
  - apply (Qfloor_resp_le (inject_Z 0)) in Ha. by rewrite Qfloor_Z in Ha.
  - pose proof (Qfloor_resp_le _ _ Hb) as H. by rewrite Qfloor_Z in H.
Qed.

Lemma gamma_bounds (p : Q) :
  (0 <= p - inject_Z (Qfloor p))%Q ∧ (p - inject_Z (Qfloor p) < 1)%Q.
Proof.
  pose proof (Qfloor_le p) as H1. pose proof (Qlt_floor p) as H2.
  rewrite inject_Z_plus in H2. change (inject_Z 1) with 1%Q in H2.
  split; lra.
Qed.

(** What [percentile_linear] reads and returns, for a quantile in range. *)
Lemma percentile_linear_unfold (xs : list Q) (q : Q) :
  xs ≠ [] → (0 <= q)%Q → (q <= 1)%Q →
  let n := Z.of_nat (length xs) in
  let pos := (q * inject_Z (n - 1))%Q in
  let lo := Z.to_nat (Qfloor pos) in
  let hi := Z.to_nat (Z.min (Qfloor pos + 1) (n - 1)) in
  ∃ a b : Q,
    sort_values xs !! lo = Some a ∧ sort_values xs !! hi = Some b ∧
    (a <= b)%Q ∧
    percentile_linear xs q = Some (lerp a b (pos - inject_Z (Qfloor pos))).
Proof.
  intros Hxs H0 H1 n pos lo hi.
  assert (1 ≤ n)%Z as Hn by (destruct xs; [done | simpl in *; lia]).
  destruct (virtual_index_bounds n q Hn H0 H1) as [_ [Hf0 Hf1]].
  fold pos in Hf0, Hf1.
  destruct (lookup_lt_is_Some_2 (sort_values xs) lo) as [a Ha].
  { rewrite sort_values_length. lia. }
  destruct (lookup_lt_is_Some_2 (sort_values xs) hi) as [b Hb].
  { rewrite sort_values_length. lia. }
  exists a, b. repeat split; [done..| |].
  - eapply (StronglySorted_lookup_le _ lo hi);
      [apply sort_values_StronglySorted | lia | done..].
  - unfold percentile_linear. fold n pos. fold lo hi. by rewrite Ha, Hb.
Qed.

Lemma lerp_between (a b t : Q) :
  (a <= b)%Q → (0 <= t)%Q → (t <= 1)%Q →
  (a <= lerp a b t)%Q ∧ (lerp a b t <= b)%Q.
Proof. intros. unfold lerp. split; nra. Qed.

Lemma lerp_mono (a b t1 t2 : Q) :
  (a <= b)%Q → (t1 <= t2)%Q → (lerp a b t1 <= lerp a b t2)%Q.
Proof. intros. unfold lerp. nra. Qed.

(** The interpolated quantile does not decrease with [q]. *)
Lemma percentile_linear_mono (xs : list Q) (q1 q2 : Q) :
  xs ≠ [] → (0 <= q1)%Q → (q1 <= q2)%Q → (q2 <= 1)%Q →
  ∃ t1 t2 : Q,
    percentile_linear xs q1 = Some t1 ∧ percentile_linear xs q2 = Some t2 ∧
    (t1 <= t2)%Q.
Proof.
  intros Hxs H0 H12 H1.
  assert (0 <= q2)%Q as H0' by lra. assert (q1 <= 1)%Q as H1' by lra.
  destruct (percentile_linear_unfold xs q1 Hxs H0 H1')
    as (a1 & b1 & Ha1 & Hb1 & Hab1 & ->).
  destruct (percentile_linear_unfold xs q2 Hxs H0' H1)
    as (a2 & b2 & Ha2 & Hb2 & Hab2 & ->).
  eexists _, _. split; [done|]. split; [done|].
  set (n := Z.of_nat (length xs)) in *.
  assert (1 ≤ n)%Z as Hn by (destruct xs; [done | subst n; simpl; lia]).
  destruct (virtual_index_bounds n q1 Hn H0 H1') as [_ [Hf1 Hf1']].
  destruct (virtual_index_bounds n q2 Hn H0' H1) as [_ [Hf2 Hf2']].
  set (p1 := (q1 * inject_Z (n - 1))%Q) in *.
  set (p2 := (q2 * inject_Z (n - 1))%Q) in *.
  assert (p1 <= p2)%Q as Hp.
  { assert (0 <= inject_Z (n - 1))%Q.
    { change 0%Q with (inject_Z 0). rewrite <- Zle_Qle. lia. }
    subst p1 p2. nra. }
  pose proof (Qfloor_resp_le _ _ Hp) as Hfl.
  destruct (gamma_bounds p1) as [Hg1 Hg1'], (gamma_bounds p2) as [Hg2 Hg2'].
  destruct (decide (Qfloor p1 = Qfloor p2)) as [Heq|Hne].
  - rewrite Heq in *. simplify_eq. apply lerp_mono; [done | lra].
  - assert (b1 <= a2)%Q as Hba.
    { eapply (StronglySorted_lookup_le (sort_values xs));
        [apply sort_values_StronglySorted | | exact Hb1 | exact Ha2]. lia. }
    destruct (lerp_between a1 b1 (p1 - inject_Z (Qfloor p1))) as [_ Hu];
      [done | done | lra |].
    destruct (lerp_between a2 b2 (p2 - inject_Z (Qfloor p2))) as [Hl _];
      [done | done | lra |].
    lra.
Qed.

Lemma percentile_linear_spec (xs : list Q) (q : Q) :
  xs ≠ [] → (0 <= q)%Q → (q <= 1)%Q →
  ∃ th : Q, percentile_linear xs q = Some th ∧ linear_quantile xs q th.
Proof.
  intros Hxs H0 H1.
  destruct (percentile_linear_unfold xs q Hxs H0 H1)
    as (a & b & Ha & Hb & Hab & ->).
  eexists. split; [done|].
  exists (sort_values xs). split; [apply sort_values_order_statistics|].
  set (n := Z.of_nat (length xs)) in *.
  assert (1 ≤ n)%Z as Hn by (destruct xs; [done | subst n; simpl; lia]).
  destruct (virtual_index_bounds n q Hn H0 H1) as [[Hp0 Hp1] [Hf0 Hf1]].
  set (pos := (q * inject_Z (n - 1))%Q) in *.
  cbv zeta. fold n pos. split; [done|]. split.
  - intros Hint. exists a. split; [done|].
    assert (pos - inject_Z (Qfloor pos) == 0)%Q as Hz by lra.
    unfold lerp. rewrite Hz. ring.
  - intros Hnint. exists a, b. split; [done|]. split; [|done].
    rewrite <- Hb. f_equal.
    assert (Qfloor pos ≠ n - 1)%Z; [|lia].
    intros Heq. apply Hnint. apply Qle_antisym; [|apply Qfloor_le].
    by rewrite Heq.
Qed.

(** ** Order statistics are determined by the values *)

Lemma count_le_perm (x : Q) (l1 l2 : list Q) :
  Permutation l1 l2 → count_le x l1 = count_le x l2.
Proof.
  unfold count_le.
  induction 1 as [|y l1 l2 _ IH|y z l|l1 l2 l3 _ IH1 _ IH2]; simpl.
  - done.
  - destruct (Qle_bool y x); simpl; by rewrite IH.
  - by destruct (Qle_bool y x), (Qle_bool z x).
  - by rewrite IH1.
Qed.

Lemma count_le_app (x : Q) (l1 l2 : list Q) :
  count_le x (l1 ++ l2) = count_le x l1 + count_le x l2.
Proof. unfold count_le. by rewrite List.filter_app, length_app. Qed.

Lemma count_le_all (x : Q) (l : list Q) :
  Forall (λ y, y <= x)%Q l → count_le x l = length l.
Proof.
  unfold count_le. induction 1 as [|y l Hy _ IH]; simpl; [done|].
  apply Qle_bool_iff in Hy. rewrite Hy. simpl. by rewrite IH.
Qed.

Lemma count_le_none (x : Q) (l : list Q) :
  Forall (λ y, x < y)%Q l → count_le x l = 0.
Proof.
  unfold count_le. induction 1 as [|y l Hy _ IH]; simpl; [done|].
  apply Qltb_lt in Hy. unfold Qltb in Hy. apply negb_true_iff in Hy.
  by rewrite Hy.
Qed.

Lemma count_le_length (x : Q) (l : list Q) : count_le x l ≤ length l.
Proof.
  unfold count_le. induction l as [|y l IH]; simpl; [done|].
  destruct (Qle_bool y x); simpl; lia.
Qed.

(** At least [i + 1] values are at most the value of rank [i]. *)
Lemma count_le_rank_lower (s : list Q) (i : nat) (a : Q) :
  StronglySorted Qle s → s !! i = Some a → S i ≤ count_le a s.
Proof.
  intros Hs Hi. rewrite <- (take_drop (S i) s), count_le_app.
  rewrite count_le_all.
  - rewrite length_take. apply lookup_lt_Some in Hi. lia.
  - apply Forall_lookup. intros j y Hj.
    apply lookup_take_Some in Hj as [Hj Hlt].
    eapply (StronglySorted_lookup_le s j i); [done| lia |done..].
Qed.

(** At most [i] values are strictly below the value of rank [i]. *)
Lemma count_le_rank_upper (s : list Q) (i : nat) (a b : Q) :
  StronglySorted Qle s → s !! i = Some b → (a < b)%Q → count_le a s ≤ i.
Proof.
  intros Hs Hi Hab. rewrite <- (take_drop i s), count_le_app.
  rewrite (count_le_none a (drop i s)).
  - pose proof (count_le_length a (take i s)) as Hlen.
    rewrite length_take in Hlen. lia.
  - apply Forall_lookup. intros j y Hj. rewrite lookup_drop in Hj.
    eapply Qlt_le_trans; [exact Hab|].
    eapply (StronglySorted_lookup_le s i (i + j)); [done| lia |done..].
Qed.

Lemma order_statistics_unique (xs s1 s2 : list Q) (i : nat) (a b : Q) :
  order_statistics xs s1 → order_statistics xs s2 →
  s1 !! i = Some a → s2 !! i = Some b → (a == b)%Q.
Proof.
  assert (∀ s1 s2 a b, order_statistics xs s1 → order_statistics xs s2 →
            s1 !! i = Some a → s2 !! i = Some b → ¬ (a < b)%Q) as Hnlt.
  { clear. intros s1 s2 a b [Hp1 Hs1] [Hp2 Hs2] Ha Hb Hlt.
    pose proof (count_le_rank_lower s1 i a Hs1 Ha) as Hlo.
    pose proof (count_le_rank_upper s2 i a b Hs2 Hb Hlt) as Hup.
    rewrite (count_le_perm a s1 s2) in Hlo; [lia|].
    by rewrite Hp1, Hp2. }
  intros H1 H2 Ha Hb. apply Qle_antisym; apply Qnot_lt_le; eauto.
Qed.

(** The quantile of the specification is unique. *)
Lemma linear_quantile_unique (xs : list Q) (q th1 th2 : Q) :
  linear_quantile xs q th1 → linear_quantile xs q th2 → (th1 == th2)%Q.
Proof.
  intros (s1 & Hs1 & _ & Hint1 & Hfrac1) (s2 & Hs2 & _ & Hint2 & Hfrac2).
  set (pos := (q * inject_Z (Z.of_nat (length xs) - 1))%Q) in *.
  destruct (Qeq_dec pos (inject_Z (Qfloor pos))) as [Heq|Hne].
  - destruct (Hint1 Heq) as (a1 & Ha1 & E1), (Hint2 Heq) as (a2 & Ha2 & E2).
    rewrite E1, E2. by eapply (order_statistics_unique xs s1 s2).
  - destruct (Hfrac1 Hne) as (a1 & b1 & Ha1 & Hb1 & E1).
    destruct (Hfrac2 Hne) as (a2 & b2 & Ha2 & Hb2 & E2).
    rewrite E1, E2.
    rewrite (order_statistics_unique xs s1 s2 _ a1 a2) by done.
    by rewrite (order_statistics_unique xs s1 s2 _ b1 b2) by done.
Qed.

Lemma validate_percentile_Ok (q : Q) :
  (0 <= q)%Q → (q <= 1)%Q → validate_percentile q = Ok ().
Proof.
  intros H0 H1. unfold validate_percentile.
  apply Qle_bool_iff in H0, H1. by rewrite H0, H1.
Qed.

Lemma validate_percentile_inv (q : Q) (u : unit) :
  validate_percentile q = Ok u → (0 <= q)%Q ∧ (q <= 1)%Q.
Proof.
  unfold validate_percentile.
  destruct (Qle_bool 0 q) eqn:E0, (Qle_bool q 1) eqn:E1; try done.
  intros _. by split; apply Qle_bool_iff.
Qed.

Lemma quantile_Ok (s : list float) (q : Q) :
  (0 <= q)%Q → (q <= 1)%Q →
  quantile s q = Ok (percentile_linear (valid s) q).
Proof.
  intros H0 H1. unfold quantile. by rewrite validate_percentile_Ok.
Qed.

Lemma quantile_inv (s : list float) (q : Q) (x : float) :
  quantile s q = Ok x →
  (0 <= q)%Q ∧ (q <= 1)%Q ∧ x = percentile_linear (valid s) q.
Proof.
  unfold quantile. destruct (validate_percentile q) as [[]|] eqn:E; [|done].
  apply validate_percentile_inv in E as [??]. cbn. intros [= <-]. done.
Qed.

(** ** Missing values *)

Section DetectorFacts.

Context {T : Type}.
Implicit Types r : list (T * float).

Lemma dropna_notna r : Forall (λ p, is_Some p.2) (dropna r).
Proof.
  unfold dropna. induction r as [|[t [v|]] r IH]; simpl; [done| |done].
  constructor; [by eexists | done].
Qed.

Lemma dropna_idemp r : dropna (dropna r) = dropna r.
Proof.
  unfold dropna. induction r as [|[t [v|]] r IH]; simpl; [done| |done].
  by rewrite IH.
Qed.

Lemma dropna_app r1 r2 : dropna (r1 ++ r2) = dropna r1 ++ dropna r2.
Proof. unfold dropna. apply List.filter_app. Qed.

Lemma valid_values_dropna r : valid (values (dropna r)) = valid (values r).
Proof.
  unfold valid, values, dropna.
  induction r as [|[t [v|]] r IH]; simpl; [done| |done]. by f_equal.
Qed.

Lemma length_valid_values r : length (valid (values r)) = length (dropna r).
Proof.
  unfold valid, values, dropna.
  induction r as [|[t [v|]] r IH]; simpl; [done| |done]. by f_equal.
Qed.

Lemma valid_values_nonempty r :
  5 ≤ length (dropna r) → valid (values r) ≠ [].
Proof.
  intros Hlen Hnil. rewrite <- length_valid_values, Hnil in Hlen.
  simpl in Hlen. lia.
Qed.

Lemma elem_of_dropna r (p : T * float) :
  p ∈ dropna r ↔ p ∈ r ∧ ∃ v, p.2 = Some v.
Proof.
  unfold dropna. rewrite !list_elem_of_In, filter_In.
  destruct p as [t [v|]]; simpl.
  - split; [intros [? _]; eauto | by intros [? _]].
  - split; [by intros [_ [=]] | by intros [_ [v [=]]]].
Qed.

(** With unique timestamps a timestamp has one value. *)
Lemma index_functional r (t : T) (x y : float) :
  NoDup (index r) → (t, x) ∈ r → (t, y) ∈ r → x = y.
Proof.
  intros Hnd [i Hi]%list_elem_of_lookup [j Hj]%list_elem_of_lookup.
  assert (i = j) as ->; [|congruence].
  eapply NoDup_lookup; [exact Hnd|..]; unfold index;
    rewrite list_lookup_fmap; [by rewrite Hi | by rewrite Hj].
Qed.

(** ** Spikes *)

Lemma index_where_gt_dropna r (th : Q) :
  index_where_gt (dropna r) (Some th) = index (filter (is_spike th) r).
Proof.
  unfold index_where_gt, index, dropna.
  induction r as [|[t [v|]] r IH]; [done| |].
  - rewrite filter_cons. cbn [List.filter snd notna isna negb].
    destruct (fgt (Some v) (Some th)) eqn:E.
    + apply fgt_Some in E. rewrite decide_True by (by exists v).
      rewrite !fmap_cons. by f_equal.
    + rewrite decide_False; [done|]. intros (v' & [= <-] & Hlt).
      apply fgt_Some in Hlt. congruence.
  - rewrite filter_cons, decide_False; [done|]. by intros (v' & [=] & _).
Qed.

Lemma filter_is_spike_mono r (th1 th2 : Q) :
  (th1 <= th2)%Q →
  filter (is_spike th2) r `sublist_of` filter (is_spike th1) r.
Proof.
  intros Hle. induction r as [|p r IH]; [done|].
  rewrite !filter_cons.
  destruct (decide (is_spike th2 p)) as [(v & Hv & Hlt)|].
  - rewrite decide_True; [by constructor|].
    exists v. split; [done|]. by eapply Qle_lt_trans.
  - destruct (decide (is_spike th1 p)); [by constructor | done].
Qed.

Lemma detect_type1_short r (q_up : Q) :
  length (dropna r) < 5 → detect_type1_spike_up r q_up = Ok [].
Proof.
  intros Hlen. unfold detect_type1_spike_up.
  by rewrite (proj2 (Nat.ltb_lt _ _) Hlen).
Qed.

Lemma detect_type1_long r (q_up : Q) :
  5 ≤ length (dropna r) → (0 <= q_up)%Q → (q_up <= 1)%Q →
  ∃ th : Q, percentile_linear (valid (values r)) q_up = Some th ∧
    detect_type1_spike_up r q_up = Ok (index (filter (is_spike th) r)).
Proof.
  intros Hlen H0 H1. unfold detect_type1_spike_up.
  rewrite (proj2 (Nat.ltb_ge _ _) Hlen), quantile_Ok by done.
  rewrite valid_values_dropna.
  destruct (percentile_linear_spec (valid (values r)) q_up) as (th & Hth & _);
    [by apply valid_values_nonempty | done..|].
  exists th. split; [done|]. rewrite Hth. cbn.
  by rewrite index_where_gt_dropna.
Qed.

(** On a long enough series the threshold is the quantile of the
    specification. *)
Lemma spike_up_exact_core r (q_up : Q) :
  5 ≤ length (dropna r) → (0 <= q_up)%Q → (q_up <= 1)%Q →
  ∃ th : Q,
    linear_quantile (valid (values r)) q_up th ∧
    detect_type1_spike_up r q_up = Ok (index (filter (is_spike th) r)).
Proof.
  intros Hlen H0 H1.
  destruct (detect_type1_long r q_up Hlen H0 H1) as (th & Hth & Hres).
  exists th. split; [|done].
  destruct (percentile_linear_spec (valid (values r)) q_up)
    as (th' & Hth' & Hspec);
    [by apply valid_values_nonempty | done.. | congruence].
Qed.

Lemma detect_type1_long_inv r (q_up : Q) (l : list T) :
  5 ≤ length (dropna r) → detect_type1_spike_up r q_up = Ok l →
  (0 <= q_up)%Q ∧ (q_up <= 1)%Q.
Proof.
  intros Hlen. unfold detect_type1_spike_up.
  rewrite (proj2 (Nat.ltb_ge _ _) Hlen).
  destruct (quantile _ _) as [x|] eqn:E; [|done].
  apply quantile_inv in E as (? & ? & _). done.
Qed.

End DetectorFacts.

(** ** The scan of the turn-pattern detector *)

Lemma diff_length (g : list float) : length (diff g) = length g.
Proof. unfold diff. rewrite length_zip_with. simpl. lia. Qed.

Lemma diff_lookup (g : list float) (p : nat) (a b : float) :
  g !! p = Some a → g !! S p = Some b → diff g !! S p = Some (fsub b a).
Proof.
  intros Ha Hb. unfold diff. rewrite lookup_zip_with, Hb. simpl.
  by rewrite Ha.
Qed.

Lemma diff_lookup_0 (g : list float) (a : float) :
  g !! 0 = Some a → diff g !! 0 = Some NaN.
Proof. destruct g; [done|]. intros [= ->]. by destruct a. Qed.

Section Scan.

Context {T : Type}.
Variables (r : list (T * float)) (th : thresholds) (w_pre w_post : Z).
Hypothesis r_clean : Forall (λ p, is_Some p.2) r.

Lemma clean_lookup (p : nat) :
  p < length r → ∃ (t : T) (v : Q), r !! p = Some (t, Some v).
Proof.
  intros Hp. destruct (lookup_lt_is_Some_2 r p Hp) as [[t x] Hx].
  rewrite Forall_forall in r_clean.
  destruct (r_clean (t, x)) as [v Hv]; [by eapply list_elem_of_lookup_2|].
  simpl in Hv. subst x. eauto.
Qed.

(** At an interior position every value the scan reads is defined. *)
Lemma interior_defined (p : nat) :
  1 ≤ p → p + 2 ≤ length r →
  ∃ (t : T) (a b : Q),
    index r !! p = Some t ∧
    values r !! (p - 1) = Some (Some a) ∧
    values r !! p = Some (Some b) ∧
    diff (values r) !! p = Some (Some (b - a)%Q).
Proof.
  intros H1 H2. destruct p as [|p]; [lia|].
  destruct (clean_lookup p) as (t0 & a & Ha); [lia|].
  destruct (clean_lookup (S p)) as (t & b & Hb); [lia|].
  exists t, a, b. unfold index, values.
  replace (S p - 1) with p by lia.
  rewrite !list_lookup_fmap, Ha, Hb. simpl. repeat split; try done.
  erewrite diff_lookup; [| by rewrite list_lookup_fmap, Ha
                         | by rewrite list_lookup_fmap, Hb].
  done.
Qed.

Lemma scan_step_ok (labels : gmap string (list T)) (p : nat) :
  1 ≤ p → p + 2 ≤ length r →
  ∃ tr : list (nat * T * string),
    scan_step r (values r) (diff (values r)) th w_pre w_post labels p
      = Ok (replay labels tr) ∧
    Forall (hit_ok r th) tr ∧ positions tr `sublist_of` [p].
Proof.
  intros H1 H2.
  destruct (interior_defined p H1 H2) as (t & a & b & Ht & Ha & Hb & Hh).
  unfold scan_step, iloc. rewrite Ht, Ha, Hb, Hh. cbn [mbind result_bind isna orb].
  destruct (turn_cond th (Some a) (Some b) (Some (b - a)%Q)) eqn:Hturn;
    cbn [negb]; [|by exists []; repeat split; [constructor | apply sublist_nil_l]].
  assert (∀ k, k ∈ pattern_names → hit_ok r th (p, t, k)) as Hok.
  { intros k Hk. unfold hit_ok. simpl. repeat split; [done..|]. by exists a, b. }
  repeat case_match;
    first [ by exists []; repeat split; [constructor | apply sublist_nil_l]
          | eexists [(p, t, _)]; split; [done|]; split;
            [constructor; [apply Hok; set_solver | constructor] | done] ].
Qed.

Lemma replay_app (labels : gmap string (list T))
    (tr1 tr2 : list (nat * T * string)) :
  replay labels (tr1 ++ tr2) = replay (replay labels tr1) tr2.
Proof. apply foldl_app. Qed.

Lemma scan_loop (ps : list nat) (labels : gmap string (list T)) :
  Forall (λ p, 1 ≤ p ∧ p + 2 ≤ length r) ps →
  ∃ tr : list (nat * T * string),
    for_each (scan_step r (values r) (diff (values r)) th w_pre w_post)
      labels ps = Ok (replay labels tr) ∧
    Forall (hit_ok r th) tr ∧ positions tr `sublist_of` ps.
Proof.
  intros Hps. revert labels.
  induction Hps as [|p ps [H1 H2] _ IH]; intros labels.
  - exists []. repeat split; [constructor | done].
  - destruct (scan_step_ok labels p H1 H2) as (tr1 & Hstep & Hok1 & Hsub1).
    destruct (IH (replay labels tr1)) as (tr2 & Hrest & Hok2 & Hsub2).
    exists (tr1 ++ tr2). cbn [for_each]. rewrite Hstep. cbn.
    rewrite Hrest, replay_app. split; [done|]. split.
    + by apply Forall_app.
    + unfold positions in *. rewrite !fmap_app.
      by apply (sublist_app _ [p] _ ps).
Qed.

End Scan.

(** ** The mapping built from recorded hits *)

Section Replay.

Context {T : Type}.
Implicit Types (labels : gmap string (list T)) (tr : list (nat * T * string)).

Lemma hits_snoc (k : string) tr (e : nat * T * string) :
  hits k (tr ++ [e]) = hits k tr ++ (if decide (e.2 = k) then [e] else []).
Proof.
  unfold hits. rewrite filter_app, filter_cons, filter_nil.
  by destruct (decide (e.2 = k)).
Qed.

Lemma replay_lookup labels tr (k : string) :
  replay labels tr !! k =
    if decide (hits k tr = []) then labels !! k
    else Some (default [] (labels !! k) ++ stamps (hits k tr)).
Proof.
  induction tr as [|e tr IH] using rev_ind; [done|].
  rewrite replay_app, hits_snoc. cbn [replay foldl].
  unfold record_hit, append_label.
  destruct (decide (e.2 = k)) as [<-|Hne].
  - rewrite lookup_insert_eq, IH.
    rewrite (decide_False (P := hits e.2 tr ++ [e] = []))
      by (by intros [_ [=]]%app_eq_nil).
    f_equal. unfold stamps. rewrite !fmap_app. simpl.
    destruct (decide (hits e.2 tr = [])) as [->|_]; [done|].
    simpl. by rewrite <- app_assoc.
  - rewrite lookup_insert_ne, IH, app_nil_r by done. done.
Qed.

Lemma replay_empty_lookup tr (k : string) (l : list T) :
  replay ∅ tr !! k = Some l → l = stamps (hits k tr) ∧ hits k tr ≠ [].
Proof.
  rewrite replay_lookup, lookup_empty.
  destruct (decide (hits k tr = [])); [done|]. by intros [= <-].
Qed.

Lemma bucket_replay tr (k : string) :
  bucket (replay ∅ tr) k = stamps (hits k tr).
Proof.
  unfold bucket. rewrite replay_lookup, lookup_empty.
  by destruct (decide (hits k tr = [])) as [->|].
Qed.

Lemma hits_sublist (k : string) tr : hits k tr `sublist_of` tr.
Proof. apply sublist_filter. Qed.

Lemma elem_of_hits (k : string) tr (e : nat * T * string) :
  e ∈ hits k tr ↔ e.2 = k ∧ e ∈ tr.
Proof. unfold hits. by rewrite list_elem_of_filter. Qed.

Lemma elem_of_stamps tr (t : T) :
  t ∈ stamps tr ↔ ∃ (p : nat) (k : string), (p, t, k) ∈ tr.
Proof.
  unfold stamps. rewrite list_elem_of_fmap. split.
  - intros ([p t'] & -> & Hin). apply list_elem_of_fmap in Hin
      as ([[p' t''] k] & [= <- <-] & Hin). eauto.
  - intros (p & k & Hin). exists (p, t). split; [done|].
    apply list_elem_of_fmap. by exists (p, t, k).
Qed.

End Replay.

(** ** The turn-pattern detector as a whole *)

(** Case analysis on the results bound in a hypothesis; a raised exception
    contradicts it. *)
Ltac step_binds H :=
  repeat match type of H with
         | context [mbind _ ?m] => destruct m; cbn in H; [|done]
         end.

Section TurnFacts.

Context {T : Type}.
Implicit Types r : list (T * float).

Lemma detect_type2_short r (w_pre w_post : Z) (q_h q_flat q_trend : Q) :
  (Z.of_nat (length (dropna r)) < w_pre + w_post + 4)%Z →
  detect_type2_turn_patterns r w_pre w_post q_h q_flat q_trend = Ok ∅.
Proof.
  intros Hlen. unfold detect_type2_turn_patterns.
  by rewrite (proj2 (Z.ltb_lt _ _) Hlen).
Qed.

Lemma interior_positions (n : nat) :
  Forall (λ p, 1 ≤ p ∧ p + 2 ≤ n) (seq 1 (n - 1 - 1)).
Proof. apply Forall_seq. lia. Qed.

(** Every result of the detector is the replay of hits recorded at interior
    positions of the cleaned series, in increasing position order. *)
Lemma detect_type2_trace r (w_pre w_post : Z) (q_h q_flat q_trend : Q)
    (m : gmap string (list T)) :
  detect_type2_turn_patterns r w_pre w_post q_h q_flat q_trend = Ok m →
  ∃ tr : list (nat * T * string),
    m = replay ∅ tr ∧
    positions tr `sublist_of` seq 1 (length (dropna r) - 1 - 1) ∧
    Forall (λ e, ∃ th : thresholds,
              derive_thresholds (values (dropna r))
                (diff (values (dropna r))) q_h q_flat q_trend = Ok th ∧
              hit_ok (dropna r) th e) tr.
Proof.
  unfold detect_type2_turn_patterns.
  destruct (_ <? _)%Z.
  { intros [= <-]. exists []. repeat split; [apply sublist_nil_l | constructor]. }
  destruct (derive_thresholds _ _ _ _ _) as [th|] eqn:Hth; [|done]. cbn.
  destruct (scan_loop (dropna r) th w_pre w_post (dropna_notna r)
              (seq 1 (length (dropna r) - 1 - 1)) ∅
              (interior_positions _)) as (tr & -> & Hok & Hsub).
  intros [= <-]. exists tr. repeat split; [done|].
  eapply Forall_impl; [exact Hok|]. eauto.
Qed.

End TurnFacts.

(** ** Claims about the spike detector *)

Section SpikeClaims.

Context {T : Type}.
Implicit Types r : list (T * float).

(** C5. With fewer than 5 non-missing points the spike detector returns the
    empty list, whatever the quantile parameter. *)
Theorem spike_up_insufficient r (q_up : Q) :
  length (dropna r) < 5 → detect_type1_spike_up r q_up = Ok [].
Proof. apply detect_type1_short. Qed.


End SpikeClaims.

(** ** Claims about the turn-pattern detector *)

Lemma StronglySorted_sublist {A : Type} (R : relation A) (l1 l2 : list A) :
  l1 `sublist_of` l2 → StronglySorted R l2 → StronglySorted R l1.
Proof.
  induction 1 as [|x l1 l2 Hsub IH|x l1 l2 Hsub IH]; intros Hs; [done|..].
  - apply StronglySorted_inv in Hs as [Hs Hx]. constructor; [by apply IH|].
    eapply Forall_forall. intros y Hy. rewrite Forall_forall in Hx.
    apply Hx. by eapply sublist_subseteq.
  - apply StronglySorted_inv in Hs as [Hs _]. by apply IH.
Qed.

Lemma StronglySorted_lt_seq (a n : nat) : StronglySorted lt (seq a n).
Proof.
  revert a. induction n as [|n IH]; intros a; simpl; constructor; [done|].
  apply Forall_seq. lia.
Qed.

Section TurnClaims.

Context {T : Type}.
Implicit Types r : list (T * float).

(** A timestamp of a bucket comes from a recorded hit of that pattern. *)
Lemma bucket_replay_elem (tr : list (nat * T * string)) (k : string) (ts : T) :
  ts ∈ bucket (replay ∅ tr) k → ∃ p : nat, (p, ts, k) ∈ tr.
Proof.
  rewrite bucket_replay. intros (p & k' & Hin)%elem_of_stamps.
  apply elem_of_hits in Hin as [Hk Hin]. simpl in Hk. subst k'. eauto.
Qed.

(** C3, as the code has it. The returned mapping is sparse: its keys are
    among the four pattern names, a key is present only once a timestamp was
    appended to it, reading an absent name through the [defaultdict] yields
    the empty list, and with insufficient data the mapping has no key. *)
Theorem turn_patterns_keys r (w_pre w_post : Z) (q_h q_flat q_trend : Q)
    (m : gmap string (list T)) :
  detect_type2_turn_patterns r w_pre w_post q_h q_flat q_trend = Ok m →
  (∀ k : string,
     (m !! k = None ∧ bucket m k = []) ∨
     (k ∈ pattern_names ∧
      ∃ l : list T, m !! k = Some l ∧ l ≠ [] ∧ bucket m k = l)) ∧
  ((Z.of_nat (length (dropna r)) < w_pre + w_post + 4)%Z → m = ∅).
Proof.
  intros Hres. split.
  - intros k.
    destruct (detect_type2_trace r _ _ _ _ _ m Hres) as (tr & -> & _ & Hok).
    unfold bucket.
    destruct (replay ∅ tr !! k) as [l|] eqn:Hk; [right | by left].
    apply replay_empty_lookup in Hk as [-> Hne].
    split; [|by destruct (hits k tr); eauto].
    destruct (hits k tr) as [|e es] eqn:He; [done|].
    assert (e ∈ hits k tr) as [<- Hin]%elem_of_hits by (rewrite He; left).
    rewrite Forall_forall in Hok.
    by destruct (Hok _ Hin) as (_ & _ & _ & _ & _ & Hk & _).
  - intros Hlen. rewrite detect_type2_short in Hres by done.
    by injection Hres as <-.
Qed.

(** C4. With fewer than [w_pre + w_post + 4] non-missing points the detector
    returns, without raising, a mapping whose four buckets are empty. *)
Theorem turn_patterns_insufficient r (w_pre w_post : Z) (q_h q_flat q_trend : Q) :
  (Z.of_nat (length (dropna r)) < w_pre + w_post + 4)%Z →
  all_buckets_empty
    (detect_type2_turn_patterns r w_pre w_post q_h q_flat q_trend).
Proof.
  intros Hlen. exists ∅. split; [by apply detect_type2_short|].
  by repeat constructor.
Qed.

(** C10. The keys of the returned mapping are among the four pattern names,
    and each bucket lists the timestamps of strictly increasing interior
    positions of the cleaned series. *)
Theorem turn_patterns_ordered r (w_pre w_post : Z) (q_h q_flat q_trend : Q)
    (m : gmap string (list T)) :
  detect_type2_turn_patterns r w_pre w_post q_h q_flat q_trend = Ok m →
  dom m ⊆ list_to_set pattern_names ∧
  ∀ (k : string) (l : list T), m !! k = Some l →
    ∃ ps : list nat,
      StronglySorted lt ps ∧
      Forall (λ p, 1 ≤ p ∧ p + 2 ≤ length (dropna r)) ps ∧
      Forall2 (λ p t, index (dropna r) !! p = Some t) ps l.
Proof.
  intros Hres.
  destruct (detect_type2_trace r _ _ _ _ _ m Hres) as (tr & -> & Hsub & Hok).
  assert (∀ k l, replay ∅ tr !! k = Some l →
            l = stamps (hits k tr) ∧ Forall (λ e, e.2 = k) (hits k tr) ∧
            hits k tr ≠ []) as Hlook.
  { intros k l [-> Hne]%replay_empty_lookup. repeat split; [|done].
    apply Forall_forall. by intros e [? _]%elem_of_hits. }
  assert (∀ k, Forall (λ e, ∃ th, hit_ok (dropna r) th e) (hits k tr)) as Hok'.
  { intros k. apply Forall_forall. intros e [_ Hin]%elem_of_hits.
    rewrite Forall_forall in Hok. destruct (Hok _ Hin) as (th & _ & He). eauto. }
  split.
  - intros k [l Hl]%elem_of_dom. destruct (Hlook k l Hl) as (_ & Hk & Hne).
    destruct (hits k tr) as [|e es] eqn:He; [done|].
    apply Forall_cons in Hk as [<- _].
    specialize (Hok' e.2). rewrite He in Hok'.
    apply Forall_cons in Hok' as [(th & _ & _ & _ & Hname & _) _].
    by apply elem_of_list_to_set.
  - intros k l Hl. destruct (Hlook k l Hl) as (-> & _ & _).
    exists (positions (hits k tr)). split; [|split].
    + eapply StronglySorted_sublist; [|apply (StronglySorted_lt_seq 1)].
      etrans; [|exact Hsub]. unfold positions.
      apply fmap_sublist, fmap_sublist, hits_sublist.
    + unfold positions. rewrite <- list_fmap_compose. apply Forall_fmap.
      eapply Forall_impl; [apply Hok'|].
      by intros e (th & ? & ? & _).
    + unfold positions, stamps. rewrite <- !list_fmap_compose.
      apply Forall2_fmap, Forall_Forall2_diag.
      eapply Forall_impl; [apply Hok'|].
      by intros e (th & _ & _ & ? & _).
Qed.

End TurnClaims.

(** ** Missing values and the sign of the series *)

Section MissingClaims.

Context {T : Type}.
Implicit Types r : list (T * float).

Lemma dropna_insert_missing r1 r2 (t : T) :
  dropna (r1 ++ (t, NaN) :: r2) = dropna (r1 ++ r2).
Proof. by rewrite !dropna_app. Qed.

Lemma index_dropna_present r (ts : T) :
  ts ∈ index (dropna r) → ∃ v : Q, (ts, Some v) ∈ r.
Proof.
  unfold index. intros ([t x] & -> & Hin)%list_elem_of_fmap.
  apply elem_of_dropna in Hin as [Hin [v Hv]]. simpl in *. subst x. eauto.
Qed.

Lemma missing_not_in_index_dropna r (t : T) :
  NoDup (index r) → (t, NaN) ∈ r → t ∉ index (dropna r).
Proof.
  intros Hnd Hin [v Hv]%index_dropna_present.
  by pose proof (index_functional r t _ _ Hnd Hin Hv).
Qed.

Lemma detect_type1_sublist r (q_up : Q) (l : list T) :
  detect_type1_spike_up r q_up = Ok l → l `sublist_of` index (dropna r).
Proof.
  unfold detect_type1_spike_up. destruct (_ <? _).
  { intros [= <-]. apply sublist_nil_l. }
  destruct (quantile _ _) as [th|]; [|done]. cbn. intros [= <-].
  unfold index_where_gt, index. apply fmap_sublist.
  induction (dropna r) as [|p r' IH]; simpl; [done|].
  destruct (fgt p.2 th); by constructor.
Qed.

Lemma detect_type2_bucket_index r (w_pre w_post : Z) (q_h q_flat q_trend : Q)
    (m : gmap string (list T)) (k : string) (ts : T) :
  detect_type2_turn_patterns r w_pre w_post q_h q_flat q_trend = Ok m →
  ts ∈ bucket m k → ts ∈ index (dropna r).
Proof.
  intros Hres Hin.
  destruct (detect_type2_trace r _ _ _ _ _ m Hres) as (tr & -> & _ & Hok).
  apply bucket_replay_elem in Hin as [p Hin].
  rewrite Forall_forall in Hok.
  destruct (Hok _ Hin) as (_ & _ & _ & _ & Hts & _). simpl in Hts.
  by eapply list_elem_of_lookup_2.
Qed.

(** C7. Both detectors depend on the series only through its non-missing
    rows: two series with the same rows after [dropna] give the same
    results; inserting (or removing) a missing-valued row anywhere changes
    nothing; and, timestamps being unique, the timestamp of a missing-valued
    row is in no output. *)
Theorem missing_values_ignored (q_up : Q) (w_pre w_post : Z)
    (q_h q_flat q_trend : Q) :
  (∀ r1 r2, dropna r1 = dropna r2 →
     detect_type1_spike_up r1 q_up = detect_type1_spike_up r2 q_up ∧
     detect_type2_turn_patterns r1 w_pre w_post q_h q_flat q_trend
       = detect_type2_turn_patterns r2 w_pre w_post q_h q_flat q_trend) ∧
  (∀ r1 r2 (t : T),
     detect_type1_spike_up (r1 ++ (t, NaN) :: r2) q_up
       = detect_type1_spike_up (r1 ++ r2) q_up ∧
     detect_type2_turn_patterns (r1 ++ (t, NaN) :: r2) w_pre w_post
         q_h q_flat q_trend
       = detect_type2_turn_patterns (r1 ++ r2) w_pre w_post
           q_h q_flat q_trend) ∧
  (∀ r (t : T), NoDup (index r) → (t, NaN) ∈ r →
     (∀ l, detect_type1_spike_up r q_up = Ok l → t ∉ l) ∧
     (∀ m k, detect_type2_turn_patterns r w_pre w_post q_h q_flat q_trend
               = Ok m → t ∉ bucket m k)).
Proof.
  assert (∀ r1 r2, dropna r1 = dropna r2 →
     detect_type1_spike_up r1 q_up = detect_type1_spike_up r2 q_up ∧
     detect_type2_turn_patterns r1 w_pre w_post q_h q_flat q_trend
       = detect_type2_turn_patterns r2 w_pre w_post q_h q_flat q_trend) as Heq.
  { intros r1 r2 H.
    unfold detect_type1_spike_up, detect_type2_turn_patterns. by rewrite H. }
  split; [done|]. split.
  - intros r1 r2 t. apply Heq, dropna_insert_missing.
  - intros r t Hnd Hin.
    pose proof (missing_not_in_index_dropna r t Hnd Hin) as Hnot. split.
    + intros l Hl Ht. apply Hnot.
      eapply sublist_subseteq; [by eapply detect_type1_sublist | done].
    + intros m k Hm Ht. apply Hnot. by eapply detect_type2_bucket_index.
Qed.

End MissingClaims.

(** ** Concrete runs over the real numbers *)

(** Scenario 1 of the specification: the exact quantile is 47.06 and only the
    spike is reported. *)
Example scenario1_threshold :
  ∃ th : Q,
    percentile_linear (valid (values scenario1)) 0.99 = Some th ∧
    (th == 47.06)%Q.
Proof. eexists. split; [reflexivity|]. by vm_compute. Qed.

Example scenario1_result : detect_type1_spike_up scenario1 0.99 = Ok [6].
Proof. vm_compute. reflexivity. Qed.

(** The thresholds of [jump]: the step threshold is 1, a mean of magnitude
    at most 4.8 is flat, and a mean of at least 39.8 is a trend. *)
Example jump_thresholds :
  ∃ h f t : Q,
    derive_thresholds (values jump) (diff (values jump)) 0.9 0.2 0.7
      = Ok (Thresholds (Finite (Some h)) (Some f) (Some t)) ∧
    (h == 1)%Q ∧ (f == 4.8)%Q ∧ (t == 39.8)%Q.
Proof. eexists _, _, _. split; [vm_compute; reflexivity|]. by vm_compute. Qed.

Lemma jump_result :
  detect_type2_turn_patterns jump 3 3 0.9 0.2 0.7
    = Ok {["flat_turn_up"%string := [14]]}.
Proof. vm_compute. reflexivity. Qed.

(** C3, refuted as stated: with insufficient data the mapping has no key at
    all, and on [jump] it has the single key [flat_turn_up]. *)
Lemma turn_patterns_keys_sparse :
  ¬ has_four_keys
      (detect_type2_turn_patterns (@nil (nat * float)) 3 3 0.9 0.2 0.7) ∧
  ¬ has_four_keys (detect_type2_turn_patterns jump 3 3 0.9 0.2 0.7).
Proof.
  split; intros (m & Hm & Hdom).
  - injection Hm as <-. rewrite dom_empty_L in Hdom.
    assert ("up_turn_flat"%string ∈ (∅ : gset string)) as Hin; [|set_solver].
    rewrite Hdom. apply elem_of_list_to_set. set_solver.
  - rewrite jump_result in Hm. injection Hm as <-.
    rewrite dom_singleton_L in Hdom.
    assert ("up_turn_flat"%string ∈ ({["flat_turn_up"%string]} : gset string))
      as Hin; [|set_solver].
    rewrite Hdom. apply elem_of_list_to_set. set_solver.
Qed.

(** ** The claims on concrete series *)

Lemma spike_up_insufficient_prefix :
  detect_type1_spike_up (take 4 scenario1) 0.99 = Ok [].
Proof. apply spike_up_insufficient. vm_compute. lia. Defined.


Lemma turn_patterns_keys_jump :
  (({["flat_turn_up"%string := [14]]} : gmap string (list nat))
     !! "flat_turn_up"%string = None ∧
   bucket ({["flat_turn_up"%string := [14]]} : gmap string (list nat))
     "flat_turn_up" = []) ∨
  ("flat_turn_up"%string ∈ pattern_names ∧
   ∃ l : list nat,
     ({["flat_turn_up"%string := [14]]} : gmap string (list nat))
       !! "flat_turn_up"%string = Some l ∧
     l ≠ [] ∧
     bucket ({["flat_turn_up"%string := [14]]} : gmap string (list nat))
       "flat_turn_up" = l).
Proof.
  destruct (turn_patterns_keys jump 3 3 0.9 0.2 0.7 _ jump_result) as [Hk _].
  exact (Hk "flat_turn_up"%string).
Defined.

Lemma turn_patterns_insufficient_prefix :
  all_buckets_empty (detect_type2_turn_patterns (take 9 jump) 3 3 0.9 0.2 0.7).
Proof. apply turn_patterns_insufficient. vm_compute. done. Defined.

Lemma missing_values_ignored_scenario1 :
  (detect_type1_spike_up scenario1_gap 0.99
     = detect_type1_spike_up scenario1 0.99 ∧
   detect_type2_turn_patterns scenario1_gap 3 3 0.9 0.2 0.7
     = detect_type2_turn_patterns scenario1 3 3 0.9 0.2 0.7) ∧
  (∀ l : list nat, detect_type1_spike_up scenario1_gap 0.99 = Ok l → 7 ∉ l).
Proof.
  destruct (missing_values_ignored (T := nat) 0.99 3 3 0.9 0.2 0.7)
    as (Heq & _ & Hout).
  split; [apply Heq; reflexivity|].
  destruct (Hout scenario1_gap 7) as [Hspike _]; [| |exact Hspike].
  - apply (bool_decide_unpack _). by vm_compute.
  - vm_compute. do 3 right. left.
Defined.

Lemma turn_patterns_ordered_jump :
  dom ({["flat_turn_up"%string := [14]]} : gmap string (list nat))
    ⊆ list_to_set pattern_names ∧
  ∃ ps : list nat,
    StronglySorted lt ps ∧
    Forall (λ p, 1 ≤ p ∧ p + 2 ≤ length (dropna jump)) ps ∧
    Forall2 (λ p t, index (dropna jump) !! p = Some t) ps [14].
Proof.
  destruct (turn_patterns_ordered jump 3 3 0.9 0.2 0.7 _ jump_result)
    as [Hdom Hord].
  split; [done|]. by apply (Hord "flat_turn_up"%string).
Defined.

(** * Further properties of the code *)

(** ** The scan, position by position *)

Section ScanExact.

Context {T : Type}.
Variables (r : list (T * float)) (th : thresholds) (w_pre w_post : Z).
Hypothesis r_clean : Forall (λ p, is_Some p.2) r.

Lemma bucket_append_label (labels : gmap string (list T)) (k k' : string)
    (t : T) :
  bucket (append_label labels k t) k' =
    if decide (k = k') then bucket labels k' ++ [t] else bucket labels k'.
Proof.
  unfold bucket, append_label. destruct (decide (k = k')) as [->|Hne].
  - by rewrite lookup_insert_eq.
  - by rewrite lookup_insert_ne.
Qed.

(** At an interior position the step records the pattern of the position,
    and nothing else. *)
Lemma scan_step_pattern (labels : gmap string (list T)) (p : nat) :
  1 ≤ p → p + 2 ≤ length r →
  ∃ t : T,
    index r !! p = Some t ∧
    scan_step r (values r) (diff (values r)) th w_pre w_post labels p =
      Ok (match pattern_at (values r) th w_pre w_post p with
          | Some k => append_label labels k t
          | None => labels
          end).
Proof.
  intros H1 H2.
  destruct (interior_defined r r_clean p H1 H2)
    as (t & a & b & Ht & Ha & Hb & Hh).
  exists t. split; [done|].
  unfold scan_step, iloc, pattern_at, turn_at, window_labels, pre_window,
    post_window.
  rewrite Ht, Ha, Hb, Hh. cbn [mbind result_bind isna orb negb andb fst snd].
  destruct (turn_cond th (Some a) (Some b) (Some (b - a)%Q)); cbn [negb]; [|done].
  by destruct (trend_label _ _ _), (trend_label _ _ _).
Qed.

Lemma scan_loop_buckets (ps : list nat) (labels : gmap string (list T)) :
  Forall (λ p, 1 ≤ p ∧ p + 2 ≤ length r) ps →
  ∃ labels' : gmap string (list T),
    for_each (scan_step r (values r) (diff (values r)) th w_pre w_post)
      labels ps = Ok labels' ∧
    ∀ k : string,
      bucket labels' k =
        bucket labels k ++
        omap (λ p, index r !! p)
          (filter (λ p, pattern_at (values r) th w_pre w_post p = Some k) ps).
Proof.
  intros Hps. revert labels.
  induction Hps as [|p ps [H1 H2] _ IH]; intros labels.
  - exists labels. split; [done|]. intros k. by rewrite app_nil_r.
  - destruct (scan_step_pattern labels p H1 H2) as (t & Ht & Hstep).
    cbn [for_each]. rewrite Hstep. cbn [mbind result_bind].
    destruct (IH (match pattern_at (values r) th w_pre w_post p with
                  | Some k => append_label labels k t
                  | None => labels
                  end)) as (labels' & Hrest & Hb).
    exists labels'. split; [done|]. intros k. rewrite Hb, filter_cons.
    destruct (pattern_at (values r) th w_pre w_post p) as [k0|] eqn:Hp.
    + rewrite bucket_append_label.
      destruct (decide (k0 = k)) as [->|Hne].
      * rewrite decide_True by done. cbn [omap list_omap]. rewrite Ht.
        by rewrite <- app_assoc.
      * rewrite decide_False by congruence. done.
    + by rewrite decide_False by done.
Qed.

End ScanExact.

Section TurnExact.

Context {T : Type}.
Implicit Types r : list (T * float).

(** The buckets of a run on a long enough series, one by one. *)
Lemma detect_type2_buckets r (w_pre w_post : Z) (q_h q_flat q_trend : Q)
    (m : gmap string (list T)) :
  ¬ (Z.of_nat (length (dropna r)) < w_pre + w_post + 4)%Z →
  detect_type2_turn_patterns r w_pre w_post q_h q_flat q_trend = Ok m →
  ∃ th : thresholds,
    derive_thresholds (values (dropna r)) (diff (values (dropna r)))
      q_h q_flat q_trend = Ok th ∧
    ∀ k : string, bucket m k = pattern_stamps (dropna r) th w_pre w_post k.
Proof.
  intros Hlong. unfold detect_type2_turn_patterns.
  rewrite (proj2 (Z.ltb_ge _ _)) by lia.
  destruct (derive_thresholds _ _ _ _ _) as [th|] eqn:Hth; [|done]. cbn.
  destruct (scan_loop_buckets (dropna r) th w_pre w_post (dropna_notna r)
              (seq 1 (length (dropna r) - 1 - 1)) ∅
              (interior_positions _)) as (labels' & -> & Hb).
  intros [= <-]. exists th. split; [done|]. intros k. by rewrite Hb.
Qed.


End TurnExact.

(** ** The thresholds *)

Lemma elem_of_sort_values (xs : list Q) (x : Q) :
  x ∈ sort_values xs ↔ x ∈ xs.
Proof. by rewrite (sort_values_perm xs). Qed.

(** A quantile lies between two of the values. *)
Lemma percentile_linear_between (xs : list Q) (q th : Q) :
  (0 <= q)%Q → (q <= 1)%Q → percentile_linear xs q = Some th →
  ∃ a b : Q, a ∈ xs ∧ b ∈ xs ∧ (a <= th)%Q ∧ (th <= b)%Q.
Proof.
  intros H0 H1 Hth.
  assert (xs ≠ []) as Hxs by (by intros ->).
  destruct (percentile_linear_unfold xs q Hxs H0 H1)
    as (a & b & Ha & Hb & Hab & Heq).
  rewrite Heq in Hth. injection Hth as <-.
  destruct (gamma_bounds (q * inject_Z (Z.of_nat (length xs) - 1))) as [Hg0 Hg1].
  destruct (lerp_between a b _ Hab Hg0 (Qlt_le_weak _ _ Hg1)) as [Hl Hu].
  exists a, b. repeat split; [| |done..].
  - apply elem_of_sort_values. by eapply list_elem_of_lookup_2.
  - apply elem_of_sort_values. by eapply list_elem_of_lookup_2.
Qed.

Lemma quantile_between (s : list float) (q : Q) (x : float) :
  valid s ≠ [] → quantile s q = Ok x →
  ∃ th a b : Q,
    x = Some th ∧ Some a ∈ s ∧ Some b ∈ s ∧ (a <= th)%Q ∧ (th <= b)%Q.
Proof.
  intros Hne (H0 & H1 & ->)%quantile_inv.
  destruct (percentile_linear_spec (valid s) q Hne H0 H1) as (th & Hth & _).
  destruct (percentile_linear_between _ _ _ H0 H1 Hth)
    as (a & b & Ha & Hb & Hle).
  exists th, a, b. split; [done|].
  unfold valid in Ha, Hb.
  apply list_elem_of_omap in Ha as (xa & Ha & Hxa).
  apply list_elem_of_omap in Hb as (xb & Hb & Hxb).
  simpl in Hxa, Hxb. by subst xa xb.
Qed.

Lemma valid_filter_notna (s : list float) :
  valid (List.filter notna s) = valid s.
Proof.
  unfold valid. induction s as [|[x|] s IH]; simpl; [done| |done].
  by f_equal.
Qed.

Lemma length_filter_notna (s : list float) :
  length (List.filter notna s) = length (valid s).
Proof.
  unfold valid. induction s as [|[x|] s IH]; simpl; [done| |done].
  by f_equal.
Qed.

Lemma existsb_notna_valid (s : list float) :
  existsb notna s = true ↔ valid s ≠ [].
Proof.
  unfold valid. induction s as [|[x|] s IH]; simpl; [done|done|].
  apply IH.
Qed.

Lemma valid_fabs (s : list float) : valid (fabs <$> s) = Qabs <$> valid s.
Proof.
  unfold valid. induction s as [|[x|] s IH]; simpl; [done| |done].
  by f_equal.
Qed.

Lemma elem_of_fabs (s : list float) (a : Q) :
  Some a ∈ fabs <$> s → ∃ c : Q, Some c ∈ s ∧ a = Qabs c.
Proof.
  intros ([c|] & Hc & Hin)%list_elem_of_fmap; [|done].
  injection Hc as ->. eauto.
Qed.

Lemma pymax_Some (a b : Q) :
  ∃ c : Q, pymax (Some a) (Some b) = Some c ∧ (a <= c)%Q ∧ (b <= c)%Q ∧
           (c = a ∨ c = b).
Proof.
  unfold pymax. destruct (fgt (Some b) (Some a)) eqn:E.
  - apply fgt_Some in E. exists b. repeat split; [lra|lra|by right].
  - exists a. repeat split; [lra| |by left].
    apply Qnot_lt_le. intros Hlt. apply fgt_Some in Hlt. congruence.
Qed.

(** [th_flat] and [th_trend] are numbers with [0 <= 1.1 * th_flat <= th_trend]. *)
Lemma derive_thresholds_flat_trend (g h : list float) (q_h q_flat q_trend : Q)
    (th : thresholds) :
  derive_thresholds g h q_h q_flat q_trend = Ok th →
  ∃ f t : Q,
    th_flat th = Some f ∧ th_trend th = Some t ∧
    (0 <= f)%Q ∧ (1.1 * f <= t)%Q ∧ (f <= t)%Q ∧
    (valid g ≠ [] →
     ∃ t0 : Q, quantile (List.filter notna (fabs <$> g)) q_trend = Ok (Some t0) ∧
               (t0 <= t)%Q).
Proof.
  unfold derive_thresholds. intros Hth.
  set (abs_g := List.filter notna (fabs <$> g)) in *.
  assert (∀ q x, quantile abs_g q = Ok x → valid g ≠ [] →
            ∃ y : Q, x = Some y ∧ (0 <= y)%Q) as Hq.
  { intros q x Hx Hne.
    destruct (quantile_between abs_g q x) as (y & a & b & -> & Ha & _ & Hle & _);
      [|done|].
    - subst abs_g. rewrite valid_filter_notna, valid_fabs.
      by destruct (valid g).
    - exists y. split; [done|]. subst abs_g.
      apply list_elem_of_In, filter_In in Ha as [Ha%list_elem_of_In _].
      apply elem_of_fabs in Ha as (c & _ & ->).
      pose proof (Qabs_nonneg c). lra. }
  assert (bool_decide (length abs_g ≠ 0) = true ↔ valid g ≠ []) as Hlen.
  { subst abs_g. rewrite bool_decide_eq_true, length_filter_notna, valid_fabs,
      length_fmap. by destruct (valid g). }
  destruct (if existsb notna h then _ else _) as [x_h|]; [|done].
  cbn [mbind result_bind] in Hth.
  destruct (bool_decide (length abs_g ≠ 0)) eqn:Hb.
  - clear Hb. pose proof (proj1 Hlen eq_refl) as Hb.
    destruct (quantile abs_g q_flat) as [xf|] eqn:Hf; [|done].
    destruct (quantile abs_g q_trend) as [xt|] eqn:Ht; [|done].
    cbn in Hth. injection Hth as <-. cbn [th_flat th_trend].
    destruct (Hq _ _ Hf Hb) as (f & -> & Hf0), (Hq _ _ Ht Hb) as (t0 & -> & Ht0).
    cbn [fmul]. destruct (pymax_Some t0 (f * 1.1)) as (t & -> & Hta & Htb & _).
    exists f, t. repeat split; [done|lra|lra|]. intros _. by exists t0.
  - cbn in Hth. injection Hth as <-. cbn [th_flat th_trend fmul].
    destruct (pymax_Some 0 (0 * 1.1)) as (t & -> & Hta & Htb & _).
    exists 0%Q, t. repeat split; [done|lra|lra|].
    intros Hne. by apply Hlen in Hne.
Qed.

(** ** The labels *)

(** Turns the boolean comparisons of the context into inequalities. *)
Ltac Qbools :=
  repeat match goal with
         | H : Qle_bool _ _ = true |- _ => apply Qle_bool_iff in H
         | H : Qle_bool _ _ = false |- _ =>
             apply not_true_iff_false in H; rewrite Qle_bool_iff in H;
             apply Qnot_le_lt in H
         end.

Lemma Qabs_cases (x : Q) :
  ((0 <= x)%Q ∧ (Qabs x == x)%Q) ∨ ((x < 0)%Q ∧ (Qabs x == - x)%Q).
Proof.
  destruct (Qlt_le_dec x 0) as [Hlt|Hle].
  - right. split; [done|]. apply Qabs_neg. lra.
  - left. split; [done|]. by apply Qabs_pos.
Qed.

Lemma trend_label_Some (f t x : Q) :
  trend_label (Some f) (Some t) (Some x) =
    if Qle_bool (Qabs x) f then flat
    else if Qle_bool t x then up
    else if Qle_bool x (- t) then down
    else flat.
Proof. done. Qed.

Lemma trend_label_NaN (th_flat th_trend : float) :
  trend_label th_flat th_trend NaN = flat.
Proof. unfold trend_label. by destruct th_flat, th_trend. Qed.

Lemma trend_label_meaning (f t : Q) (mu : float) :
  (0 <= f)%Q → (f <= t)%Q →
  label_meaning f t (trend_label (Some f) (Some t) mu) mu.
Proof.
  intros Hf Hft. destruct mu as [x|]; [|rewrite trend_label_NaN; by left].
  rewrite trend_label_Some.
  destruct (Qle_bool (Qabs x) f) eqn:E1; [|destruct (Qle_bool t x) eqn:E2;
    [|destruct (Qle_bool x (- t)) eqn:E3]]; Qbools; cbn [label_meaning];
    destruct (Qabs_cases x) as [[Hx Ha]|[Hx Ha]]; rewrite Ha in E1.
  all: first [ right; exists x; split; [done|]; split; lra
             | exists x; split; [done|]; split; lra ].
Qed.

Lemma trend_label_mirror (f t : Q) (mu : float) :
  (0 <= f)%Q → (f <= t)%Q →
  trend_label (Some f) (Some t) (fneg mu)
    = mirror (trend_label (Some f) (Some t) mu).
Proof.
  intros Hf Hft. destruct mu as [x|]; [|by rewrite !trend_label_NaN].
  cbn [fneg fmap option_fmap option_map]. rewrite !trend_label_Some.
  assert (Qle_bool (Qabs (- x)) f = Qle_bool (Qabs x) f) as ->.
  { apply Qleb_comp; [apply Qabs_opp | done]. }
  destruct (Qle_bool (Qabs x) f) eqn:E1; [done|].
  destruct (Qle_bool t x) eqn:E2, (Qle_bool x (- t)) eqn:E3,
    (Qle_bool t (- x)) eqn:E4, (Qle_bool (- x) (- t)) eqn:E5;
    Qbools; try done; exfalso;
    destruct (Qabs_cases x) as [[Hx Ha]|[Hx Ha]];
    try rewrite Ha in E1; lra.
Qed.

(** X3. For thresholds [0 <= th_flat <= th_trend], as the detector derives
    them, a mean is labelled [up] exactly when it is at least [th_trend]
    and above [th_flat], [down] exactly when it is at most [-th_trend] and
    below [-th_flat], and the label of the opposite mean is the mirrored
    label. *)
Theorem trend_label_sign (f t : Q) (mu : float) :
  (0 <= f)%Q → (f <= t)%Q →
  (trend_label (Some f) (Some t) mu = up ↔
     ∃ x : Q, mu = Some x ∧ (t <= x)%Q ∧ (f < x)%Q) ∧
  (trend_label (Some f) (Some t) mu = down ↔
     ∃ x : Q, mu = Some x ∧ (x <= - t)%Q ∧ (x < - f)%Q) ∧
  trend_label (Some f) (Some t) (fneg mu)
    = mirror (trend_label (Some f) (Some t) mu).
Proof.
  intros Hf Hft.
  pose proof (trend_label_meaning f t mu Hf Hft) as Hm.
  split; [|split].
  - split.
    + intros E. by rewrite E in Hm.
    + intros (x & -> & Htx & Hfx). rewrite trend_label_Some.
      destruct (Qle_bool (Qabs x) f) eqn:E1; [|destruct (Qle_bool t x) eqn:E2];
        Qbools; [| done |]; exfalso;
        destruct (Qabs_cases x) as [[Hx Ha]|[Hx Ha]];
        try rewrite Ha in E1; lra.
  - split.
    + intros E. by rewrite E in Hm.
    + intros (x & -> & Htx & Hfx). rewrite trend_label_Some.
      destruct (Qle_bool (Qabs x) f) eqn:E1; [|destruct (Qle_bool t x) eqn:E2;
        [|destruct (Qle_bool x (- t)) eqn:E3]];
        Qbools; try done; exfalso;
        destruct (Qabs_cases x) as [[Hx Ha]|[Hx Ha]];
        try rewrite Ha in E1; lra.
  - by apply trend_label_mirror.
Qed.

(** ** What a bucket says of the windows around its timestamps *)

Section TurnWindows.

Context {T : Type}.
Implicit Types r : list (T * float).

Lemma elem_of_pattern_stamps r (th : thresholds) (w_pre w_post : Z)
    (k : string) (ts : T) :
  ts ∈ pattern_stamps r th w_pre w_post k ↔
  ∃ p : nat, 1 ≤ p ∧ p + 2 ≤ length r ∧ index r !! p = Some ts ∧
             pattern_at (values r) th w_pre w_post p = Some k.
Proof.
  unfold pattern_stamps. rewrite list_elem_of_omap. split.
  - intros (p & [Hpat Hp%elem_of_seq]%list_elem_of_filter & Hts).
    exists p. repeat split; [lia..|done|done].
  - intros (p & H1 & H2 & Hts & Hpat). exists p. split; [|done].
    apply list_elem_of_filter. split; [done|]. apply elem_of_seq. lia.
Qed.

(** A timestamp gets into a bucket through a position of a long enough
    series. *)
Lemma bucket_position r (w_pre w_post : Z) (q_h q_flat q_trend : Q)
    (m : gmap string (list T)) (k : string) (ts : T) :
  detect_type2_turn_patterns r w_pre w_post q_h q_flat q_trend = Ok m →
  ts ∈ bucket m k →
  ∃ (th : thresholds) (p : nat),
    derive_thresholds (values (dropna r)) (diff (values (dropna r)))
      q_h q_flat q_trend = Ok th ∧
    1 ≤ p ∧ p + 2 ≤ length (dropna r) ∧ index (dropna r) !! p = Some ts ∧
    pattern_at (values (dropna r)) th w_pre w_post p = Some k.
Proof.
  intros Hres Hin.
  destruct (decide (Z.of_nat (length (dropna r)) < w_pre + w_post + 4)%Z)
    as [Hshort|Hlong].
  - rewrite detect_type2_short in Hres by done. injection Hres as <-.
    by apply elem_of_nil in Hin.
  - destruct (detect_type2_buckets r _ _ _ _ _ m Hlong Hres) as (th & Hth & Hb).
    rewrite Hb in Hin. apply elem_of_pattern_stamps in Hin as (p & ? & ? & ? & ?).
    by exists th, p.
Qed.


End TurnWindows.

(** ** Exceptions *)

Lemma quantile_cases (s : list float) (q : Q) :
  (valid_quantile q ∧ quantile s q = Ok (percentile_linear (valid s) q)) ∨
  (¬ valid_quantile q ∧ quantile s q = Raise ValueError).
Proof.
  unfold quantile, validate_percentile, valid_quantile.
  destruct (Qle_bool 0 q) eqn:E0, (Qle_bool q 1) eqn:E1; Qbools; cbn;
    first [ by left | right; split; [intros [??]; lra | done] ].
Qed.

Lemma derive_thresholds_cases (g h : list float) (q_h q_flat q_trend : Q) :
  (∃ th, derive_thresholds g h q_h q_flat q_trend = Ok th) ∨
  (derive_thresholds g h q_h q_flat q_trend = Raise ValueError ∧
   ¬ (valid_quantile q_h ∧ valid_quantile q_flat ∧ valid_quantile q_trend)).
Proof.
  unfold derive_thresholds.
  destruct (existsb notna h); [destruct (quantile_cases (fabs <$> h) q_h)
    as [[Vh ->]|[Vh ->]]; [|right; split; [done | tauto]] |]; cbn;
  (destruct (bool_decide _); cbn; [|by eauto];
   destruct (quantile_cases (List.filter notna (fabs <$> g)) q_flat)
     as [[Vf ->]|[Vf ->]]; [|right; split; [done | tauto]]; cbn;
   destruct (quantile_cases (List.filter notna (fabs <$> g)) q_trend)
     as [[Vt ->]|[Vt ->]]; [|right; split; [done | tauto]]; cbn; by eauto).
Qed.

(** On two or more clean rows every quantile is computed. *)
Lemma derive_thresholds_raises (g : list float) (q_h q_flat q_trend : Q) :
  2 ≤ length g → Forall (λ x, is_Some x) g →
  ¬ (valid_quantile q_h ∧ valid_quantile q_flat ∧ valid_quantile q_trend) →
  derive_thresholds g (diff g) q_h q_flat q_trend = Raise ValueError.
Proof.
  intros Hlen Hg Hbad. unfold derive_thresholds.
  destruct g as [|[a|] [|[b|] g]]; simpl in Hlen; try lia;
    try (by repeat (apply Forall_cons in Hg as [[? [=]] Hg])
         || by (apply Forall_cons in Hg as [_ Hg];
                apply Forall_cons in Hg as [[? [=]] Hg])).
  assert (existsb notna (diff (Some a :: Some b :: g)) = true) as -> by done.
  assert (bool_decide
            (length (List.filter notna (fabs <$> Some a :: Some b :: g)) ≠ 0)
          = true) as -> by done.
  destruct (quantile_cases (fabs <$> diff (Some a :: Some b :: g)) q_h)
    as [[Vh ->]|[Vh ->]]; [|done]; cbn [mbind result_bind].
  destruct (quantile_cases
              (List.filter notna (fabs <$> Some a :: Some b :: g)) q_flat)
    as [[Vf ->]|[Vf ->]]; [|done]; cbn [mbind result_bind].
  destruct (quantile_cases
              (List.filter notna (fabs <$> Some a :: Some b :: g)) q_trend)
    as [[Vt ->]|[Vt ->]]; [|done]. tauto.
Qed.

Section Raises.

Context {T : Type}.
Implicit Types r : list (T * float).

(** X5. The spike detector raises exactly when it has at least 5
    non-missing points and the quantile is outside [0, 1]; the exception is
    then the [ValueError] of [Series.quantile]. *)
Theorem spike_up_raises r (q_up : Q) (e : exn) :
  detect_type1_spike_up r q_up = Raise e ↔
  e = ValueError ∧ 5 ≤ length (dropna r) ∧ ¬ valid_quantile q_up.
Proof.
  unfold detect_type1_spike_up.
  destruct (length (dropna r) <? 5) eqn:Hlen.
  - apply Nat.ltb_lt in Hlen. split; [done | lia].
  - apply Nat.ltb_ge in Hlen.
    destruct (quantile_cases (values (dropna r)) q_up) as [[V ->]|[V ->]]; cbn.
    + split; [done | tauto].
    + split; [by intros [= <-] | by intros [-> _]].
Qed.


End Raises.

(** ** The extremes of the spike detector *)

Lemma Qfloor_one_mul (z : Z) : Qfloor (1 * inject_Z z) = z.
Proof.
  rewrite (Qfloor_comp (1 * inject_Z z) (inject_Z z)) by ring.
  apply Qfloor_Z.
Qed.

(** The quantile 1 is at least every value. *)
Lemma percentile_linear_one (xs : list Q) :
  xs ≠ [] →
  ∃ th : Q, percentile_linear xs 1 = Some th ∧ Forall (λ x, x <= th)%Q xs.
Proof.
  intros Hxs.
  destruct (percentile_linear_unfold xs 1 Hxs) as (a & b & Ha & Hb & Hab & ->);
    [done..|].
  eexists. split; [done|].
  destruct (gamma_bounds (1 * inject_Z (Z.of_nat (length xs) - 1)))
    as [Hg0 Hg1].
  destruct (lerp_between a b _ Hab Hg0 (Qlt_le_weak _ _ Hg1)) as [Hl _].
  rewrite Qfloor_one_mul in Ha.
  apply Forall_forall. intros x Hx.
  apply elem_of_sort_values in Hx as [i Hi]%list_elem_of_lookup.
  eapply Qle_trans; [|exact Hl].
  eapply (StronglySorted_lookup_le (sort_values xs) i);
    [apply sort_values_StronglySorted | | exact Hi | exact Ha].
  apply lookup_lt_Some in Hi. rewrite sort_values_length in Hi. lia.
Qed.

Section SpikeExtremes.

Context {T : Type}.
Implicit Types r : list (T * float).

Lemma elem_of_valid_values r (a : Q) :
  a ∈ valid (values r) ↔ ∃ t : T, (t, Some a) ∈ r.
Proof.
  unfold valid, values. rewrite list_elem_of_omap. split.
  - intros (x & [[t y] [-> Hin]]%list_elem_of_fmap & Hx). simpl in Hx.
    subst y. eauto.
  - intros (t & Hin). exists (Some a). split; [|done].
    apply list_elem_of_fmap. by exists (t, Some a).
Qed.

Lemma filter_is_spike_none r (th : Q) :
  Forall (λ x, (x <= th)%Q) (valid (values r)) → filter (is_spike th) r = [].
Proof.
  intros Hmax. induction r as [|[t x] r IH]; [done|].
  rewrite filter_cons, decide_False.
  - apply IH. destruct x; [by apply Forall_cons in Hmax as [_ ?] | done].
  - intros (v & Hv & Hlt). simpl in Hv. subst x.
    apply Forall_cons in Hmax as [Hle _]. by apply Qlt_not_le in Hlt.
Qed.

Lemma length_filter_is_spike r (th : Q) :
  length (filter (is_spike th) r) ≤ length (dropna r) ∧
  ((∃ (t : T) (a : Q), (t, Some a) ∈ r ∧ (a <= th)%Q) →
   length (filter (is_spike th) r) < length (dropna r)).
Proof.
  unfold dropna. induction r as [|[t [v|]] r [IH1 IH2]].
  - split; [done|]. by intros (t & a & ?%elem_of_nil & _).
  - rewrite filter_cons. cbn [List.filter snd notna isna negb length].
    destruct (decide (is_spike th (t, Some v))) as [Hs|Hs].
    + cbn [length]. split; [lia|].
      intros (t' & a & [[= -> ->]|Hin]%elem_of_cons & Hle).
      * destruct Hs as (v' & [= <-] & Hlt). by apply Qlt_not_le in Hlt.
      * assert (length (filter (is_spike th) r)
                < length (List.filter (λ p : T * float, notna p.2) r)); [|lia].
        apply IH2. eauto.
    + split; lia.
  - rewrite filter_cons, decide_False by (by intros (? & [=] & _)).
    cbn [List.filter snd notna isna negb]. split; [done|].
    intros (t' & a & [[=]|Hin]%elem_of_cons & Hle). apply IH2. eauto.
Qed.


End SpikeExtremes.

(** ** The spike detector under reordering and change of unit *)

Lemma linear_quantile_perm (xs ys : list Q) (q th : Q) :
  xs ≡ₚ ys → linear_quantile xs q th → linear_quantile ys q th.
Proof.
  intros Hp (s & [Hs1 Hs2] & Hrest). exists s. split.
  - split; [by rewrite Hs1 | done].
  - by rewrite <- (Permutation_length Hp).
Qed.

Lemma is_spike_Qeq {T : Type} (th1 th2 : Q) (p : T * float) :
  (th1 == th2)%Q → is_spike th1 p ↔ is_spike th2 p.
Proof.
  intros Heq. unfold is_spike. split; intros (v & Hv & Hlt); exists v;
    (split; [done|]); [by rewrite <- Heq | by rewrite Heq].
Qed.

Section SpikeInvariance.

Context {T : Type}.
Implicit Types r : list (T * float).

Lemma dropna_perm r1 r2 : r1 ≡ₚ r2 → dropna r1 ≡ₚ dropna r2.
Proof.
  unfold dropna.
  induction 1 as [|p r1 r2 _ IH|p1 p2 r|r1 r2 r3 _ IH1 _ IH2]; simpl.
  - done.
  - destruct (notna p.2); [by constructor | done].
  - destruct (notna p1.2), (notna p2.2); try done. apply perm_swap.
  - by etrans.
Qed.

(** X8. The spike detector does not depend on the order of the rows: on a
    reordered series it returns the same timestamps, reordered, or raises
    the same exception. *)
Theorem spike_up_permutation r1 r2 (q_up : Q) :
  r1 ≡ₚ r2 →
  match detect_type1_spike_up r1 q_up, detect_type1_spike_up r2 q_up with
  | Ok l1, Ok l2 => l1 ≡ₚ l2
  | Raise e1, Raise e2 => e1 = e2
  | _, _ => False
  end.
Proof.
  intros Hp. pose proof (dropna_perm r1 r2 Hp) as Hd.
  pose proof (Permutation_length Hd) as Hlen.
  destruct (decide (length (dropna r1) < 5)) as [Hshort|Hlong].
  - rewrite !detect_type1_short by lia. done.
  - destruct (quantile_cases (values (dropna r1)) q_up) as [[[H0 H1] _]|[V E1]].
    + destruct (spike_up_exact_core r1 q_up) as (th1 & Hq1 & ->);
        [lia|done..|].
      destruct (spike_up_exact_core r2 q_up) as (th2 & Hq2 & ->);
        [lia|done..|].
      assert (th1 == th2)%Q as Heq.
      { eapply linear_quantile_unique; [exact Hq1|].
        eapply linear_quantile_perm; [|exact Hq2].
        unfold valid, values. by rewrite Hp. }
      unfold index. apply fmap_Permutation.
      rewrite (list_filter_iff (is_spike th1) (is_spike th2))
        by (intros; by apply is_spike_Qeq).
      by rewrite Hp.
    + unfold detect_type1_spike_up.
      rewrite !(proj2 (Nat.ltb_ge _ _)) by lia.
      destruct (quantile_cases (values (dropna r2)) q_up) as [[V' _]|[_ E2]];
        [done|]. by rewrite E1, E2.
Qed.

Lemma dropna_rescale (c d : Q) r :
  dropna (rescale c d r) = rescale c d (dropna r).
Proof.
  unfold dropna, rescale. induction r as [|[t [v|]] r IH]; [done| |done].
  cbn [fmap list_fmap List.filter fst snd option_fmap option_map notna isna
       negb] in *. by rewrite IH.
Qed.

End SpikeInvariance.

(** ** The windows *)

(** Two prefixes of a list are the same when their lengths agree up to the
    length of the list. *)
Lemma take_drop_min_eq {A : Type} (l : list A) (n m : nat) :
  n `min` length l = m `min` length l → take n l = take m l.
Proof.
  intros H.
  assert (∀ k, take k l = take (k `min` length l) l) as Hmin.
  { intros k. by rewrite <- take_take, firstn_all. }
  by rewrite (Hmin n), (Hmin m), H.
Qed.

Lemma windows_clipped_pre (g : list float) (w_pre : Z) (t_pos : nat) :
  t_pos < length g → (w_pre ≤ 0)%Z → pre_window g w_pre t_pos = [].
Proof.
  intros Hp Hw. unfold pre_window, iloc_slice, slice_bound.
  rewrite !(proj2 (Z.ltb_ge _ _)) by lia.
  replace (_ - _) with 0 by lia. done.
Qed.

Lemma windows_clipped_post (g : list float) (w_post : Z) (t_pos : nat) :
  t_pos < length g → (w_post ≤ 0)%Z → (0 ≤ Z.of_nat t_pos + 1 + w_post)%Z →
  post_window g w_post t_pos = [].
Proof.
  intros Hp Hw Hs. unfold post_window, iloc_slice, slice_bound.
  rewrite !(proj2 (Z.ltb_ge _ _)) by lia.
  replace (_ - _) with 0 by lia. done.
Qed.

(** X11. The windows of the scan at a position [t_pos] of the series: the
    window before is made of the last [w_pre] values before [t_pos], fewer
    at the start of the series, none for [w_pre <= 0]; the window after is
    made of the first [w_post] values after [t_pos], fewer at the end of the
    series, none for [w_post <= 0] as long as [t_pos + 1 + w_post >= 0]; and
    when [t_pos + 1 + w_post] is negative the stop of the slice counts from
    the end, and the window after is made of the first [n + w_post] values
    after [t_pos]. *)
Theorem windows_clipped (g : list float) (w_pre w_post : Z) (t_pos : nat) :
  t_pos < length g →
  pre_window g w_pre t_pos = drop (t_pos - Z.to_nat w_pre) (take t_pos g) ∧
  ((0 ≤ Z.of_nat t_pos + 1 + w_post)%Z →
   post_window g w_post t_pos = take (Z.to_nat w_post) (drop (S t_pos) g)) ∧
  ((Z.of_nat t_pos + 1 + w_post < 0)%Z →
   post_window g w_post t_pos
     = take (Z.to_nat (Z.of_nat (length g) + w_post)) (drop (S t_pos) g)).
Proof.
  intros Hp. unfold pre_window, post_window, iloc_slice, slice_bound.
  split; [|split].
  - rewrite !(proj2 (Z.ltb_ge _ _)) by lia.
    replace (Z.to_nat (Z.of_nat t_pos `min` Z.of_nat (length g)))
      with t_pos by lia.
    destruct (decide (0 < w_pre)%Z) as [Hw|Hw].
    + replace (Z.to_nat ((0 `max` (Z.of_nat t_pos - w_pre))
                           `min` Z.of_nat (length g)))
        with (t_pos - Z.to_nat w_pre) by lia.
      rewrite take_drop_commute. f_equal. f_equal. lia.
    + replace (Z.to_nat ((0 `max` (Z.of_nat t_pos - w_pre))
                           `min` Z.of_nat (length g)))
        with (Z.to_nat (Z.of_nat t_pos - w_pre) `min` length g) by lia.
      replace (t_pos - Z.to_nat (Z.of_nat t_pos - w_pre) `min` length g)
        with 0 by lia.
      replace (t_pos - Z.to_nat w_pre) with t_pos by lia.
      rewrite take_0. symmetry. apply drop_ge. rewrite length_take. lia.
  - intros Hs. rewrite !(proj2 (Z.ltb_ge _ _)) by lia.
    replace (Z.to_nat ((Z.of_nat t_pos + 1) `min` Z.of_nat (length g)))
      with (S t_pos) by lia.
    apply take_drop_min_eq. rewrite length_drop. lia.
  - intros Hs. rewrite (proj2 (Z.ltb_ge (Z.of_nat t_pos + 1) 0)) by lia.
    rewrite (proj2 (Z.ltb_lt _ 0)) by lia.
    replace (Z.to_nat ((Z.of_nat t_pos + 1) `min` Z.of_nat (length g)))
      with (S t_pos) by lia.
    apply take_drop_min_eq. rewrite length_drop. lia.
Qed.

(** ** How many timestamps, and which buckets *)

Lemma mean_nil : mean [] = NaN.
Proof. done. Qed.

Lemma length_omap_le {A B : Type} (f : A → option B) (l : list A) :
  length (omap f l) ≤ length l.
Proof.
  induction l as [|x l IH]; [done|]. cbn [omap list_omap].
  destruct (f x); simpl; lia.
Qed.

(** Positions are shared out between the names: each has one pattern at
    most. *)
Lemma length_filter_patterns {A : Type} (pat : A → option string)
    (ps : list A) :
  length (filter (λ p, pat p = Some "down_turn_flat"%string) ps) +
  length (filter (λ p, pat p = Some "flat_turn_down"%string) ps) +
  length (filter (λ p, pat p = Some "flat_turn_up"%string) ps) +
  length (filter (λ p, pat p = Some "up_turn_flat"%string) ps) ≤ length ps.
Proof.
  induction ps as [|p ps IH]; [done|]. rewrite !filter_cons.
  destruct (pat p) as [k|].
  - repeat case_decide; simplify_eq; simpl; lia.
  - repeat case_decide; simplify_eq; simpl; lia.
Qed.

Section TurnCounts.

Context {T : Type}.
Implicit Types r : list (T * float).

(** X10. The four buckets hold at most [n - 2] timestamps in all, [n]
    being the number of non-missing points: an interior position gives one
    timestamp at most, to one bucket. *)
Theorem turn_patterns_count r (w_pre w_post : Z) (q_h q_flat q_trend : Q)
    (m : gmap string (list T)) :
  detect_type2_turn_patterns r w_pre w_post q_h q_flat q_trend = Ok m →
  length (bucket m "down_turn_flat") + length (bucket m "flat_turn_down") +
  length (bucket m "flat_turn_up") + length (bucket m "up_turn_flat")
    ≤ length (dropna r) - 2.
Proof.
  intros Hres.
  destruct (decide (Z.of_nat (length (dropna r)) < w_pre + w_post + 4)%Z)
    as [Hshort|Hlong].
  - rewrite detect_type2_short in Hres by done. injection Hres as <-.
    unfold bucket. rewrite !lookup_empty. simpl. lia.
  - destruct (detect_type2_buckets r _ _ _ _ _ m Hlong Hres) as (th & _ & Hb).
    rewrite !Hb. unfold pattern_stamps.
    pose proof (length_filter_patterns
                  (pattern_at (values (dropna r)) th w_pre w_post)
                  (seq 1 (length (dropna r) - 1 - 1))) as Hsum.
    rewrite length_seq in Hsum.
    pose proof (λ k, length_omap_le (λ p, index (dropna r) !! p)
                  (filter (λ p, pattern_at (values (dropna r)) th w_pre w_post p
                                = Some k)
                     (seq 1 (length (dropna r) - 1 - 1)))) as Hle.
    pose proof (Hle "down_turn_flat"%string).
    pose proof (Hle "flat_turn_down"%string).
    pose proof (Hle "flat_turn_up"%string).
    pose proof (Hle "up_turn_flat"%string). lia.
Qed.

Lemma no_elem_nil {A : Type} (l : list A) : (∀ x, x ∉ l) → l = [].
Proof. destruct l as [|x l]; [done|]. intros H. destruct (H x). left. Qed.

(** X12. Windows of no width: with [w_pre <= 0] the window before a
    position is empty and its label is [flat], so [down_turn_flat] and
    [up_turn_flat] stay empty; with [-2 <= w_post <= 0] the window after is
    empty, so [flat_turn_down] and [flat_turn_up] stay empty. *)
Theorem turn_patterns_empty_windows r (w_pre w_post : Z)
    (q_h q_flat q_trend : Q) (m : gmap string (list T)) :
  detect_type2_turn_patterns r w_pre w_post q_h q_flat q_trend = Ok m →
  ((w_pre ≤ 0)%Z →
   bucket m "down_turn_flat" = [] ∧ bucket m "up_turn_flat" = []) ∧
  ((-2 ≤ w_post ≤ 0)%Z →
   bucket m "flat_turn_down" = [] ∧ bucket m "flat_turn_up" = []).
Proof.
  intros Hres.
  assert (∀ k ts, ts ∈ bucket m k →
            ∃ th p, 1 ≤ p ∧ p < length (values (dropna r)) ∧
              pattern_of (window_labels (values (dropna r)) th w_pre w_post p).1
                (window_labels (values (dropna r)) th w_pre w_post p).2
              = Some k) as Hpos.
  { intros k ts Hin.
    destruct (bucket_position r _ _ _ _ _ m k ts Hres Hin)
      as (th & p & _ & H1 & H2 & _ & Hpat).
    exists th, p. unfold values. rewrite length_fmap.
    repeat split; [lia..|]. unfold pattern_at in Hpat.
    by destruct (turn_at _ _ _). }
  split.
  - intros Hw.
    assert (∀ k ts, ts ∈ bucket m k →
              k ≠ "down_turn_flat"%string ∧ k ≠ "up_turn_flat"%string) as Hk.
    { intros k ts (th & p & H1 & H2 & Hpat)%Hpos.
      unfold window_labels in Hpat. cbn [fst snd] in Hpat.
      rewrite (windows_clipped_pre (values (dropna r)) w_pre p H2 Hw),
        mean_nil, trend_label_NaN in Hpat.
      destruct (trend_label _ _ _); simplify_eq/=; done. }
    split; apply no_elem_nil; intros ts Hin; by destruct (Hk _ _ Hin).
  - intros Hw.
    assert (∀ k ts, ts ∈ bucket m k →
              k ≠ "flat_turn_down"%string ∧ k ≠ "flat_turn_up"%string) as Hk.
    { intros k ts (th & p & H1 & H2 & Hpat)%Hpos.
      unfold window_labels in Hpat. cbn [fst snd] in Hpat.
      rewrite (windows_clipped_post (values (dropna r)) w_post p H2),
        mean_nil, trend_label_NaN in Hpat by lia.
      destruct (trend_label _ _ _); simplify_eq/=; done. }
    split; apply no_elem_nil; intros ts Hin; by destruct (Hk _ _ Hin).
Qed.

End TurnCounts.

(** ** The turn-pattern detector under a change of scale *)

Lemma fsim_isna (c : Q) (x x' : float) : fsim c x x' → isna x' = isna x.
Proof. by destruct x, x'. Qed.

Lemma fsim_fsub (c : Q) (x x' y y' : float) :
  fsim c x x' → fsim c y y' → fsim c (fsub x y) (fsub x' y').
Proof.
  destruct x, x', y, y'; cbn; try done. intros -> ->. ring.
Qed.

Lemma fsim_fabs (c : Q) (x x' : float) :
  fsim c x x' → fsim (Qabs c) (fabs x) (fabs x').
Proof.
  destruct x, x'; cbn; try done. intros ->. apply Qabs_Qmult.
Qed.

Lemma fsim_diff (c : Q) (g g' : list float) :
  Forall2 (fsim c) g g' → Forall2 (fsim c) (diff g) (diff g').
Proof.
  unfold diff. intros Hg.
  assert (Forall2 (fsim c) (NaN :: g) (NaN :: g')) as Hs by (by constructor).
  revert Hs. generalize (NaN :: g) (NaN :: g').
  induction Hg as [|x x' g g' Hx Hg IH]; intros s s' Hs; [constructor|].
  destruct Hs as [|y y' s s' Hy Hs]; [constructor|].
  cbn [zip_with]. constructor; [by apply fsim_fsub | by apply IH].
Qed.

Lemma fsim_fmap_fabs (c : Q) (s s' : list float) :
  Forall2 (fsim c) s s' → Forall2 (fsim (Qabs c)) (fabs <$> s) (fabs <$> s').
Proof.
  induction 1; cbn [fmap list_fmap]; constructor; [by apply fsim_fabs | done].
Qed.

Lemma fsim_filter_notna (c : Q) (s s' : list float) :
  Forall2 (fsim c) s s' →
  Forall2 (fsim c) (List.filter notna s) (List.filter notna s').
Proof.
  induction 1 as [|x x' s s' Hx Hs IH]; [constructor|].
  cbn [List.filter]. unfold notna. rewrite (fsim_isna c x x' Hx).
  destruct (isna x); cbn [negb]; [done | by constructor].
Qed.

Lemma fsim_existsb_notna (c : Q) (s s' : list float) :
  Forall2 (fsim c) s s' → existsb notna s' = existsb notna s.
Proof.
  induction 1 as [|x x' s s' Hx Hs IH]; [done|].
  cbn [existsb]. unfold notna at 1 3. by rewrite (fsim_isna c x x' Hx), IH.
Qed.

Lemma fsim_valid (c : Q) (s s' : list float) :
  Forall2 (fsim c) s s' →
  Forall2 (λ a a', a' == c * a)%Q (valid s) (valid s').
Proof.
  unfold valid. induction 1 as [|[a|] [a'|] s s' Hx Hs IH]; try done.
  cbn [omap list_omap id]. by constructor.
Qed.

(** The order of two numbers is the order of their multiples by [c > 0]. *)
Lemma scaled_Qle_bool (c a a' b b' : Q) :
  (0 < c)%Q → (a' == c * a)%Q → (b' == c * b)%Q →
  Qle_bool a' b' = Qle_bool a b.
Proof.
  intros Hc Ha Hb. rewrite (Qleb_comp _ _ Ha _ _ Hb).
  destruct (Qle_bool a b) eqn:E; Qbools.
  - apply Qle_bool_iff. nra.
  - apply not_true_iff_false. rewrite Qle_bool_iff. intros H. nra.
Qed.

Lemma scaled_insert_sorted (c x x' : Q) (l l' : list Q) :
  (0 < c)%Q → (x' == c * x)%Q →
  Forall2 (λ a a', a' == c * a)%Q l l' →
  Forall2 (λ a a', a' == c * a)%Q (insert_sorted x l) (insert_sorted x' l').
Proof.
  intros Hc Hx. induction 1 as [|y y' l l' Hy Hl IH]; cbn [insert_sorted].
  - by repeat constructor.
  - rewrite (scaled_Qle_bool c x x' y y') by done.
    destruct (Qle_bool x y); repeat (constructor; try done).
Qed.

Lemma scaled_sort_values (c : Q) (l l' : list Q) :
  (0 < c)%Q → Forall2 (λ a a', a' == c * a)%Q l l' →
  Forall2 (λ a a', a' == c * a)%Q (sort_values l) (sort_values l').
Proof.
  intros Hc. induction 1 as [|x x' l l' Hx Hl IH]; [constructor|].
  by apply (scaled_insert_sorted c).
Qed.

Lemma scaled_percentile_linear (c : Q) (xs xs' : list Q) (q : Q) :
  (0 < c)%Q → Forall2 (λ a a', a' == c * a)%Q xs xs' →
  fsim c (percentile_linear xs q) (percentile_linear xs' q).
Proof.
  intros Hc Hxs. pose proof (scaled_sort_values c xs xs' Hc Hxs) as Hs.
  unfold percentile_linear. rewrite <- (Forall2_length _ _ _ Hxs).
  set (lo := Z.to_nat _). set (hi := Z.to_nat _).
  destruct (sort_values xs !! lo) as [a|] eqn:Ea.
  - destruct (Forall2_lookup_l _ _ _ lo a Hs Ea) as (a' & -> & Ha).
    destruct (sort_values xs !! hi) as [b|] eqn:Eb.
    + destruct (Forall2_lookup_l _ _ _ hi b Hs Eb) as (b' & -> & Hb).
      cbn. unfold lerp. rewrite Ha, Hb. ring.
    + apply lookup_ge_None in Eb. rewrite (Forall2_length _ _ _ Hs) in Eb.
      apply lookup_ge_None in Eb. by rewrite Eb.
  - apply lookup_ge_None in Ea. rewrite (Forall2_length _ _ _ Hs) in Ea.
    apply lookup_ge_None in Ea. by rewrite Ea.
Qed.

(** Two quantile calls on a column and its multiple: the same exception,
    or a number and its multiple. *)
Lemma scaled_quantile (c : Q) (s s' : list float) (q : Q) :
  (0 < c)%Q → Forall2 (fsim c) s s' →
  match quantile s q, quantile s' q with
  | Ok x, Ok x' => fsim c x x'
  | Raise e, Raise e' => e = e'
  | _, _ => False
  end.
Proof.
  intros Hc Hs. unfold quantile.
  destruct (validate_percentile q); cbn; [|done].
  by apply scaled_percentile_linear, fsim_valid.
Qed.

Lemma fsim_Qeq (c c' : Q) (x x' : float) :
  (c == c')%Q → fsim c x x' → fsim c' x x'.
Proof. intros Hc. destruct x, x'; cbn; try done. intros ->. by rewrite Hc. Qed.

Lemma fsim_fneg (c : Q) (x x' : float) :
  fsim c x x' → fsim c (fneg x) (fneg x').
Proof. destruct x, x'; cbn; try done. intros ->. ring. Qed.

Lemma fsim_fle (k : Q) (x x' y y' : float) :
  (0 < k)%Q → fsim k x x' → fsim k y y' → fle x' y' = fle x y.
Proof.
  intros Hk. destruct x, x', y, y'; cbn; try done. intros Hx Hy.
  by apply (scaled_Qle_bool k).
Qed.

Lemma fsim_pymax (k : Q) (x x' y y' : float) :
  (0 < k)%Q → fsim k x x' → fsim k y y' → fsim k (pymax x y) (pymax x' y').
Proof.
  intros Hk Hx Hy. unfold pymax, fgt.
  assert (flt x' y' = flt x y) as ->.
  { destruct x, x', y, y'; cbn in *; try done. unfold Qltb.
    by rewrite (scaled_Qle_bool k _ _ _ _ Hk Hy Hx). }
  by destruct (flt x y).
Qed.

Lemma Qabs_pos_lt (c : Q) : ¬ (c == 0)%Q → (0 < Qabs c)%Q.
Proof. intros Hc. destruct (Qabs_cases c) as [[? ->]|[? ->]]; lra. Qed.

(** The thresholds of a multiple of the series are the multiples, by the
    absolute value of the factor, of its thresholds. *)
Lemma scaled_derive_thresholds (c : Q) (g g' : list float)
    (q_h q_flat q_trend : Q) :
  ¬ (c == 0)%Q → Forall2 (fsim c) g g' →
  match derive_thresholds g (diff g) q_h q_flat q_trend,
        derive_thresholds g' (diff g') q_h q_flat q_trend with
  | Ok th, Ok th' => th_sim (Qabs c) th th'
  | Raise e, Raise e' => e = e'
  | _, _ => False
  end.
Proof.
  intros Hc Hg. pose proof (Qabs_pos_lt c Hc) as Hk.
  pose proof (fsim_diff c g g' Hg) as Hh.
  pose proof (fsim_filter_notna _ _ _ (fsim_fmap_fabs c g g' Hg)) as Ha.
  unfold derive_thresholds.
  rewrite (fsim_existsb_notna c _ _ Hh), <- (Forall2_length _ _ _ Ha).
  pose proof (scaled_quantile (Qabs c) _ _ q_h Hk (fsim_fmap_fabs c _ _ Hh))
    as Hqh.
  pose proof (scaled_quantile (Qabs c) _ _ q_flat Hk Ha) as Hqf.
  pose proof (scaled_quantile (Qabs c) _ _ q_trend Hk Ha) as Hqt.
  assert (fsim (Qabs c) (Some 0%Q) (Some 0%Q)) as H0 by (cbn; ring).
  assert (∀ x x', fsim (Qabs c) x x' →
            fsim (Qabs c) (fmul x (Some 1.1%Q)) (fmul x' (Some 1.1%Q))) as Hm.
  { intros [x|] [x'|]; cbn; try done. intros ->. ring. }
  destruct (existsb notna (diff g)).
  - destruct (quantile (fabs <$> diff g) q_h) as [xh|],
      (quantile (fabs <$> diff g') q_h) as [xh'|]; try done; cbn.
    destruct (bool_decide _); cbn.
    + destruct (quantile _ q_flat) as [xf|], (quantile _ q_flat) as [xf'|];
        try done; cbn.
      destruct (quantile _ q_trend) as [xt|], (quantile _ q_trend) as [xt'|];
        try done; cbn.
      repeat split; [done..|].
      apply fsim_pymax; [done | auto | first [by auto | cbn; ring]].
    + repeat split; [done..|].
      apply fsim_pymax; [done | auto | first [by auto | cbn; ring]].
  - cbn. destruct (bool_decide _); cbn.
    + destruct (quantile _ q_flat) as [xf|], (quantile _ q_flat) as [xf'|];
        try done; cbn.
      destruct (quantile _ q_trend) as [xt|], (quantile _ q_trend) as [xt'|];
        try done; cbn.
      repeat split; [done..|].
      apply fsim_pymax; [done | auto | first [by auto | cbn; ring]].
    + repeat split; [done..|].
      apply fsim_pymax; [done | auto | first [by auto | cbn; ring]].
Qed.

Lemma scaled_Qsum (c : Q) (xs xs' : list Q) :
  Forall2 (λ a a', a' == c * a)%Q xs xs' → (Qsum xs' == c * Qsum xs)%Q.
Proof.
  induction 1 as [|x x' xs xs' Hx _ IH]; [cbn; ring|].
  change (x' + Qsum xs' == c * (x + Qsum xs))%Q. rewrite Hx, IH. ring.
Qed.

Lemma fsim_mean (c : Q) (w w' : list float) :
  Forall2 (fsim c) w w' → fsim c (mean w) (mean w').
Proof.
  intros Hw. apply fsim_valid in Hw. unfold mean.
  pose proof (scaled_Qsum c _ _ Hw) as Hsum.
  pose proof (Forall2_length _ _ _ Hw) as Hlen.
  destruct (valid w) as [|x xs], (valid w') as [|x' xs']; try done.
  cbv beta iota delta [fsim]. rewrite Hsum, Hlen. unfold Qdiv. ring.
Qed.

Lemma fsim_iloc_slice (c : Q) (g g' : list float) (start stop : Z) :
  Forall2 (fsim c) g g' →
  Forall2 (fsim c) (iloc_slice g start stop) (iloc_slice g' start stop).
Proof.
  intros Hg. unfold iloc_slice. rewrite <- (Forall2_length _ _ _ Hg).
  by apply Forall2_take, Forall2_drop.
Qed.

Lemma scaled_turn_cond (c : Q) (th th' : thresholds)
    (a a' b b' h h' : float) :
  ¬ (c == 0)%Q → th_sim (Qabs c) th th' →
  fsim c a a' → fsim c b b' → fsim c h h' →
  turn_cond th' a' b' h' = turn_cond th a b h.
Proof.
  intros Hc (Hh & _ & _) Ha Hb Hx. pose proof (Qabs_pos_lt c Hc) as Hk.
  unfold turn_cond. f_equal.
  - apply (fsim_fle (c * c)); [nra| |cbn; ring].
    destruct a, a', b, b'; cbn in *; try done. rewrite Ha, Hb. ring.
  - apply fsim_fabs in Hx.
    destruct (th_h th), (th_h th'); try done.
    by apply (fsim_fle (Qabs c)).
Qed.

Lemma scaled_turn_at (c : Q) (th th' : thresholds) (g g' : list float)
    (p : nat) :
  ¬ (c == 0)%Q → th_sim (Qabs c) th th' → Forall2 (fsim c) g g' →
  turn_at g' th' p = turn_at g th p.
Proof.
  intros Hc Hth Hg. pose proof (fsim_diff c g g' Hg) as Hh.
  unfold turn_at.
  assert (∀ (s s' : list float) i, Forall2 (fsim c) s s' →
            match s !! i, s' !! i with
            | Some x, Some x' => fsim c x x'
            | None, None => True
            | _, _ => False
            end) as Hlk.
  { intros s s' i Hs. destruct (s !! i) as [x|] eqn:E.
    - by destruct (Forall2_lookup_l _ _ _ i x Hs E) as (x' & -> & ?).
    - apply lookup_ge_None in E. rewrite (Forall2_length _ _ _ Hs) in E.
      apply lookup_ge_None in E. by rewrite E. }
  pose proof (Hlk g g' (p - 1) Hg) as H1.
  pose proof (Hlk g g' p Hg) as H2.
  pose proof (Hlk _ _ p Hh) as H3.
  destruct (g !! (p - 1)) as [a|], (g' !! (p - 1)) as [a'|]; try done.
  destruct (g !! p) as [b|], (g' !! p) as [b'|]; try done.
  destruct (diff g !! p) as [x|], (diff g' !! p) as [x'|]; try done.
  rewrite (fsim_isna c a a'), (fsim_isna c b b'), (fsim_isna c x x') by done.
  f_equal. by apply (scaled_turn_cond c).
Qed.

Lemma scaled_trend_label (c : Q) (f f' t t' mu mu' : float) :
  (0 < c)%Q → fsim c f f' → fsim c t t' → fsim c mu mu' →
  trend_label f' t' mu' = trend_label f t mu.
Proof.
  intros Hc Hf Ht Hmu. unfold trend_label, fge.
  rewrite (fsim_fle c (fabs mu) (fabs mu') f f' Hc); [| |done].
  - rewrite (fsim_fle c t t' mu mu' Hc) by done.
    by rewrite (fsim_fle c mu mu' (fneg t) (fneg t') Hc)
      by (done || by apply fsim_fneg).
  - eapply fsim_Qeq; [|by apply fsim_fabs]. apply Qabs_pos. lra.
Qed.

Lemma pattern_of_mirror (a b : trend) :
  pattern_of (mirror a) (mirror b) = mirror_name <$> pattern_of a b.
Proof. by destruct a, b. Qed.

Lemma mirror_name_involutive (k : string) : mirror_name (mirror_name k) = k.
Proof. unfold mirror_name. repeat case_decide; by simplify_eq. Qed.

Lemma mirror_name_Some (x : option string) (k : string) :
  mirror_name <$> x = Some k ↔ x = Some (mirror_name k).
Proof.
  destruct x as [k'|]; cbn; [|done].
  split; [intros [= <-] | intros [= ->]]; f_equal;
    by rewrite mirror_name_involutive.
Qed.

Lemma scaled_pattern_at_neg (c f t : Q) (th th' : thresholds)
    (g g' : list float) (w_pre w_post : Z) (p : nat) :
  (c < 0)%Q → th_sim (Qabs c) th th' →
  th_flat th = Some f → th_trend th = Some t → (0 <= f)%Q → (f <= t)%Q →
  Forall2 (fsim c) g g' →
  pattern_at g' th' w_pre w_post p
    = mirror_name <$> pattern_at g th w_pre w_post p.
Proof.
  intros Hc Hth Ef Et Hf0 Hft Hg. unfold pattern_at.
  rewrite (scaled_turn_at c th th' g g') by (done || lra).
  destruct (turn_at g th p); [|done].
  destruct Hth as (_ & Hf & Ht).
  assert (Qabs c == - c)%Q as Hk by (apply Qabs_neg; lra).
  apply (fsim_Qeq _ _ _ _ Hk) in Hf, Ht.
  assert (∀ mu mu', fsim c mu mu' →
            trend_label (th_flat th') (th_trend th') mu'
              = mirror (trend_label (th_flat th) (th_trend th) mu)) as Hl.
  { intros mu mu' Hmu.
    rewrite (scaled_trend_label (- c) (th_flat th) (th_flat th')
               (th_trend th) (th_trend th') (fneg mu) mu'); [|lra|done..|].
    - rewrite Ef, Et. by apply trend_label_mirror.
    - destruct mu, mu'; cbn in *; try done. rewrite Hmu. ring. }
  unfold window_labels, pre_window, post_window. cbn [fst snd].
  rewrite <- (Forall2_length _ _ _ Hg).
  rewrite (Hl (mean (iloc_slice g _ (Z.of_nat p))))
    by (by apply fsim_mean, fsim_iloc_slice).
  rewrite (Hl (mean (iloc_slice g (Z.of_nat p + 1) _)))
    by (by apply fsim_mean, fsim_iloc_slice).
  apply pattern_of_mirror.
Qed.

Section TurnScale.

Context {T : Type}.
Implicit Types r : list (T * float).

Lemma index_rescale (c d : Q) r : index (rescale c d r) = index r.
Proof.
  unfold index, rescale. rewrite <- list_fmap_compose.
  by apply list_fmap_ext.
Qed.

Lemma length_rescale (c d : Q) r : length (rescale c d r) = length r.
Proof. unfold rescale. apply length_fmap. Qed.

Lemma values_rescale_fsim (c : Q) r :
  Forall2 (fsim c) (values r) (values (rescale c 0 r)).
Proof.
  unfold values, rescale. induction r as [|[t [v|]] r IH];
    cbn [fmap list_fmap]; constructor; try done. cbn. ring.
Qed.

Lemma rescale_clean (c d : Q) r :
  Forall (λ p : T * float, is_Some p.2) (rescale c d (dropna r)).
Proof. rewrite <- dropna_rescale. apply dropna_notna. Qed.


End TurnScale.

(** ** The turn-pattern detector and the quantile of the steps *)

Lemma filter_sublist_impl {A : Type} (P1 P2 : A → Prop)
    `{!∀ x, Decision (P1 x)} `{!∀ x, Decision (P2 x)} (l : list A) :
  (∀ x, P2 x → P1 x) → filter P2 l `sublist_of` filter P1 l.
Proof.
  intros Himp. induction l as [|x l IH]; [done|]. rewrite !filter_cons.
  destruct (decide (P2 x)) as [H2|H2].
  - rewrite decide_True by auto. by constructor.
  - destruct (decide (P1 x)); [by constructor | done].
Qed.

Lemma omap_sublist {A B : Type} (f : A → option B) (l1 l2 : list A) :
  l1 `sublist_of` l2 → omap f l1 `sublist_of` omap f l2.
Proof.
  induction 1 as [|x l1 l2 _ IH|x l1 l2 _ IH]; cbn [omap list_omap].
  - done.
  - destruct (f x); [by constructor | done].
  - destruct (f x); [by constructor | done].
Qed.

(** A higher [q_h] gives the same [th_flat] and [th_trend] and a [th_h]
    that is not lower. *)
Lemma derive_thresholds_q_h_mono (g h : list float)
    (q_h1 q_h2 q_flat q_trend : Q) (th1 th2 : thresholds) :
  (q_h1 <= q_h2)%Q →
  derive_thresholds g h q_h1 q_flat q_trend = Ok th1 →
  derive_thresholds g h q_h2 q_flat q_trend = Ok th2 →
  th_flat th2 = th_flat th1 ∧ th_trend th2 = th_trend th1 ∧
  match th_h th1, th_h th2 with
  | Finite (Some x1), Finite (Some x2) => (x1 <= x2)%Q
  | np_inf, np_inf => True
  | _, _ => False
  end.
Proof.
  intros Hq. unfold derive_thresholds.
  destruct (existsb notna h) eqn:Hex.
  - destruct (quantile (fabs <$> h) q_h1) as [x1|] eqn:E1; [|done].
    destruct (quantile (fabs <$> h) q_h2) as [x2|] eqn:E2; [|done].
    apply quantile_inv in E1 as (H0 & _ & ->), E2 as (_ & H1 & ->).
    apply existsb_notna_valid in Hex.
    destruct (percentile_linear_mono (valid (fabs <$> h)) q_h1 q_h2)
      as (t1 & t2 & -> & -> & Hle); [|done..|].
    { rewrite valid_fabs. by destruct (valid h). }
    cbn [mbind result_bind]. destruct (bool_decide _);
      [ destruct (quantile _ q_flat) as [xf|]; cbn [mbind result_bind];
          [|by intros [=]];
        destruct (quantile _ q_trend) as [xt|]; cbn [mbind result_bind];
          [|by intros [=]] | ];
      cbn; by intros [= <-] [= <-].
  - cbn [mbind result_bind]. destruct (bool_decide _);
      [ destruct (quantile _ q_flat) as [xf|]; cbn [mbind result_bind];
          [|by intros [=]];
        destruct (quantile _ q_trend) as [xt|]; cbn [mbind result_bind];
          [|by intros [=]] | ];
      cbn; by intros [= <-] [= <-].
Qed.

Lemma pattern_at_q_h_mono (g : list float) (th1 th2 : thresholds)
    (w_pre w_post : Z) (p : nat) (k : string) :
  th_flat th2 = th_flat th1 → th_trend th2 = th_trend th1 →
  match th_h th1, th_h th2 with
  | Finite (Some x1), Finite (Some x2) => (x1 <= x2)%Q
  | np_inf, np_inf => True
  | _, _ => False
  end →
  pattern_at g th2 w_pre w_post p = Some k →
  pattern_at g th1 w_pre w_post p = Some k.
Proof.
  intros Hf Ht Hh. unfold pattern_at, window_labels. rewrite Hf, Ht.
  assert (turn_at g th2 p = true → turn_at g th1 p = true) as Hturn.
  { unfold turn_at, turn_cond.
    destruct (g !! (p - 1)) as [a|]; [|done].
    destruct (g !! p) as [b|]; [|done].
    destruct (diff g !! p) as [x|]; [|done].
    rewrite !andb_true_iff. intros (Hna & Hsign & Hstep).
    repeat split; [done..|].
    destruct (th_h th1) as [[x1|]|], (th_h th2) as [[x2|]|]; try done.
    destruct (fabs x) as [y|]; [|done]. cbn in *. Qbools.
    apply Qle_bool_iff. lra. }
  destruct (turn_at g th2 p); [|done]. by rewrite Hturn.
Qed.

Section TurnStepQuantile.

Context {T : Type}.
Implicit Types r : list (T * float).


End TurnStepQuantile.

(** ** The further properties on concrete series *)

Lemma jump_mirrored_result :
  detect_type2_turn_patterns jump_mirrored 3 3 0.9 0.2 0.7
    = Ok {["flat_turn_down"%string := [14]]}.
Proof. vm_compute. reflexivity. Qed.

Lemma jump_narrow_result :
  detect_type2_turn_patterns jump 0 3 0.9 0.2 0.7
    = Ok {["flat_turn_up"%string := [14]]}.
Proof. vm_compute. reflexivity. Qed.


Lemma trend_label_sign_example :
  (trend_label (Some 4.8%Q) (Some 39.8%Q) (Some 102%Q) = up ↔
     ∃ x : Q, Some 102%Q = Some x ∧ (39.8 <= x)%Q ∧ (4.8 < x)%Q) ∧
  (trend_label (Some 4.8%Q) (Some 39.8%Q) (Some 102%Q) = down ↔
     ∃ x : Q, Some 102%Q = Some x ∧ (x <= - 39.8)%Q ∧ (x < - 4.8)%Q) ∧
  trend_label (Some 4.8%Q) (Some 39.8%Q) (fneg (Some 102%Q))
    = mirror (trend_label (Some 4.8%Q) (Some 39.8%Q) (Some 102%Q)).
Proof. apply trend_label_sign; done. Defined.


Lemma spike_up_raises_scenario1 :
  detect_type1_spike_up scenario1 2 = Raise ValueError.
Proof.
  apply spike_up_raises. split; [done|]. split; [vm_compute; lia|].
  by intros [_ ?].
Defined.



Lemma spike_up_permutation_scenario1 :
  ∃ l1 l2 : list nat,
    detect_type1_spike_up scenario1 0.99 = Ok l1 ∧
    detect_type1_spike_up (reverse scenario1) 0.99 = Ok l2 ∧ l1 ≡ₚ l2.
Proof.
  assert (detect_type1_spike_up (reverse scenario1) 0.99 = Ok [6]) as E2
    by (vm_compute; reflexivity).
  pose proof (spike_up_permutation scenario1 (reverse scenario1) 0.99
                (Permutation_sym (reverse_Permutation scenario1))) as H.
  rewrite scenario1_result, E2 in H. by exists [6], [6].
Defined.

Lemma turn_patterns_count_jump :
  length (bucket ({["flat_turn_up"%string := [14]]} : gmap string (list nat))
            "down_turn_flat") +
  length (bucket ({["flat_turn_up"%string := [14]]} : gmap string (list nat))
            "flat_turn_down") +
  length (bucket ({["flat_turn_up"%string := [14]]} : gmap string (list nat))
            "flat_turn_up") +
  length (bucket ({["flat_turn_up"%string := [14]]} : gmap string (list nat))
            "up_turn_flat")
    ≤ length (dropna jump) - 2.
Proof. exact (turn_patterns_count jump 3 3 0.9 0.2 0.7 _ jump_result). Defined.

Lemma windows_clipped_jump :
  pre_window (values jump) 3 1 = drop (1 - Z.to_nat 3) (take 1 (values jump)) ∧
  ((0 ≤ Z.of_nat 1 + 1 + -3)%Z →
   post_window (values jump) (-3) 1
     = take (Z.to_nat (-3)) (drop 2 (values jump))) ∧
  ((Z.of_nat 1 + 1 + -3 < 0)%Z →
   post_window (values jump) (-3) 1
     = take (Z.to_nat (Z.of_nat (length (values jump)) + -3))
         (drop 2 (values jump))).
Proof. apply (windows_clipped (values jump) 3 (-3) 1). vm_compute. lia. Defined.

Lemma turn_patterns_empty_windows_jump :
  bucket ({["flat_turn_up"%string := [14]]} : gmap string (list nat))
    "down_turn_flat" = [] ∧
  bucket ({["flat_turn_up"%string := [14]]} : gmap string (list nat))
    "up_turn_flat" = [].
Proof.
  destruct (turn_patterns_empty_windows jump 0 3 0.9 0.2 0.7 _
              jump_narrow_result) as [Hpre _].
  apply Hpre. lia.
Defined.


Lemma jump_median_result :
  detect_type2_turn_patterns jump 3 3 0.5 0.2 0.7
    = Ok {["flat_turn_up"%string := [14]]}.
Proof. vm_compute. reflexivity. Qed.


(** * Properties of the source in double arithmetic *)

(** ** Rounding: what a rounded result can be *)

Lemma iter_pos_invariant {A : Type} (P : A → Prop) (f : A → A) (n : positive)
    (x : A) :
  (∀ y, P y → P (f y)) → P x → P (SpecFloat.iter_pos f n x).
Proof.
  intros Hf. revert x. induction n as [n IH|n IH|]; intros x Hx; simpl; auto.
Qed.

(** Shifting a mantissa to the right keeps it nonnegative. *)
Lemma shr_1_nonneg (r : shr_record) : (0 <= shr_m r)%Z → (0 <= shr_m (shr_1 r))%Z.
Proof. destruct r as [[|[p|p|]|p] b s]; simpl; lia. Qed.

Lemma shr_nonneg (r : shr_record) (e n : Z) :
  (0 <= shr_m r)%Z → (0 <= shr_m (shr r e n).1)%Z.
Proof.
  intros Hr. destruct n as [|p|p]; simpl; [done| |done].
  by apply iter_pos_invariant; [apply shr_1_nonneg|].
Qed.

Lemma shr_record_of_loc_m (m : Z) (l : location) :
  shr_m (shr_record_of_loc m l) = m.
Proof. by destruct l as [|[]]. Qed.

Lemma shr_fexp_nonneg (m e : Z) (l : location) :
  (0 <= m)%Z → (0 <= shr_m (shr_fexp F64.prec F64.emax m e l).1)%Z.
Proof.
  intros Hm. unfold shr_fexp. apply shr_nonneg. by rewrite shr_record_of_loc_m.
Qed.

Lemma round_nearest_even_nonneg (m : Z) (l : location) :
  (0 <= m)%Z → (0 <= round_nearest_even m l)%Z.
Proof. intros Hm. destruct l as [|[]]; simpl; try case_match; lia. Qed.

(** Rounding a nonnegative mantissa gives a zero, an infinity or a finite
    number of the sign asked for, never NaN. *)
Lemma binary_round_aux_shape (s : bool) (m e : Z) (l : location) :
  (0 <= m)%Z → F64.rounded_shape s (binary_round_aux F64.prec F64.emax s m e l).
Proof.
  intros Hm. unfold binary_round_aux.
  destruct (shr_fexp _ _ m e l) as [r1 e1] eqn:E1.
  pose proof (shr_fexp_nonneg m e l Hm) as H1. rewrite E1 in H1. simpl in H1.
  destruct (shr_fexp _ _ (round_nearest_even _ _) e1 loc_Exact) as [r2 e2] eqn:E2.
  pose proof (shr_fexp_nonneg _ e1 loc_Exact
                (round_nearest_even_nonneg _ (loc_of_shr_record r1) H1)) as H2.
  rewrite E2 in H2. simpl in H2.
  destruct (shr_m r2) as [|p|p]; [by left| |lia].
  destruct (_ <=? _)%Z; [right; right; eauto | right; by left].
Qed.

Lemma binary_round_shape (s : bool) (m : positive) (e : Z) :
  F64.rounded_shape s (binary_round F64.prec F64.emax s m e).
Proof.
  unfold binary_round. destruct (shl_align _ _ _) as [mz ez].
  by apply binary_round_aux_shape.
Qed.

Lemma rounded_shape_notna (s : bool) (x : spec_float) :
  F64.rounded_shape s x → F64.isna x = false.
Proof. by intros [->|[->|(m & e & ->)]]. Qed.

Lemma binary_normalize_notna (m e : Z) (s : bool) :
  F64.isna (binary_normalize F64.prec F64.emax m e s) = false.
Proof.
  destruct m as [|p|p]; simpl; [done|..];
    eapply rounded_shape_notna, binary_round_shape.
Qed.

(** The difference of two finite doubles is defined (it can overflow to an
    infinity, it is never NaN). *)
Lemma f64_fsub_finite_notna (x y : spec_float) :
  F64.is_finite x = true → F64.is_finite y = true → F64.isna (F64.fsub x y) = false.
Proof.
  destruct x as [sx|sx| |sx mx ex], y as [sy|sy| |sy my ey]; try done;
    intros _ _.
  - by destruct sx, sy.
  - unfold F64.fsub, SFsub. apply binary_normalize_notna.
Qed.

(** ** Digits and shifts *)

Lemma digits2_pos_size (p : positive) : digits2_pos p = Pos.size p.
Proof. induction p as [p IH|p IH|]; simpl; by rewrite ?IH. Qed.

Lemma Zdigits2_log2 (p : positive) :
  Zdigits2 (Zpos p) = (Z.log2 (Zpos p) + 1)%Z.
Proof.
  destruct p as [p|p|]; simpl; [..|done];
    rewrite digits2_pos_size; lia.
Qed.

Lemma shr_1_div2 (r : shr_record) :
  (0 <= shr_m r)%Z → shr_m (shr_1 r) = (shr_m r / 2)%Z.
Proof.
  intros Hr. rewrite <- Z.div2_div.
  destruct r as [[|[p|p|]|p] b s]; simpl in *; try done; lia.
Qed.

(** Shifting by [p] bits divides the mantissa by [2 ^ p]. *)
Lemma iter_shr_1_div (p : positive) (r : shr_record) :
  (0 <= shr_m r)%Z →
  shr_m (SpecFloat.iter_pos shr_1 p r) = (shr_m r / 2 ^ Zpos p)%Z.
Proof.
  assert (∀ (q : positive) r', (0 <= shr_m r')%Z →
            (0 <= shr_m (SpecFloat.iter_pos shr_1 q r'))%Z) as Hnn.
  { intros q r' Hr'. by apply iter_pos_invariant; [apply shr_1_nonneg|]. }
  assert (0 < 2 ^ Zpos p)%Z as Hpow by (apply Z.pow_pos_nonneg; lia).
  clear Hpow.
  revert r. induction p as [p IH|p IH|]; intros r Hr; simpl.
  - assert (0 < 2 ^ Zpos p)%Z as Hpow by (apply Z.pow_pos_nonneg; lia).
    rewrite IH, IH, shr_1_div2 by auto using shr_1_nonneg.
    rewrite !Z.div_div by lia. f_equal.
    replace (Zpos p~1) with (Zpos p + Zpos p + 1)%Z by lia.
    rewrite !Z.pow_add_r by lia. ring.
  - assert (0 < 2 ^ Zpos p)%Z as Hpow by (apply Z.pow_pos_nonneg; lia).
    rewrite IH, IH by auto. rewrite !Z.div_div by lia. f_equal.
    replace (Zpos p~0) with (Zpos p + Zpos p)%Z by lia.
    by rewrite !Z.pow_add_r by lia.
  - by rewrite shr_1_div2, Z.pow_1_r.
Qed.

(** ** Products that do not underflow *)

(** Above the underflow threshold the mantissa stays positive through the
    two shifts and the rounding between them. *)
Lemma shr_fexp_above (m e : Z) (l : location) :
  F64.above_underflow m e →
  F64.above_underflow (shr_m (shr_fexp F64.prec F64.emax m e l).1)
                  (shr_fexp F64.prec F64.emax m e l).2.
Proof.
  intros [Hm He]. destruct m as [|p|p]; [lia| |lia].
  unfold shr_fexp, fexp, emin, F64.prec, F64.emax.
  rewrite Zdigits2_log2.
  set (d := Z.log2 (Zpos p)) in *.
  replace (Z.max (d + 1 + e - 53) (3 - 1024 - 53) - e)%Z with (d - 52)%Z by lia.
  destruct (d - 52)%Z as [|q|q] eqn:Hq; simpl;
    rewrite ?shr_record_of_loc_m; [by split | | by split].
  rewrite iter_shr_1_div by (rewrite shr_record_of_loc_m; lia).
  rewrite shr_record_of_loc_m.
  assert (0 < 2 ^ Zpos q)%Z as Hpow by (apply Z.pow_pos_nonneg; lia).
  assert (2 ^ 52 <= Zpos p / 2 ^ Zpos q)%Z as Hlow.
  { apply Z.div_le_lower_bound; [done|].
    rewrite <- Z.pow_add_r by lia. replace (Zpos q + 52)%Z with d by lia.
    apply Z.log2_spec. lia. }
  split; [lia|].
  apply Z.log2_le_mono in Hlow. rewrite Z.log2_pow2 in Hlow by lia. lia.
Qed.

Lemma round_nearest_even_above (m e : Z) (l : location) :
  F64.above_underflow m e → F64.above_underflow (round_nearest_even m l) e.
Proof.
  intros [Hm He].
  assert (m <= round_nearest_even m l)%Z as Hle.
  { destruct l as [|[]]; simpl; try case_match; lia. }
  split; [lia|]. apply Z.log2_le_mono in Hle. lia.
Qed.

Lemma binary_round_aux_above (s : bool) (m e : Z) (l : location) :
  F64.above_underflow m e →
  binary_round_aux F64.prec F64.emax s m e l = S754_infinity s ∨
  ∃ m' e', binary_round_aux F64.prec F64.emax s m e l = S754_finite s m' e'.
Proof.
  intros Hab. unfold binary_round_aux.
  pose proof (shr_fexp_above m e l Hab) as H1.
  destruct (shr_fexp _ _ m e l) as [r1 e1]. simpl in H1.
  apply (round_nearest_even_above _ _ (loc_of_shr_record r1)) in H1.
  pose proof (shr_fexp_above _ _ loc_Exact H1) as [H2 _].
  destruct (shr_fexp _ _ (round_nearest_even _ _) e1 loc_Exact) as [r2 e2].
  simpl in H2. destruct (shr_m r2) as [|p|p]; [lia| |lia].
  destruct (_ <=? _)%Z; eauto.
Qed.

(** A well-formed double of magnitude at least [2 ^ -511] is normal, with
    an exponent of at least [-563]. *)
Lemma f64_safe_magnitude_finite (s : bool) (m : positive) (e : Z) :
  F64.well_formed (S754_finite s m e) = true →
  F64.fle F64.safe_magnitude (S754_finite false m e) = true →
  (-563 <= e)%Z ∧ Z.log2 (Zpos m) = 52%Z.
Proof.
  unfold F64.well_formed, valid_binary, bounded, canonical_mantissa, fexp, emin, F64.prec,
    F64.emax, F64.fle, SFleb, F64.safe_magnitude, SFcompare.
  rewrite andb_true_iff, Z.eqb_eq.
  change (Zpos (digits2_pos m)) with (Zdigits2 (Zpos m)).
  rewrite Zdigits2_log2. intros [Hc _] Hle.
  assert (-563 <= e)%Z as He.
  { destruct (Z.compare_spec (-563) e); [clear Hle; lia..|discriminate]. }
  clear Hle. split; [done|lia].
Qed.

Lemma f64_fmul_safe_finite (sx sy : bool) (mx my : positive) (ex ey : Z) :
  F64.well_formed (S754_finite sx mx ex) = true →
  F64.well_formed (S754_finite sy my ey) = true →
  F64.fle F64.safe_magnitude (S754_finite false mx ex) = true →
  F64.fle F64.safe_magnitude (S754_finite false my ey) = true →
  F64.above_underflow (Zpos (mx * my)) (ex + ey).
Proof.
  intros Hvx Hvy Hx Hy.
  destruct (f64_safe_magnitude_finite sx mx ex Hvx Hx) as [Hex Hmx].
  destruct (f64_safe_magnitude_finite sy my ey Hvy Hy) as [Hey Hmy].
  clear Hvx Hvy Hx Hy.
  split; [done|]. rewrite Pos2Z.inj_mul.
  pose proof (Z.log2_mul_below (Zpos mx) (Zpos my)) as Hlog. lia.
Qed.

(** A double at or below [-2 ^ -511] is the opposite of one at or above
    [2 ^ -511]. *)
Lemma f64_fle_neg_safe_magnitude (x : spec_float) :
  F64.fle x (F64.fneg F64.safe_magnitude) = true →
  F64.fle F64.safe_magnitude (F64.fneg x) = true.
Proof.
  unfold F64.safe_magnitude.
  destruct x as [[]|[]| |[] m e]; try done.
  cbv [F64.fle F64.fneg SFleb SFcompare SFopp negb].
  rewrite (Z.compare_antisym e), <- (Pos.compare_cont_antisym m _ Eq).
  by destruct (e ?= -563)%Z.
Qed.

(** What is at least [2 ^ -511]: plus infinity or a positive finite double. *)
Lemma f64_fle_safe_magnitude_inv (x : spec_float) :
  F64.fle F64.safe_magnitude x = true →
  x = S754_infinity false ∨ ∃ m e, x = S754_finite false m e.
Proof. unfold F64.safe_magnitude. destruct x as [[]|[]| |[] m e]; try done; eauto. Qed.

(** The product of two doubles of the same sign and of safe magnitude is
    strictly positive. *)
Lemma f64_fmul_safe_positive (x y : spec_float) :
  F64.well_formed x = true →
  F64.well_formed y = true →
  F64.fle F64.safe_magnitude x = true → F64.fle F64.safe_magnitude y = true →
  F64.fle (F64.fmul x y) (F64.of_Z 0) = false.
Proof.
  intros Hvx Hvy Hx Hy.
  destruct (f64_fle_safe_magnitude_inv x Hx) as [->|(mx & ex & ->)],
    (f64_fle_safe_magnitude_inv y Hy) as [->|(my & ey & ->)]; try done.
  unfold F64.fmul, SFmul.
  destruct (binary_round_aux_above (xorb false false) (Zpos (mx * my))
              (ex + ey) loc_Exact) as [->|(m' & e' & ->)];
    [by eapply f64_fmul_safe_finite | done..].
Qed.

Lemma well_formed_fneg (x : spec_float) :
  F64.well_formed (F64.fneg x) = F64.well_formed x.
Proof. by destruct x. Qed.

Lemma f64_fmul_fneg_fneg (x y : spec_float) :
  F64.fmul (F64.fneg x) (F64.fneg y) = F64.fmul x y.
Proof.
  destruct x as [sx|sx| |sx mx ex], y as [sy|sy| |sy my ey]; try done;
    unfold F64.fmul, F64.fneg, SFmul, SFopp; by destruct sx, sy.
Qed.

Lemma f64_fmul_same_sign_positive (x y : spec_float) :
  F64.well_formed x = true →
  F64.well_formed y = true →
  (F64.fle F64.safe_magnitude x = true ∧ F64.fle F64.safe_magnitude y = true) ∨
  (F64.fle x (F64.fneg F64.safe_magnitude) = true ∧
   F64.fle y (F64.fneg F64.safe_magnitude) = true) →
  F64.fle (F64.fmul x y) (F64.of_Z 0) = false.
Proof.
  intros Hvx Hvy [[Hx Hy]|[Hx Hy]]; [by apply f64_fmul_safe_positive|].
  rewrite <- f64_fmul_fneg_fneg.
  apply f64_fmul_safe_positive; rewrite ?well_formed_fneg;
    auto using f64_fle_neg_safe_magnitude.
Qed.

(** ** The order of doubles *)

Lemma SFcompare_antisym (x y : spec_float) :
  SFcompare y x = CompOpp <$> SFcompare x y.
Proof.
  destruct x as [sx|sx| |sx mx ex], y as [sy|sy| |sy my ey];
    try (by repeat match goal with s : bool |- _ => destruct s end).
  destruct sx, sy; try done; cbv [SFcompare fmap option_fmap option_map];
    change (Pos.compare_cont Eq ?a ?b) with (a ?= b)%positive;
    rewrite (Z.compare_antisym ex ey), (Pos.compare_antisym mx my);
    destruct (ex ?= ey)%Z; cbv [CompOpp]; try done;
    by destruct (mx ?= my)%positive.
Qed.

Lemma f64_fle_not_flt (x y : spec_float) :
  F64.fle x y = true → F64.flt y x = false.
Proof.
  unfold F64.fle, F64.flt, SFleb, SFltb. rewrite (SFcompare_antisym x y).
  by destruct (SFcompare x y) as [[]|].
Qed.

Lemma f64_fle_total (x y : spec_float) :
  F64.notna x = true → F64.notna y = true →
  F64.fle x y = false → F64.fle y x = true.
Proof.
  unfold F64.fle, SFleb. rewrite (SFcompare_antisym x y). intros Hx Hy.
  destruct (SFcompare x y) as [[]|] eqn:E; try done.
  by destruct x, y.
Qed.

Lemma f64_fle_notna (x y : spec_float) :
  F64.fle x y = true → F64.notna x = true ∧ F64.notna y = true.
Proof. by destruct x, y. Qed.

Lemma f64_flt_notna (x y : spec_float) :
  F64.flt x y = true → F64.notna x = true ∧ F64.notna y = true.
Proof. by destruct x, y. Qed.

Lemma f64_fle_trans (x y z : spec_float) :
  F64.fle x y = true → F64.fle y z = true → F64.fle x z = true.
Proof.
  destruct x as [sx|sx| |sx mx ex], y as [sy|sy| |sy my ey],
    z as [sz|sz| |sz mz ez];
    try (by repeat match goal with s : bool |- _ => destruct s end).
  destruct sx, sy, sz; try done;
    cbv [F64.fle SFleb SFcompare];
    change (Pos.compare_cont Eq ?a ?b) with (a ?= b)%positive;
    destruct (Z.compare_spec ex ey), (Z.compare_spec ey ez),
      (Z.compare_spec ex ez); try done; try lia; subst;
    destruct (Pos.compare_spec mx my), (Pos.compare_spec my mz),
      (Pos.compare_spec mx mz); try done; lia.
Qed.

(** ** Sorting *)

Lemma f64_insert_sorted_perm (x : spec_float) (l : list spec_float) :
  Permutation (F64.insert_sorted x l) (x :: l).
Proof.
  induction l as [|y l IH]; simpl; [done|].
  destruct (F64.fle x y); [done|]. rewrite IH. apply perm_swap.
Qed.

Lemma f64_sort_values_perm (l : list spec_float) :
  Permutation (F64.sort_values l) l.
Proof.
  unfold F64.sort_values. induction l as [|x l IH]; simpl; [done|].
  by rewrite f64_insert_sorted_perm, IH.
Qed.

Lemma f64_insert_sorted_StronglySorted (x : spec_float) (l : list spec_float) :
  F64.notna x = true → Forall (λ y, F64.notna y = true) l →
  StronglySorted (λ a b, F64.fle a b = true) l →
  StronglySorted (λ a b, F64.fle a b = true) (F64.insert_sorted x l).
Proof.
  intros Hx Hl Hs. induction Hs as [|y l Hs IH Hy]; simpl.
  - by repeat constructor.
  - apply Forall_cons in Hl as [Hny Hl].
    destruct (F64.fle x y) eqn:E.
    + constructor; [by constructor|]. constructor; [done|].
      eapply Forall_impl; [exact Hy|]. intros z Hz. by eapply f64_fle_trans.
    + constructor; [by apply IH|].
      rewrite f64_insert_sorted_perm. constructor; [|done].
      by apply f64_fle_total.
Qed.

Lemma f64_sort_values_StronglySorted (l : list spec_float) :
  Forall (λ y, F64.notna y = true) l →
  StronglySorted (λ a b, F64.fle a b = true) (F64.sort_values l).
Proof.
  unfold F64.sort_values. induction 1 as [|x l Hx Hl IH]; simpl; [constructor|].
  apply f64_insert_sorted_StronglySorted; [done| |done].
  fold (F64.sort_values l). by rewrite f64_sort_values_perm.
Qed.

Lemma f64_valid_notna (s : list spec_float) :
  Forall (λ y, F64.notna y = true) (F64.valid s).
Proof.
  unfold F64.valid. apply Forall_forall. intros y Hy.
  apply list_elem_of_In, filter_In in Hy. by destruct Hy.
Qed.

Lemma f64_sort_values_order_statistics (s : list spec_float) :
  F64.order_statistics (F64.valid s) (F64.sort_values (F64.valid s)).
Proof.
  split; [apply f64_sort_values_perm|].
  apply f64_sort_values_StronglySorted, f64_valid_notna.
Qed.

(** ** Missing values and comparisons *)

Lemma f64_fmul_notna (a b : spec_float) :
  F64.isna (F64.fmul a b) = false → F64.isna a = false ∧ F64.isna b = false.
Proof. destruct a, b; try done. Qed.

Lemma f64_fabs_notna (a : spec_float) : F64.isna (F64.fabs a) = F64.isna a.
Proof. by destruct a. Qed.

Lemma f64_fle_isna (x y : spec_float) :
  F64.fle x y = true → F64.isna x = false ∧ F64.isna y = false.
Proof. by destruct x, y. Qed.

Lemma f64_turn_cond_notna (th : F64.thresholds) (a b c : spec_float) :
  F64.turn_cond th a b c = true →
  F64.isna a = false ∧ F64.isna b = false ∧ F64.isna c = false.
Proof.
  unfold F64.turn_cond, F64.fge. rewrite andb_true_iff.
  intros [[H1 _]%f64_fle_isna [_ H2]%f64_fle_isna].
  apply f64_fmul_notna in H1 as [Ha Hb]. by rewrite f64_fabs_notna in H2.
Qed.

Lemma f64_validate_percentile_Ok (q : spec_float) :
  F64.valid_quantile q → F64.validate_percentile q = Ok ().
Proof. unfold F64.validate_percentile. by intros [-> ->]. Qed.

Lemma f64_validate_percentile_Raise (q : spec_float) :
  ¬ F64.valid_quantile q → F64.validate_percentile q = Raise ValueError.
Proof.
  unfold F64.validate_percentile, F64.valid_quantile. intros Hq.
  destruct (F64.fle (F64.of_Z 0) q), (F64.fle q (F64.of_Z 1)); try done.
  by destruct Hq.
Qed.

Lemma f64_quantile_Ok (s : list spec_float) (q : spec_float) :
  F64.valid_quantile q →
  F64.quantile s q =
    Ok (match F64.valid s with
        | [] => F64.NaN
        | xs => F64.percentile_linear xs (F64.fmul q (F64.of_Q 100))
        end).
Proof.
  intros Hq. unfold F64.quantile. rewrite f64_validate_percentile_Ok by done.
  cbn. by destruct (F64.valid s).
Qed.

Lemma f64_quantile_Raise (s : list spec_float) (q : spec_float) :
  ¬ F64.valid_quantile q → F64.quantile s q = Raise ValueError.
Proof.
  intros Hq. unfold F64.quantile. by rewrite f64_validate_percentile_Raise.
Qed.

Section F64Facts.

Context {T : Type}.
Implicit Types r : list (T * spec_float).

Lemma f64_dropna_notna r : Forall (λ p, F64.isna p.2 = false) (F64.dropna r).
Proof.
  unfold F64.dropna. apply Forall_forall. intros p Hp.
  apply list_elem_of_In, filter_In in Hp as [_ Hp].
  unfold F64.notna in Hp. by destruct (F64.isna p.2).
Qed.

Lemma f64_dropna_sublist r : F64.dropna r `sublist_of` r.
Proof.
  unfold F64.dropna. induction r as [|p r IH]; simpl; [done|].
  destruct (F64.notna p.2); by constructor.
Qed.

Lemma f64_index_functional r (t : T) (x y : spec_float) :
  NoDup (F64.index r) → (t, x) ∈ r → (t, y) ∈ r → x = y.
Proof.
  intros Hnd [i Hi]%list_elem_of_lookup [j Hj]%list_elem_of_lookup.
  assert (i = j) as ->; [|congruence].
  eapply NoDup_lookup; [exact Hnd|..]; unfold F64.index;
    rewrite list_lookup_fmap; [by rewrite Hi | by rewrite Hj].
Qed.

Lemma f64_valid_values_dropna r :
  F64.valid (F64.values (F64.dropna r)) = F64.valid (F64.values r).
Proof.
  unfold F64.valid, F64.values, F64.dropna.
  induction r as [|[t v] r IH]; simpl; [done|].
  destruct (F64.notna v) eqn:E; simpl; rewrite ?E; [f_equal|]; exact IH.
Qed.

Lemma f64_length_valid_values r :
  length (F64.valid (F64.values r)) = length (F64.dropna r).
Proof.
  unfold F64.valid, F64.values, F64.dropna.
  induction r as [|[t v] r IH]; simpl; [done|].
  destruct (F64.notna v) eqn:E; simpl; rewrite ?E; [f_equal|]; exact IH.
Qed.

(** The rows above a threshold are non-missing rows. *)
Lemma f64_index_where_gt_dropna r (th : spec_float) :
  F64.index_where_gt (F64.dropna r) th
    = F64.index (filter (λ p, F64.fgt p.2 th = true) r).
Proof.
  unfold F64.index_where_gt, F64.index, F64.dropna.
  induction r as [|[t v] r IH]; [done|].
  rewrite filter_cons. cbn [List.filter snd].
  destruct (F64.fgt v th) eqn:E.
  - destruct (f64_flt_notna _ _ E) as [_ Hv]. rewrite Hv. cbn [List.filter snd].
    rewrite E, decide_True by done. rewrite !fmap_cons. by f_equal.
  - rewrite decide_False by done.
    destruct (F64.notna v); [|done]. cbn [List.filter snd]. by rewrite E.
Qed.

Lemma f64_detect_type1_short r (q_up : spec_float) :
  length (F64.dropna r) < 5 → F64.detect_type1_spike_up r q_up = Ok [].
Proof.
  intros Hlen. unfold F64.detect_type1_spike_up.
  by rewrite (proj2 (Nat.ltb_lt _ _) Hlen).
Qed.

Lemma f64_detect_type1_long r (q_up : spec_float) :
  5 ≤ length (F64.dropna r) → F64.valid_quantile q_up →
  F64.detect_type1_spike_up r q_up =
    Ok (F64.index
          (filter (λ p, F64.fgt p.2
                          (F64.percentile_linear (F64.valid (F64.values r))
                             (F64.fmul q_up (F64.of_Q 100))) = true) r)).
Proof.
  intros Hlen Hq. unfold F64.detect_type1_spike_up.
  rewrite (proj2 (Nat.ltb_ge _ _) Hlen), f64_quantile_Ok by done.
  rewrite f64_valid_values_dropna. cbn.
  rewrite f64_index_where_gt_dropna.
  destruct (F64.valid (F64.values r)) eqn:E; [|done].
  rewrite <- f64_length_valid_values, E in Hlen. simpl in Hlen. lia.
Qed.

End F64Facts.

(** ** The scan in double arithmetic *)

Lemma f64_diff_length (g : list spec_float) : length (F64.diff g) = length g.
Proof. unfold F64.diff. rewrite length_zip_with. simpl. lia. Qed.

Lemma f64_diff_lookup (g : list spec_float) (p : nat) (a b : spec_float) :
  g !! p = Some a → g !! S p = Some b →
  F64.diff g !! S p = Some (F64.fsub b a).
Proof.
  intros Ha Hb. unfold F64.diff. rewrite lookup_zip_with, Hb. simpl.
  by rewrite Ha.
Qed.

Section F64Scan.

Context {T : Type}.
Variables (r : list (T * spec_float)) (th : F64.thresholds) (w_pre w_post : Z).

(** What the scan reads at an interior position. *)
Lemma f64_interior_lookup (p : nat) :
  1 ≤ p → p + 2 ≤ length r →
  ∃ (t : T) (a b : spec_float),
    F64.index r !! p = Some t ∧
    F64.values r !! (p - 1) = Some a ∧
    F64.values r !! p = Some b ∧
    F64.diff (F64.values r) !! p = Some (F64.fsub b a).
Proof.
  intros H1 H2. destruct p as [|p]; [lia|].
  destruct (lookup_lt_is_Some_2 r p) as [[t0 a] Ha]; [lia|].
  destruct (lookup_lt_is_Some_2 r (S p)) as [[t b] Hb]; [lia|].
  exists t, a, b. unfold F64.index, F64.values.
  replace (S p - 1) with p by lia.
  rewrite !list_lookup_fmap, Ha, Hb. simpl. repeat split; try done.
  erewrite f64_diff_lookup; [| by rewrite list_lookup_fmap, Ha
                             | by rewrite list_lookup_fmap, Hb].
  done.
Qed.

(** At an interior position the step records the pattern of the position,
    and nothing else; where the guard against missing values skips, the
    turn condition fails as well. *)
Lemma f64_scan_step_pattern (labels : gmap string (list T)) (p : nat) :
  1 ≤ p → p + 2 ≤ length r →
  ∃ t : T,
    F64.index r !! p = Some t ∧
    F64.scan_step r (F64.values r) (F64.diff (F64.values r)) th w_pre w_post
      labels p =
      Ok (match F64.pattern_at (F64.values r) th w_pre w_post p with
          | Some k => append_label labels k t
          | None => labels
          end).
Proof.
  intros H1 H2.
  destruct (f64_interior_lookup p H1 H2) as (t & a & b & Ht & Ha & Hb & Hh).
  exists t. split; [done|].
  unfold F64.scan_step, iloc, F64.pattern_at, F64.turn_at, F64.pre_window,
    F64.post_window.
  rewrite Ht, Ha, Hb, Hh. cbn [mbind result_bind].
  destruct (F64.turn_cond th a b (F64.fsub b a)) eqn:Hturn.
  - destruct (f64_turn_cond_notna _ _ _ _ Hturn) as (-> & -> & ->).
    cbn [orb negb].
    by destruct (F64.trend_label _ _ _), (F64.trend_label _ _ _).
  - cbn [negb]. by destruct (_ || _).
Qed.

Lemma f64_scan_loop_buckets (ps : list nat) (labels : gmap string (list T)) :
  Forall (λ p, 1 ≤ p ∧ p + 2 ≤ length r) ps →
  ∃ labels' : gmap string (list T),
    for_each (F64.scan_step r (F64.values r) (F64.diff (F64.values r)) th
                w_pre w_post) labels ps = Ok labels' ∧
    ∀ k : string,
      bucket labels' k =
        bucket labels k ++
        omap (λ p, F64.index r !! p)
          (filter (λ p, F64.pattern_at (F64.values r) th w_pre w_post p = Some k)
             ps).
Proof.
  intros Hps. revert labels.
  induction Hps as [|p ps [H1 H2] _ IH]; intros labels.
  - exists labels. split; [done|]. intros k. by rewrite app_nil_r.
  - destruct (f64_scan_step_pattern labels p H1 H2) as (t & Ht & Hstep).
    cbn [for_each]. rewrite Hstep. cbn [mbind result_bind].
    destruct (IH (match F64.pattern_at (F64.values r) th w_pre w_post p with
                  | Some k => append_label labels k t
                  | None => labels
                  end)) as (labels' & Hrest & Hb).
    exists labels'. split; [done|]. intros k. rewrite Hb, filter_cons.
    destruct (F64.pattern_at (F64.values r) th w_pre w_post p) as [k0|] eqn:Hp.
    + rewrite bucket_append_label.
      destruct (decide (k0 = k)) as [->|Hne].
      * rewrite decide_True by done. cbn [omap list_omap]. rewrite Ht.
        by rewrite <- app_assoc.
      * rewrite decide_False by congruence. done.
    + by rewrite decide_False by done.
Qed.

End F64Scan.

Section F64Turn.

Context {T : Type}.
Implicit Types r : list (T * spec_float).

Lemma f64_derive_thresholds_Ok (g h : list spec_float)
    (q_h q_flat q_trend : spec_float) :
  F64.valid_quantile q_h → F64.valid_quantile q_flat →
  F64.valid_quantile q_trend →
  ∃ th : F64.thresholds, F64.derive_thresholds g h q_h q_flat q_trend = Ok th.
Proof.
  intros. unfold F64.derive_thresholds.
  rewrite !f64_quantile_Ok by done.
  destruct (existsb F64.notna h); cbn;
    destruct (bool_decide _); cbn; eauto.
Qed.

(** The step threshold is the [q_h]-quantile of the absolute differences,
    or plus infinity when no difference is defined. *)
Lemma f64_derive_thresholds_th_h (g h : list spec_float)
    (q_h q_flat q_trend : spec_float) (th : F64.thresholds) :
  F64.derive_thresholds g h q_h q_flat q_trend = Ok th →
  if existsb F64.notna h
  then F64.quantile (F64.fabs <$> h) q_h = Ok (F64.th_h th)
  else F64.th_h th = F64.inf.
Proof.
  unfold F64.derive_thresholds. intros Hth.
  destruct (existsb F64.notna h).
  - destruct (F64.quantile (F64.fabs <$> h) q_h) as [x|]; [|done]. cbn in Hth.
    step_binds Hth. by injection Hth as <-.
  - cbn in Hth. step_binds Hth. by injection Hth as <-.
Qed.

Lemma f64_detect_type2_short r (w_pre w_post : Z)
    (q_h q_flat q_trend : spec_float) :
  (Z.of_nat (length (F64.dropna r)) < w_pre + w_post + 4)%Z →
  F64.detect_type2_turn_patterns r w_pre w_post q_h q_flat q_trend = Ok ∅.
Proof.
  intros Hlen. unfold F64.detect_type2_turn_patterns.
  by rewrite (proj2 (Z.ltb_lt _ _) Hlen).
Qed.

(** The buckets of a run on a long enough series, one by one. *)
Lemma f64_detect_type2_buckets r (w_pre w_post : Z)
    (q_h q_flat q_trend : spec_float) (m : gmap string (list T)) :
  ¬ (Z.of_nat (length (F64.dropna r)) < w_pre + w_post + 4)%Z →
  F64.detect_type2_turn_patterns r w_pre w_post q_h q_flat q_trend = Ok m →
  ∃ th : F64.thresholds,
    F64.derive_thresholds (F64.values (F64.dropna r))
      (F64.diff (F64.values (F64.dropna r))) q_h q_flat q_trend = Ok th ∧
    ∀ k : string,
      bucket m k = F64.pattern_stamps (F64.dropna r) th w_pre w_post k.
Proof.
  intros Hlong. unfold F64.detect_type2_turn_patterns.
  rewrite (proj2 (Z.ltb_ge _ _)) by lia.
  destruct (F64.derive_thresholds _ _ _ _ _) as [th|] eqn:Hth; [|done]. cbn.
  destruct (f64_scan_loop_buckets (F64.dropna r) th w_pre w_post
              (seq 1 (length (F64.dropna r) - 1 - 1)) ∅
              (interior_positions _)) as (labels' & -> & Hb).
  intros [= <-]. exists th. split; [done|]. intros k. by rewrite Hb.
Qed.

Lemma f64_detect_type2_returns r (w_pre w_post : Z)
    (q_h q_flat q_trend : spec_float) :
  F64.valid_quantile q_h → F64.valid_quantile q_flat →
  F64.valid_quantile q_trend →
  ∃ m : gmap string (list T),
    F64.detect_type2_turn_patterns r w_pre w_post q_h q_flat q_trend = Ok m.
Proof.
  intros. unfold F64.detect_type2_turn_patterns.
  destruct (_ <? _)%Z; [eauto|].
  destruct (f64_derive_thresholds_Ok (F64.values (F64.dropna r))
              (F64.diff (F64.values (F64.dropna r))) q_h q_flat q_trend)
    as [th ->]; [done..|]. cbn.
  destruct (f64_scan_loop_buckets (F64.dropna r) th w_pre w_post
              (seq 1 (length (F64.dropna r) - 1 - 1)) ∅
              (interior_positions _)) as (labels' & -> & _). eauto.
Qed.

(** A timestamp of [pattern_stamps] is that of an interior position with
    the pattern. *)
Lemma f64_elem_of_pattern_stamps r (th : F64.thresholds) (w_pre w_post : Z)
    (k : string) (ts : T) :
  ts ∈ F64.pattern_stamps r th w_pre w_post k ↔
  ∃ p : nat, 1 ≤ p ∧ p + 2 ≤ length r ∧ F64.index r !! p = Some ts ∧
             F64.pattern_at (F64.values r) th w_pre w_post p = Some k.
Proof.
  unfold F64.pattern_stamps. rewrite list_elem_of_omap. split.
  - intros (p & [Hpat Hp%elem_of_seq]%list_elem_of_filter & Hts).
    exists p. repeat split; [lia..|done|done].
  - intros (p & H1 & H2 & Hts & Hpat). exists p. split; [|done].
    apply list_elem_of_filter. split; [done|]. apply elem_of_seq. lia.
Qed.

(** A timestamp of a bucket is that of an interior position with the
    pattern of the bucket. *)
Lemma f64_bucket_position r (w_pre w_post : Z)
    (q_h q_flat q_trend : spec_float) (m : gmap string (list T))
    (k : string) (ts : T) :
  F64.detect_type2_turn_patterns r w_pre w_post q_h q_flat q_trend = Ok m →
  ts ∈ bucket m k →
  ∃ (th : F64.thresholds) (p : nat),
    F64.derive_thresholds (F64.values (F64.dropna r))
      (F64.diff (F64.values (F64.dropna r))) q_h q_flat q_trend = Ok th ∧
    1 ≤ p ∧ p + 2 ≤ length (F64.dropna r) ∧
    F64.index (F64.dropna r) !! p = Some ts ∧
    F64.pattern_at (F64.values (F64.dropna r)) th w_pre w_post p = Some k.
Proof.
  intros Hres Hin.
  destruct (decide (Z.of_nat (length (F64.dropna r)) < w_pre + w_post + 4)%Z)
    as [Hshort|Hlong].
  - rewrite f64_detect_type2_short in Hres by done. injection Hres as <-.
    unfold bucket in Hin. rewrite lookup_empty in Hin. by apply elem_of_nil in Hin.
  - destruct (f64_detect_type2_buckets r _ _ _ _ _ m Hlong Hres)
      as (th & Hth & Hb).
    rewrite Hb in Hin. apply f64_elem_of_pattern_stamps in Hin
      as (p & ? & ? & ? & ?). by exists th, p.
Qed.

End F64Turn.

(** ** The sign test of the turn condition *)

(** A product that compares at or below zero: the factors have opposite
    signs, or one of them is a zero, or they have the same sign and the
    product underflowed to zero. *)
Lemma f64_fmul_nonpositive (x y : spec_float) :
  F64.fle (F64.fmul x y) (F64.of_Z 0) = true →
  F64.opposite_signs x y = true ∨ F64.is_zero x = true ∨
  F64.is_zero y = true ∨
  (F64.same_sign x y = true ∧ F64.is_zero (F64.fmul x y) = true).
Proof.
  destruct x as [sx|sx| |sx mx ex], y as [sy|sy| |sy my ey]; try done;
    try (by right; left); try (by right; right; left);
    try (by destruct sx, sy; (done || by left)).
  unfold F64.fmul, SFmul.
  destruct (binary_round_aux_shape (xorb sx sy) (Zpos (mx * my)) (ex + ey)
              loc_Exact) as [E|[E|(m & e & E)]]; [done|..]; rewrite E;
    destruct sx, sy; try done; try (by left); by right; right; right.
Qed.

Section F64Claims.

Context {T : Type}.
Implicit Types r : list (T * spec_float).

(** C1, as the code has it. On a series of doubles with at least 5
    non-missing points: for a quantile [q_up] in [0, 1] the detector returns
    exactly the timestamps, in the order of the series, of the rows whose
    value is strictly greater than the threshold [th] that [Series.quantile]
    computes, the linear interpolation between order statistics evaluated in
    double arithmetic (every operation rounded) at the virtual index
    [(n - 1) * q_up]; with unique timestamps a timestamp is returned exactly
    when its value exceeds [th], and the timestamp of a value at or below
    [th] is not returned.  For [q_up] outside [0, 1], or NaN, the call
    raises [ValueError]. *)
Theorem spike_up_rounded r (q_up : spec_float) :
  5 ≤ length (F64.dropna r) →
  (F64.valid_quantile q_up →
   ∃ (s : list spec_float) (th : spec_float) (l : list T),
     F64.order_statistics (F64.valid (F64.values r)) s ∧
     th = F64.interpolate s (F64.fmul q_up (F64.of_Q 100)) ∧
     F64.detect_type1_spike_up r q_up = Ok l ∧
     l = F64.index (filter (λ p, F64.fgt p.2 th = true) r) ∧
     (NoDup (F64.index r) →
      ∀ (t : T) (v : spec_float),
        (t, v) ∈ r → (t ∈ l ↔ F64.fgt v th = true)) ∧
     (NoDup (F64.index r) →
      ∀ (t : T) (v : spec_float),
        (t, v) ∈ r → F64.fle v th = true → t ∉ l)) ∧
  (¬ F64.valid_quantile q_up →
   F64.detect_type1_spike_up r q_up = Raise ValueError).
Proof.
  intros Hlen. split.
  - intros Hq.
    set (th := F64.percentile_linear (F64.valid (F64.values r))
                 (F64.fmul q_up (F64.of_Q 100))).
    assert (NoDup (F64.index r) → ∀ (t : T) (v : spec_float), (t, v) ∈ r →
              (t ∈ F64.index (filter (λ p, F64.fgt p.2 th = true) r) ↔
               F64.fgt v th = true)) as Hiff.
    { intros Hnd t v Hin. unfold F64.index. rewrite list_elem_of_fmap. split.
      - intros ([t' x] & -> & [Hgt Hin']%list_elem_of_filter). simpl in *.
        by rewrite (f64_index_functional r t' v x Hnd Hin Hin').
      - intros Hgt. exists (t, v). split; [done|].
        by apply list_elem_of_filter. }
    exists (F64.sort_values (F64.valid (F64.values r))), th,
      (F64.index (filter (λ p, F64.fgt p.2 th = true) r)).
    split; [apply f64_sort_values_order_statistics|].
    split; [done|]. split; [by apply f64_detect_type1_long|].
    split; [done|]. split; [done|].
    intros Hnd t v Hin Hle Ht. apply (Hiff Hnd t v Hin) in Ht.
    apply f64_fle_not_flt in Hle. unfold F64.fgt in Ht. congruence.
  - intros Hq. unfold F64.detect_type1_spike_up.
    rewrite (proj2 (Nat.ltb_ge _ _) Hlen). by rewrite f64_quantile_Raise.
Qed.

(** C2, as the code has it. Every timestamp placed in a bucket is the
    timestamp of an interior position (1 <= t <= n - 2) of the cleaned
    series at which the turn condition holds as the code evaluates it: the
    rounded product [g[t-1] * g[t]] compares at or below zero and
    [|h[t]| >= th_h], with [h] the first difference of the cleaned series
    and [th_h] the [q_h]-quantile of its absolute values.  The product
    compares at or below zero when the two values have opposite signs, when
    one of them is a zero, or when they have the same sign and their product
    underflows to zero.  When the timestamps of the series are unique, no
    timestamp is in two buckets. *)
Theorem turn_patterns_sound_rounded r (w_pre w_post : Z)
    (q_h q_flat q_trend : spec_float) (m : gmap string (list T)) :
  F64.detect_type2_turn_patterns r w_pre w_post q_h q_flat q_trend = Ok m →
  let g := F64.values (F64.dropna r) in
  let h := F64.diff g in
  (∀ (k : string) (ts : T), ts ∈ bucket m k →
     ∃ (t : nat) (g_prev g_curr thq : spec_float),
       1 ≤ t ∧ t + 2 ≤ length (F64.dropna r) ∧
       F64.index (F64.dropna r) !! t = Some ts ∧
       g !! (t - 1) = Some g_prev ∧ g !! t = Some g_curr ∧
       h !! t = Some (F64.fsub g_curr g_prev) ∧
       F64.quantile (F64.fabs <$> h) q_h = Ok thq ∧
       F64.fle (F64.fmul g_prev g_curr) (F64.of_Z 0) = true ∧
       F64.fge (F64.fabs (F64.fsub g_curr g_prev)) thq = true ∧
       (F64.opposite_signs g_prev g_curr = true ∨
        F64.is_zero g_prev = true ∨ F64.is_zero g_curr = true ∨
        (F64.same_sign g_prev g_curr = true ∧
         F64.is_zero (F64.fmul g_prev g_curr) = true))) ∧
  (NoDup (F64.index r) →
   ∀ (k1 k2 : string) (ts : T),
     ts ∈ bucket m k1 → ts ∈ bucket m k2 → k1 = k2).
Proof.
  intros Hres g h. split.
  - intros k ts Hin.
    destruct (f64_bucket_position r _ _ _ _ _ m k ts Hres Hin)
      as (th & p & Hth & H1 & H2 & Hts & Hpat).
    destruct (f64_interior_lookup (F64.dropna r) p H1 H2)
      as (t' & a & b & _ & Ha & Hb & Hh).
    unfold F64.pattern_at, F64.turn_at in Hpat. rewrite Ha, Hb, Hh in Hpat.
    destruct (F64.turn_cond th a b (F64.fsub b a)) eqn:Hturn; [|done].
    destruct (f64_turn_cond_notna _ _ _ _ Hturn) as (_ & _ & Hc).
    unfold F64.turn_cond in Hturn. apply andb_true_iff in Hturn as [Hs Hstep].
    apply f64_derive_thresholds_th_h in Hth.
    assert (existsb F64.notna (F64.diff (F64.values (F64.dropna r))) = true)
      as Hex.
    { apply existsb_exists. exists (F64.fsub b a). split.
      - apply list_elem_of_In. by eapply list_elem_of_lookup_2.
      - unfold F64.notna. by rewrite Hc. }
    rewrite Hex in Hth.
    exists p, a, b, (F64.th_h th). repeat split; try done.
    by apply f64_fmul_nonpositive.
  - intros Hnd k1 k2 ts Hin1 Hin2.
    destruct (f64_bucket_position r _ _ _ _ _ m k1 ts Hres Hin1)
      as (th1 & p1 & Hth1 & _ & _ & Hts1 & Hpat1).
    destruct (f64_bucket_position r _ _ _ _ _ m k2 ts Hres Hin2)
      as (th2 & p2 & Hth2 & _ & _ & Hts2 & Hpat2).
    assert (NoDup (F64.index (F64.dropna r))) as Hnd'.
    { eapply sublist_NoDup; [exact Hnd|].
      apply fmap_sublist, f64_dropna_sublist. }
    assert (p1 = p2) as -> by (by eapply NoDup_lookup).
    congruence.
Qed.

(** C8, as the code has it. A strictly increasing series of 20 non-missing
    doubles whose values are all at least [2 ^ -511] (about 1.5e-154), or
    all at most [-2 ^ -511], gives four empty buckets with the default
    parameters: the series neither crosses nor touches zero, and no product
    of two of its values underflows to zero. *)
Theorem turn_patterns_same_sign_rounded r :
  length (F64.dropna r) = 20 →
  Sorted (λ x y, F64.flt x y = true) (F64.values (F64.dropna r)) →
  Forall (λ v, F64.well_formed v = true) (F64.values (F64.dropna r)) →
  Forall (λ v, F64.fle F64.safe_magnitude v = true)
    (F64.values (F64.dropna r)) ∨
  Forall (λ v, F64.fle v (F64.fneg F64.safe_magnitude) = true)
    (F64.values (F64.dropna r)) →
  all_buckets_empty
    (F64.detect_type2_turn_patterns r 3 3 (F64.of_Q 0.9) (F64.of_Q 0.2)
       (F64.of_Q 0.7)).
Proof.
  intros _ _ Hwf Hsign.
  destruct (f64_detect_type2_returns r 3 3 (F64.of_Q 0.9) (F64.of_Q 0.2)
              (F64.of_Q 0.7)) as [m Hm]; [by vm_compute..|].
  exists m. split; [done|].
  apply Forall_forall. intros k _. apply no_elem_nil. intros ts Hin.
  destruct (f64_bucket_position r _ _ _ _ _ m k ts Hm Hin)
    as (th & p & _ & H1 & H2 & _ & Hpat).
  destruct (f64_interior_lookup (F64.dropna r) p H1 H2)
    as (t' & a & b & _ & Ha & Hb & Hh).
  unfold F64.pattern_at, F64.turn_at in Hpat. rewrite Ha, Hb, Hh in Hpat.
  destruct (F64.turn_cond th a b (F64.fsub b a)) eqn:Hturn; [|done].
  unfold F64.turn_cond in Hturn. apply andb_true_iff in Hturn as [Hs _].
  apply list_elem_of_lookup_2 in Ha, Hb.
  rewrite Forall_forall in Hwf.
  rewrite f64_fmul_same_sign_positive in Hs; [done|by apply Hwf..|].
  destruct Hsign as [Hp|Hn]; [left|right];
    rewrite Forall_forall in *; auto.
Qed.

(** C9, as the code has it. When the non-missing values of the series are
    finite, at every interior position [1 <= t_pos <= n - 2] of the cleaned
    series the reads [g[t_pos - 1]], [g[t_pos]] and [h[t_pos]] succeed and
    none is missing, so the test guarding the skip is false; and every
    interior position is tested against the turn condition: a run that
    passes the length test puts in each bucket exactly the interior
    positions, in order, where the turn condition holds and the labels of
    the two windows make up the name of the bucket. *)
Theorem skip_branch_unreachable_finite r (w_pre w_post : Z)
    (q_h q_flat q_trend : spec_float) :
  Forall (λ v, F64.is_finite v = true) (F64.values (F64.dropna r)) →
  let g := F64.values (F64.dropna r) in
  let h := F64.diff g in
  (∀ t_pos : nat, 1 ≤ t_pos → t_pos + 2 ≤ length (F64.dropna r) →
     ∃ g_prev g_curr h_curr : spec_float,
       iloc g (t_pos - 1) = Ok g_prev ∧ iloc g t_pos = Ok g_curr ∧
       iloc h t_pos = Ok h_curr ∧
       F64.isna g_prev || F64.isna g_curr || F64.isna h_curr = false) ∧
  (∀ m : gmap string (list T),
     F64.detect_type2_turn_patterns r w_pre w_post q_h q_flat q_trend = Ok m →
     ¬ (Z.of_nat (length (F64.dropna r)) < w_pre + w_post + 4)%Z →
     ∃ th : F64.thresholds,
       F64.derive_thresholds g h q_h q_flat q_trend = Ok th ∧
       ∀ k : string,
         bucket m k =
           omap (λ p, F64.index (F64.dropna r) !! p)
             (filter (λ p, F64.pattern_at g th w_pre w_post p = Some k)
                (seq 1 (length (F64.dropna r) - 1 - 1)))).
Proof.
  intros Hfin g h. split.
  - intros p H1 H2.
    destruct (f64_interior_lookup (F64.dropna r) p H1 H2)
      as (t' & a & b & _ & Ha & Hb & Hh).
    exists a, b, (F64.fsub b a). unfold iloc. subst g h.
    rewrite Ha, Hb, Hh. repeat split; try done.
    rewrite Forall_forall in Hfin.
    apply list_elem_of_lookup_2 in Ha, Hb.
    pose proof (Hfin a Ha) as Hfa. pose proof (Hfin b Hb) as Hfb.
    rewrite f64_fsub_finite_notna by done. by destruct a, b.
  - intros m Hm Hlong. by apply f64_detect_type2_buckets.
Qed.

End F64Claims.

(** ** Concrete runs in double arithmetic *)

(** Scenario 1 of the specification: the threshold is the double
    47.059999999999974 and only the spike is reported. *)
Example scenario1_f64_threshold :
  F64.quantile (F64.values scenario1_f64) (F64.of_Q 0.99)
    = Ok (S754_finite false 6623106202001732 (-47)).
Proof. vm_compute. reflexivity. Qed.

Example scenario1_f64_result :
  F64.detect_type1_spike_up scenario1_f64 (F64.of_Q 0.99) = Ok [6].
Proof. vm_compute. reflexivity. Qed.

(** The thresholds of [jump_f64]: the step threshold is 1.0, the flat
    threshold the double 4.800000000000001 and the trend threshold the
    double 39.79999999999991. *)
Example jump_f64_thresholds :
  F64.derive_thresholds (F64.values jump_f64) (F64.diff (F64.values jump_f64))
    (F64.of_Q 0.9) (F64.of_Q 0.2) (F64.of_Q 0.7)
  = Ok (F64.Thresholds (F64.of_Z 1)
          (S754_finite false 5404319552844596 (-50))
          (S754_finite false 5601352036542042 (-47))).
Proof. vm_compute. reflexivity. Qed.

Lemma jump_f64_result :
  F64.detect_type2_turn_patterns jump_f64 3 3 (F64.of_Q 0.9)
    (F64.of_Q 0.2) (F64.of_Q 0.7) = Ok {["flat_turn_up"%string := [14]]}.
Proof. vm_compute. reflexivity. Qed.

(** Rounding makes the results depend on the unit of the values.  On the
    integers 0 to 50 at the quantile 0.58 the threshold is the double
    28.999999999999996 and the rows from 29 on are returned; shifted by
    1000 the threshold is 1029.0 and row 29 is not. *)
Example count_f64_result :
  F64.quantile (F64.values count_f64) (F64.of_Q 0.58)
    = Ok (S754_finite false 8162774324609023 (-48)) ∧
  F64.detect_type1_spike_up count_f64 (F64.of_Q 0.58) = Ok (seq 29 22) ∧
  F64.quantile (F64.values count_shifted_f64) (F64.of_Q 0.58)
    = Ok (F64.of_Z 1029) ∧
  F64.detect_type1_spike_up count_shifted_f64 (F64.of_Q 0.58)
    = Ok (seq 30 21).
Proof. repeat split; vm_compute; reflexivity. Qed.

(** On [dip_f64] the trend threshold is [50 * 1.1], the double
    55.00000000000001, which the mean 55 after the dip does not reach; on
    the series divided by 5 it is 11.0, and the dip is a [flat_turn_up]. *)
Example dip_f64_result :
  F64.detect_type2_turn_patterns dip_f64 3 3 (F64.of_Q 0.9) (F64.of_Q 0.2)
    (F64.of_Q 0.7) = Ok ∅ ∧
  F64.detect_type2_turn_patterns dip_fifth_f64 3 3 (F64.of_Q 0.9)
    (F64.of_Q 0.2) (F64.of_Q 0.7) = Ok {["flat_turn_up"%string := [5]]}.
Proof. split; vm_compute; reflexivity. Qed.

(** On [tiny_f64] every product of two values underflows to zero. *)
Lemma tiny_f64_result :
  F64.detect_type2_turn_patterns tiny_f64 3 3 (F64.of_Q 0.9)
    (F64.of_Q 0.2) (F64.of_Q 0.7) = Ok {["flat_turn_up"%string := [14]]}.
Proof. vm_compute. reflexivity. Qed.

Lemma near_spike_result :
  F64.detect_type1_spike_up near_spike (F64.of_Q 0.99) = Ok [].
Proof. vm_compute. reflexivity. Qed.

(** Over the real numbers the quantile of [near_spike] at the double 0.99
    is below its last value, which is then the one spike. *)
Lemma near_spike_exact :
  ∃ q th : Q,
    F64.to_Q (F64.of_Q 0.99) = Some q ∧
    linear_quantile (valid (values (exact_rows near_spike))) q th ∧
    index (filter (is_spike th) (exact_rows near_spike)) = [4].
Proof.
  eexists _. 
  destruct (spike_up_exact_core (exact_rows near_spike)
              (8917127262193582 # 9007199254740992))
    as (th & Hq & Hres); [vm_compute; lia | done | done |].
  exists th. split; [vm_compute; reflexivity|]. split; [done|].
  assert (detect_type1_spike_up (exact_rows near_spike)
            (8917127262193582 # 9007199254740992) = Ok [4]) as Hrun
    by (vm_compute; reflexivity).
  rewrite Hrun in Hres. injection Hres as Heq. symmetry. exact Heq.
Qed.

(** C1, refuted as stated: a quantile parameter outside [0, 1] raises
    [ValueError]; and on [near_spike] the rounded threshold is the largest
    value itself, so that no row is returned, while the value of row 4 is
    strictly greater than the quantile of the specification. *)
Lemma spike_up_not_exact :
  F64.detect_type1_spike_up scenario1_f64 (F64.of_Z 2) = Raise ValueError ∧
  F64.detect_type1_spike_up near_spike (F64.of_Q 0.99) = Ok [] ∧
  ∃ q th : Q,
    F64.to_Q (F64.of_Q 0.99) = Some q ∧
    linear_quantile (valid (values (exact_rows near_spike))) q th ∧
    index (filter (is_spike th) (exact_rows near_spike)) = [4].
Proof.
  split; [vm_compute; reflexivity|]. split; [exact near_spike_result|].
  exact near_spike_exact.
Qed.

(** ** The claims on concrete series of doubles *)

Lemma spike_up_rounded_scenario1 :
  (∃ (s : list spec_float) (th : spec_float) (l : list nat),
     F64.order_statistics (F64.valid (F64.values scenario1_f64)) s ∧
     th = F64.interpolate s (F64.fmul (F64.of_Q 0.99) (F64.of_Q 100)) ∧
     F64.detect_type1_spike_up scenario1_f64 (F64.of_Q 0.99) = Ok l ∧
     l = F64.index (filter (λ p, F64.fgt p.2 th = true) scenario1_f64) ∧
     (NoDup (F64.index scenario1_f64) →
      ∀ (t : nat) (v : spec_float),
        (t, v) ∈ scenario1_f64 → (t ∈ l ↔ F64.fgt v th = true)) ∧
     (NoDup (F64.index scenario1_f64) →
      ∀ (t : nat) (v : spec_float),
        (t, v) ∈ scenario1_f64 → F64.fle v th = true → t ∉ l)) ∧
  F64.detect_type1_spike_up scenario1_f64 (F64.of_Z 2) = Raise ValueError.
Proof.
  split.
  - destruct (spike_up_rounded scenario1_f64 (F64.of_Q 0.99)) as [H _];
      [vm_compute; lia|].
    apply H. split; vm_compute; reflexivity.
  - destruct (spike_up_rounded scenario1_f64 (F64.of_Z 2)) as [_ H];
      [vm_compute; lia|].
    apply H. intros [_ Hle]. vm_compute in Hle. discriminate Hle.
Defined.

(** C2, refuted as stated: on [tiny_f64] timestamp 14 is in a bucket, and
    the product of the values at positions 13 and 14 is strictly positive;
    in double arithmetic it underflows to zero. *)
Lemma turn_without_sign_change :
  F64.detect_type2_turn_patterns tiny_f64 3 3 (F64.of_Q 0.9)
    (F64.of_Q 0.2) (F64.of_Q 0.7) = Ok {["flat_turn_up"%string := [14]]} ∧
  F64.index tiny_f64 !! 14 = Some 14 ∧ NoDup (F64.index tiny_f64) ∧
  ∃ (g_prev g_curr : spec_float) (x y : Q),
    F64.values (F64.dropna tiny_f64) !! 13 = Some g_prev ∧
    F64.values (F64.dropna tiny_f64) !! 14 = Some g_curr ∧
    F64.to_Q g_prev = Some x ∧ F64.to_Q g_curr = Some y ∧
    (0 < x * y)%Q.
Proof.
  split; [exact tiny_f64_result|]. split; [reflexivity|].
  split; [apply (bool_decide_unpack _); vm_compute; reflexivity|].
  eexists _, _, _, _.
  split; [vm_compute; reflexivity|]. split; [vm_compute; reflexivity|].
  split; [vm_compute; reflexivity|]. split; [vm_compute; reflexivity|].
  vm_compute. reflexivity.
Qed.

Lemma turn_patterns_sound_rounded_tiny :
  (∃ (t : nat) (g_prev g_curr thq : spec_float),
     1 ≤ t ∧ t + 2 ≤ length (F64.dropna tiny_f64) ∧
     F64.index (F64.dropna tiny_f64) !! t = Some 14 ∧
     F64.values (F64.dropna tiny_f64) !! (t - 1) = Some g_prev ∧
     F64.values (F64.dropna tiny_f64) !! t = Some g_curr ∧
     F64.diff (F64.values (F64.dropna tiny_f64)) !! t
       = Some (F64.fsub g_curr g_prev) ∧
     F64.quantile (F64.fabs <$> F64.diff (F64.values (F64.dropna tiny_f64)))
       (F64.of_Q 0.9) = Ok thq ∧
     F64.fle (F64.fmul g_prev g_curr) (F64.of_Z 0) = true ∧
     F64.fge (F64.fabs (F64.fsub g_curr g_prev)) thq = true ∧
     (F64.opposite_signs g_prev g_curr = true ∨
      F64.is_zero g_prev = true ∨ F64.is_zero g_curr = true ∨
      (F64.same_sign g_prev g_curr = true ∧
       F64.is_zero (F64.fmul g_prev g_curr) = true))) ∧
  (∀ k : string,
     14 ∈ bucket ({["flat_turn_up"%string := [14]]} : gmap string (list nat)) k →
     k = "flat_turn_up"%string).
Proof.
  destruct (turn_patterns_sound_rounded tiny_f64 3 3 (F64.of_Q 0.9)
              (F64.of_Q 0.2) (F64.of_Q 0.7) _ tiny_f64_result) as [Hs Hone].
  assert (14 ∈ bucket ({["flat_turn_up"%string := [14]]}
                         : gmap string (list nat)) "flat_turn_up") as Hin.
  { vm_compute. left. }
  split.
  - by apply (Hs "flat_turn_up"%string 14).
  - intros k Hk. apply (λ Hnd, Hone Hnd k _ 14 Hk Hin).
    apply (bool_decide_unpack _). by vm_compute.
Defined.

(** C8, refuted as stated: [jump_f64] and [tiny_f64] are strictly
    increasing series of 20 non-missing points; the jump across zero of the
    first is a [flat_turn_up], and so is the jump of the second, whose
    values are all positive. *)
Lemma increasing_series_has_turn :
  (length (F64.dropna jump_f64) = 20 ∧
   Sorted (λ x y, F64.flt x y = true) (F64.values (F64.dropna jump_f64)) ∧
   ¬ all_buckets_empty (F64.detect_type2_turn_patterns jump_f64 3 3 (F64.of_Q 0.9)
    (F64.of_Q 0.2) (F64.of_Q 0.7))) ∧
  (length (F64.dropna tiny_f64) = 20 ∧
   Sorted (λ x y, F64.flt x y = true) (F64.values (F64.dropna tiny_f64)) ∧
   Forall (λ v, F64.flt (F64.of_Z 0) v = true)
     (F64.values (F64.dropna tiny_f64)) ∧
   ¬ all_buckets_empty (F64.detect_type2_turn_patterns tiny_f64 3 3 (F64.of_Q 0.9)
    (F64.of_Q 0.2) (F64.of_Q 0.7))).
Proof.
  assert (¬ Forall (λ k, bucket ({["flat_turn_up"%string := [14]]}
                                   : gmap string (list nat)) k = [])
              pattern_names) as Hne.
  { rewrite Forall_forall. intros Hall.
    assert (bucket ({["flat_turn_up"%string := [14]]} : gmap string (list nat))
              "flat_turn_up" = []) as Hb by (apply Hall; set_solver).
    done. }
  split; (split; [vm_compute; reflexivity|]);
    (split; [apply (bool_decide_unpack _); by vm_compute|]).
  - intros (m & Hm & Hall). rewrite jump_f64_result in Hm.
    injection Hm as <-. done.
  - split; [apply (bool_decide_unpack _); by vm_compute|].
    intros (m & Hm & Hall). rewrite tiny_f64_result in Hm.
    injection Hm as <-. done.
Qed.

Lemma turn_patterns_same_sign_rounded_ramp :
  all_buckets_empty (F64.detect_type2_turn_patterns ramp_f64 3 3 (F64.of_Q 0.9)
    (F64.of_Q 0.2) (F64.of_Q 0.7)).
Proof.
  apply turn_patterns_same_sign_rounded.
  - reflexivity.
  - apply (bool_decide_unpack _). by vm_compute.
  - apply (bool_decide_unpack _). by vm_compute.
  - left. apply (bool_decide_unpack _). by vm_compute.
Defined.

(** C9, refuted as stated: [plateau_f64] has no missing value and passes
    the length test; at the interior position 4 both values are plus
    infinity, their difference is NaN, and the guard of the skip holds. *)
Lemma skip_branch_reached :
  F64.dropna plateau_f64 = plateau_f64 ∧
  ¬ (Z.of_nat (length (F64.dropna plateau_f64)) < 3 + 3 + 4)%Z ∧
  1 ≤ 4 ∧ 4 + 2 ≤ length (F64.dropna plateau_f64) ∧
  ∃ g_prev g_curr h_curr : spec_float,
    iloc (F64.values (F64.dropna plateau_f64)) (4 - 1) = Ok g_prev ∧
    iloc (F64.values (F64.dropna plateau_f64)) 4 = Ok g_curr ∧
    iloc (F64.diff (F64.values (F64.dropna plateau_f64))) 4 = Ok h_curr ∧
    F64.isna g_prev = false ∧ F64.isna g_curr = false ∧
    F64.isna h_curr = true ∧
    F64.isna g_prev || F64.isna g_curr || F64.isna h_curr = true.
Proof.
  split; [reflexivity|]. split; [vm_compute; by intros [=]|].
  split; [lia|]. split; [vm_compute; lia|].
  exists F64.inf, F64.inf, F64.NaN. repeat split; vm_compute; reflexivity.
Qed.

Lemma skip_branch_unreachable_finite_jump :
  (∃ g_prev g_curr h_curr : spec_float,
     iloc (F64.values (F64.dropna jump_f64)) (14 - 1) = Ok g_prev ∧
     iloc (F64.values (F64.dropna jump_f64)) 14 = Ok g_curr ∧
     iloc (F64.diff (F64.values (F64.dropna jump_f64))) 14 = Ok h_curr ∧
     F64.isna g_prev || F64.isna g_curr || F64.isna h_curr = false) ∧
  (∃ th : F64.thresholds,
     F64.derive_thresholds (F64.values (F64.dropna jump_f64))
       (F64.diff (F64.values (F64.dropna jump_f64)))
       (F64.of_Q 0.9) (F64.of_Q 0.2) (F64.of_Q 0.7) = Ok th ∧
     ∀ k : string,
       bucket ({["flat_turn_up"%string := [14]]} : gmap string (list nat)) k =
         omap (λ p, F64.index (F64.dropna jump_f64) !! p)
           (filter (λ p, F64.pattern_at (F64.values (F64.dropna jump_f64)) th
                           3 3 p = Some k)
              (seq 1 (length (F64.dropna jump_f64) - 1 - 1)))).
Proof.
  destruct (skip_branch_unreachable_finite jump_f64 3 3 (F64.of_Q 0.9)
              (F64.of_Q 0.2) (F64.of_Q 0.7)) as [Hdef Hall].
  { apply (bool_decide_unpack _). by vm_compute. }
  split.
  - apply (Hdef 14); vm_compute; lia.
  - apply Hall; [exact jump_f64_result | vm_compute; by intros [=]].
Defined.

